(** * Absorbing-layer generation of MeshMaker / DRM

    A shallow embedding of [addAbsorbingLayer] and
    [_addRectangularAbsorbingLayer] (src/meshmaker/components/MeshMaker.py,
    and the identical copy in src/meshmaker/components/DRM/DRM.py).

    Conventions.
    - Python integers are [Z]; a [uint16] numpy array holds values reduced
      modulo 2^16 ([astype_uint16]).
    - Coordinates are rationals [Q]; the comparisons of the source are the
      comparisons of [Q].
    - numpy arrays are lists, a boolean mask is a [list bool], a Python dict
      keyed by integer tags is a [gmap Z _].
    - The geometry kernel (pyvista / VTK) and the nearest-neighbour index
      (pykdtree) are not part of the program: their calls are the fields of
      the records [Pyvista] and [Pykdtree], and every result below holds for
      all of their implementations.
    - The method runs in a state-and-exception monad over the singleton
      [MeshMaker]; an exception keeps the mutations made before it. *)

From Stdlib Require Import ZArith QArith Qminmax Qabs Qround String List Bool Lia.
From stdpp Require Import base option list gmap strings.
From Stdlib Require Import Lqa.
From stdpp Require Import pretty.

Local Open Scope Z_scope.

(** ** Numbers *)

Definition eps : Q := 1 # 1000000.

Definition Qltb (a b : Q) : bool := negb (Qle_bool b a).

Definition astype_uint16 (z : Z) : Z := z mod 65536.

(** ** Points and bounds *)

Record Point := mkPoint { px : Q; py : Q; pz : Q }.

Record Bounds := mkBounds
  { xmin : Q; xmax : Q; ymin : Q; ymax : Q; zmin : Q; zmax : Q }.

(** [dataset.bounds]: the componentwise minimum and maximum of the points;
    VTK reports the uninitialised box (1,-1,1,-1,1,-1) for no points. *)
Definition grow (b : Bounds) (p : Point) : Bounds :=
  {| xmin := Qmin (xmin b) (px p); xmax := Qmax (xmax b) (px p);
     ymin := Qmin (ymin b) (py p); ymax := Qmax (ymax b) (py p);
     zmin := Qmin (zmin b) (pz p); zmax := Qmax (zmax b) (pz p) |}.

Definition bounds (pts : list Point) : Bounds :=
  match pts with
  | [] => mkBounds 1 (-1) 1 (-1) 1 (-1)
  | p :: ps =>
      fold_left grow ps (mkBounds (px p) (px p) (py p) (py p) (pz p) (pz p))
  end.

(** ** RegionClassifier (MeshMaker.py, lines 499-529) *)

Module RegionClassifier.

(** [abs(coords - ref) < eps], elementwise. *)
Definition near (coords : list Q) (ref : Q) : list bool :=
  map (fun c => Qltb (Qabs (c - ref)) eps) coords.

(** [a & b] on boolean arrays. *)
Definition mask_and (a b : list bool) : list bool := zip_with andb a b.

(** [arr[mask] = v]. *)
Definition mask_assign (arr : list Z) (mask : list bool) (v : Z) : list Z :=
  zip_with (fun a (m : bool) => if m then v else a) arr mask.

Definition zeros (n : nat) : list Z := replicate n 0.

Record Faces := mkFaces
  { left : list bool; right : list bool; front : list bool;
    back : list bool; bottom : list bool }.

Definition faces (cellCentersCoords : list Point) : Faces :=
  let b := bounds cellCentersCoords in
  {| left   := near (map px cellCentersCoords) (xmin b);
     right  := near (map px cellCentersCoords) (xmax b);
     front  := near (map py cellCentersCoords) (ymin b);
     back   := near (map py cellCentersCoords) (ymax b);
     bottom := near (map pz cellCentersCoords) (zmin b) |}.

(** The seventeen masked assignments, in the order of the source. *)
Definition absRegion (cellCentersCoords : list Point) : list Z :=
  let f := faces cellCentersCoords in
  let '(l, r, fr, bk, bt) := (left f, right f, front f, back f, bottom f) in
  let a := zeros (length cellCentersCoords) in
  let a := mask_assign a l 1 in
  let a := mask_assign a r 2 in
  let a := mask_assign a fr 3 in
  let a := mask_assign a bk 4 in
  let a := mask_assign a bt 5 in
  let a := mask_assign a (mask_and l fr) 6 in
  let a := mask_assign a (mask_and l bk) 7 in
  let a := mask_assign a (mask_and r fr) 8 in
  let a := mask_assign a (mask_and r bk) 9 in
  let a := mask_assign a (mask_and l bt) 10 in
  let a := mask_assign a (mask_and r bt) 11 in
  let a := mask_assign a (mask_and fr bt) 12 in
  let a := mask_assign a (mask_and bk bt) 13 in
  let a := mask_assign a (mask_and (mask_and l fr) bt) 14 in
  let a := mask_assign a (mask_and (mask_and l bk) bt) 15 in
  let a := mask_assign a (mask_and (mask_and r fr) bt) 16 in
  let a := mask_assign a (mask_and (mask_and r bk) bt) 17 in
  a.

(** What the assignments leave in one cell, from that cell's five flags. *)
Definition set_if (m : bool) (v cur : Z) : Z := if m then v else cur.

Definition region_code (l r fr bk bt : bool) : Z :=
  set_if (r && bk && bt) 17
  (set_if (r && fr && bt) 16
  (set_if (l && bk && bt) 15
  (set_if (l && fr && bt) 14
  (set_if (bk && bt) 13
  (set_if (fr && bt) 12
  (set_if (r && bt) 11
  (set_if (l && bt) 10
  (set_if (r && bk) 9
  (set_if (r && fr) 8
  (set_if (l && bk) 7
  (set_if (l && fr) 6
  (set_if bt 5
  (set_if bk 4
  (set_if fr 3
  (set_if r 2
  (set_if l 1 0)))))))))))))))).

(** The five flags of the cell whose centre is [c]. *)
Definition is_near (x ref : Q) : bool := Qltb (Qabs (x - ref)) eps.

Definition cell_code (b : Bounds) (c : Point) : Z :=
  region_code (is_near (px c) (xmin b)) (is_near (px c) (xmax b))
              (is_near (py c) (ymin b)) (is_near (py c) (ymax b))
              (is_near (pz c) (zmin b)).

End RegionClassifier.

(** ** Python values, exceptions and the mutable singleton *)

Inductive ValueErrorSite :=
| NoMeshFound            (* "No mesh found ..." *)
| BadNumLayers           (* "Number of layers should be greater than 0" *)
| BadNumPartitions       (* "Number of partitions should be greater or equal to 0" *)
| BadGeometry            (* "Geometry should be one of ..." *)
| BadPartitionAlgo       (* "Partition algorithm should be one of ..." *)
| TypeNotProvided        (* "Type of the absorbing layer should be provided" *)
| BadType                (* "Type of the absorbing layer should be one of ..." *)
| PartitionsIncompatible (* "The number of partitions should be greater than 0 ..." *)
| BadElementType         (* "boundary elements should be of type stdBrick ..." *)
| BadMaterial            (* "boundary elements should have an ElasticIsotropic material" *)
| PointsNotMatching      (* "The PML layer mesh points are not matching ..." *)
| BadNdfCombination      (* "The PML layer node should have 9 dof ..." *)
| ZeroSizeReduction.     (* numpy: max of an empty array *)

Inductive Unimplemented := Metis | Cylindrical | ASDA.

Inductive Exception :=
| ValueError (site : ValueErrorSite)
| NotImplementedError (what : Unimplemented)
| KeyError (key : Z)
| IndexError
| UnboundLocalError.

Inductive PyValue := PyNone | PyBool (b : bool).

Record Mesh := mkMesh
  { points : list Point;
    ndf : list Z;                       (* point_data["ndf"] *)
    connectivity : list (list nat);     (* one entry per cell *)
    cd_MaterialTag : list Z;            (* cell_data["MaterialTag"] *)
    cd_ElementTag : list Z;
    cd_Region : list Z;
    cd_Core : list Z;
    cd_AbsorbingRegion : list Z;
    active_scalars : option string }.

Record Material := mkMaterial
  { material_tag : Z; material_type : string; material_name : string }.

Record PMLParameters := mkPMLParameters
  { gamma : Q; beta : Q; eta : Q; ksi : Q;
    PML_Thickness : Q; m : Z; R : Q;
    meshType : string; meshTypeParameters : list Q;
    alpha0 : option Q; beta0 : option Q; Cp : option Q }.

Record Element := mkElement
  { tag : Z; element_type : string; element_ndof : Z;
    element_material : Material; element_parameters : option PMLParameters }.

(** Modelled from the spec: the element registry (elementBase.py is not
    among the sources).  "Externally owned registries keyed by integer tag";
    the core "only reads element type/material compatibility and creates new
    entries".  New entries take the next sequential tag, as the sibling
    [Material] class of materialBase.py does with [_next_tag]. *)
Record ElementRegistry := mkElementRegistry
  { elements : gmap Z Element; next_tag : Z }.

(** Modelled from the spec: the damping and region managers
    ([create_damping], [create_region]) hand out the next tag. *)
Record Damping := mkDamping
  { damping_tag : Z; damping_type : string; dampingFactor : Q }.

Record DampingManager := mkDampingManager
  { dampings : list Damping; damping_next_tag : Z }.

Record RegionEntry := mkRegionEntry
  { region_tag : Z; region_type : string; region_damping : Z }.

Record RegionManager := mkRegionManager
  { regions : list RegionEntry; region_next_tag : Z }.

(** (masterNode, [slaveNodes], [dofIndices]) *)
Record EqualDOF := mkEqualDOF
  { masterNode : Z; slaveNodes : list Z; dofs : list Z }.

Record MeshMaker := mkMeshMaker
  { AssembeledMesh : option Mesh;       (* self.assembler.AssembeledMesh *)
    element : ElementRegistry;          (* self.element *)
    damping : DampingManager;           (* self.damping *)
    region : RegionManager;             (* self.region *)
    constraint_mp : list EqualDOF }.    (* self.constraint.mp *)

(** *** The monad: state of the singleton, plus exceptions *)

Definition M (A : Type) : Type := MeshMaker -> MeshMaker * (Exception + A).

Definition ret {A} (a : A) : M A := fun s => (s, inr a).

Definition raise {A} (e : Exception) : M A := fun s => (s, inl e).

Definition bind {A B} (c : M A) (k : A -> M B) : M B :=
  fun s => match c s with
           | (s', inl e) => (s', inl e)
           | (s', inr a) => k a s'
           end.

Definition get : M MeshMaker := fun s => (s, inr s).

Definition modify (f : MeshMaker -> MeshMaker) : M unit := fun s => (f s, inr tt).

Definition lift {A} (r : Exception + A) : M A := fun s => (s, r).

Notation "'do' x <~ c ;; k" := (bind c (fun x => k))
  (at level 10, x name, c at level 99, k at level 200).

Definition set_AssembeledMesh (mesh : Mesh) (s : MeshMaker) : MeshMaker :=
  {| AssembeledMesh := Some mesh; element := element s; damping := damping s;
     region := region s; constraint_mp := constraint_mp s |}.

Definition set_element (r : ElementRegistry) (s : MeshMaker) : MeshMaker :=
  {| AssembeledMesh := AssembeledMesh s; element := r; damping := damping s;
     region := region s; constraint_mp := constraint_mp s |}.

Definition set_damping (d : DampingManager) (s : MeshMaker) : MeshMaker :=
  {| AssembeledMesh := AssembeledMesh s; element := element s; damping := d;
     region := region s; constraint_mp := constraint_mp s |}.

Definition set_region (r : RegionManager) (s : MeshMaker) : MeshMaker :=
  {| AssembeledMesh := AssembeledMesh s; element := element s;
     damping := damping s; region := r; constraint_mp := constraint_mp s |}.

Definition set_constraint_mp (c : list EqualDOF) (s : MeshMaker) : MeshMaker :=
  {| AssembeledMesh := AssembeledMesh s; element := element s;
     damping := damping s; region := region s; constraint_mp := c |}.

(** *** Collaborators *)

Definition get_element (t : Z) : M Element :=
  do s <~ get ;;
  match elements (element s) !! t with
  | Some e => ret e
  | None => raise (KeyError t)
  end.

Definition create_element (ty : string) (ndof : Z) (mat : Material)
    (params : PMLParameters) : M Element :=
  do s <~ get ;;
  let reg := element s in
  let e := mkElement (next_tag reg) ty ndof mat (Some params) in
  do _ <~ modify (set_element
                 (mkElementRegistry (<[next_tag reg := e]> (elements reg))
                                    (next_tag reg + 1))) ;;
  ret e.

Definition create_damping (ty : string) (factor : Q) : M Damping :=
  do s <~ get ;;
  let mgr := damping s in
  let d := mkDamping (damping_next_tag mgr) ty factor in
  do _ <~ modify (set_damping
                 (mkDampingManager (dampings mgr ++ [d]) (damping_next_tag mgr + 1))) ;;
  ret d.

Definition create_region (ty : string) (d : Damping) : M RegionEntry :=
  do s <~ get ;;
  let mgr := region s in
  let r := mkRegionEntry (region_next_tag mgr) ty (damping_tag d) in
  do _ <~ modify (set_region
                 (mkRegionManager (regions mgr ++ [r]) (region_next_tag mgr + 1))) ;;
  ret r.

Definition create_equal_dof (master : Z) (slaves : list Z) (ds : list Z) : M unit :=
  do s <~ get ;;
  modify (set_constraint_mp (constraint_mp s ++ [mkEqualDOF master slaves ds])).

(** ** Python and numpy helpers *)

(** [s in [...]] *)
Definition py_in (s : string) (l : list string) : bool :=
  existsb (String.eqb s) l.

(** [l[i]]: a negative index counts from the end. *)
Definition py_getitem {A} (l : list A) (i : Z) : option A :=
  let n := Z.of_nat (length l) in
  if (0 <=? i) && (i <? n) then l !! Z.to_nat i
  else if (- n <=? i) && (i <? 0) then l !! Z.to_nat (n + i)
  else None.

(** [arr.max()] *)
Definition array_max (arr : list Z) : Exception + Z :=
  match arr with
  | [] => inl (ValueError ZeroSizeReduction)
  | x :: xs => inr (fold_left Z.max xs x)
  end.

Definition array_maxQ (arr : list Q) : Exception + Q :=
  match arr with
  | [] => inl (ValueError ZeroSizeReduction)
  | x :: xs => inr (fold_left Qmax xs x)
  end.

(** [full(n, v, dtype=uint16)] and [repeat(v, n).astype(uint16)] *)
Definition full_uint16 (n : nat) (v : Z) : list Z := replicate n (astype_uint16 v).

(** [full(n, v, dtype=int)] *)
Definition full (n : nat) (v : Z) : list Z := replicate n v.

(** [arr[offset:offset+len(vals)] = vals] *)
Definition slice_assign (arr : list Z) (offset : nat) (vals : list Z) : list Z :=
  take offset arr ++ vals ++ drop (offset + length vals) arr.

(** [arr[ids] = v]; numpy raises IndexError on an index out of range. *)
Definition index_assign {A} (arr : list A) (ids : list nat) (v : A) : Exception + list A :=
  if forallb (fun i => Nat.ltb i (length arr)) ids
  then inr (fold_left (fun a i => <[i := v]> a) ids arr)
  else inl IndexError.

(** [arr[mask]] *)
Fixpoint compress {A} (mask : list bool) (arr : list A) : list A :=
  match mask, arr with
  | b :: mask', x :: arr' => if b then x :: compress mask' arr' else compress mask' arr'
  | _, _ => []
  end.

(** [unique(arr)]: the sorted distinct values. *)
Fixpoint insert_sorted (x : Z) (l : list Z) : list Z :=
  match l with
  | [] => [x]
  | y :: t => if x <? y then x :: l
              else if x =? y then l
              else y :: insert_sorted x t
  end.

Definition unique (arr : list Z) : list Z := foldr insert_sorted [] arr.

(** ** The geometry kernel and the nearest-neighbour index *)

(** A cell of [clipped]: its corner points, its centre
    ([cell_centers(vertex=True)]) and the cell data it carries. *)
Record ClippedCell := mkClippedCell
  { cell_points : list Point; center : Point;
    c_MaterialTag : Z; c_ElementTag : Z; c_Region : Z }.

(** [Absorbing]: the transient shell, an opaque grid with its data arrays. *)
Record Shell (Grid : Type) := mkShell
  { grid : Grid;
    MaterialTag : list Z; ElementTag : list Z;
    AbsorbingRegion : list Z; Region : list Z;
    Core : list Z; shell_ndf : list Z }.

Arguments mkShell {Grid}.
Arguments grid {Grid}.
Arguments MaterialTag {Grid}.
Arguments ElementTag {Grid}.
Arguments AbsorbingRegion {Grid}.
Arguments Region {Grid}.
Arguments Core {Grid}.
Arguments shell_ndf {Grid}.

(** The calls into pyvista, in the order the method makes them. *)
Record Pyvista (Grid : Type) := mkPyvista
  { (* Cube(bounds).clip(...); mesh.copy().clip_surface(cube, invert=False,
       crinkle=True), with the centres of the cells kept *)
    clip_surface : Mesh -> Bounds -> list ClippedCell;
    (* StructuredGrid over meshgrid(arange(x0, x1, dx), arange(y0, y1, dy),
       arange(z0, z1, dz), indexing='ij'), from the three (start, stop, step) *)
    StructuredGrid : Q * Q * Q -> Q * Q * Q -> Q * Q * Q -> Grid;
    n_cells : Grid -> nat;
    n_points : Grid -> nat;
    combine : list Grid -> Grid;                       (* merge_points=True *)
    find_cells_within_bounds : Grid -> Bounds -> list nat;
    extract_cells : Grid -> list bool -> Grid;
    clean : Grid -> Grid;
    partition : Grid -> Z -> list (list nat);          (* vtkGlobalCellIds of each part *)
    merge : Mesh -> Shell Grid -> bool -> Mesh }.

Arguments clip_surface {Grid}.
Arguments StructuredGrid {Grid}.
Arguments n_cells {Grid}.
Arguments n_points {Grid}.
Arguments combine {Grid}.
Arguments find_cells_within_bounds {Grid}.
Arguments extract_cells {Grid}.
Arguments clean {Grid}.
Arguments partition {Grid}.
Arguments merge {Grid}.

(** [pykdtree(points).query(p, k=2)] for one query point: the two
    distances and the two indices. *)
Record Pykdtree := mkPykdtree
  { query_k2 : list Point -> Point -> (Q * Q) * (nat * nat) }.

(** ** The call *)

Record Args := mkArgs
  { numLayers : Z; numPartitions : Z; partitionAlgo : string; geometry : string;
    rayleighDamping : Q; matchDamping : bool;
    kwargs_type : option string }.       (* kwargs.get('type') *)

Definition normals : list (Z * Z * Z) :=
  [ (-1,  0,  0); ( 1,  0,  0); ( 0, -1,  0); ( 0,  1,  0); ( 0,  0, -1);
    (-1, -1,  0); (-1,  1,  0); ( 1, -1,  0); ( 1,  1,  0);
    (-1,  0, -1); ( 1,  0, -1); ( 0, -1, -1); ( 0,  1, -1);
    (-1, -1, -1); (-1,  1, -1); ( 1, -1, -1); ( 1,  1, -1) ].

(** What the extrusion loop leaves behind. *)
Record Extrusion (Grid : Type) := mkExtrusion
  { blocks : list Grid;
    material_tags : list Z; absorbing_regions : list Z;
    element_tags : list Z; region_tags : list Z;
    last_dx : option Q }.                (* [dx] after the loop, if it ran *)

Arguments mkExtrusion {Grid}.
Arguments blocks {Grid}.
Arguments material_tags {Grid}.
Arguments absorbing_regions {Grid}.
Arguments element_tags {Grid}.
Arguments region_tags {Grid}.
Arguments last_dx {Grid}.

Section AbsorbingLayer.
Context {Grid : Type} (pv : Pyvista Grid) (kd : Pykdtree).

(** *** LayerExtruder (lines 561-592) *)

Definition shift (n : Z * Z * Z) (numLayers : Z) (dx dy dz : Q) (p : Point) : Point :=
  let '(nx, ny, nz) := n in
  mkPoint (px p + inject_Z nx * inject_Z numLayers * dx)
          (py p + inject_Z ny * inject_Z numLayers * dy)
          (pz p + inject_Z nz * inject_Z numLayers * dz).

Definition extrude_cell (numLayers : Z) (cell : ClippedCell) (absregion : Z)
  : Exception + (Grid * Q) :=
  let b := bounds (cell_points cell) in
  let dx := Qabs (xmax b - xmin b) in
  let dy := Qabs (ymax b - ymin b) in
  let dz := Qabs (zmax b - zmin b) in
  match py_getitem normals (absregion - 1) with
  | None => inl IndexError
  | Some normal =>
      let coords := map (shift normal numLayers dx dy dz) (cell_points cell)
                    ++ cell_points cell in
      let c := bounds coords in
      inr (StructuredGrid pv (xmin c, (xmax c + eps)%Q, dx)
                             (ymin c, (ymax c + eps)%Q, dy)
                             (zmin c, (zmax c + eps)%Q, dz), dx)
  end.

Fixpoint extrude_loop (numLayers : Z) (cells : list (ClippedCell * Z))
    (acc : Extrusion Grid) : Exception + Extrusion Grid :=
  match cells with
  | [] => inr acc
  | (cell, absregion) :: rest =>
      match extrude_cell numLayers cell absregion with
      | inl e => inl e
      | inr (tmpmesh, dx) =>
          extrude_loop numLayers rest
            {| blocks := blocks acc ++ [tmpmesh];
               material_tags := material_tags acc ++ [c_MaterialTag cell];
               absorbing_regions := absorbing_regions acc ++ [absregion];
               element_tags := element_tags acc ++ [c_ElementTag cell];
               region_tags := region_tags acc ++ [c_Region cell];
               last_dx := Some dx |}
      end
  end.

(** *** ShellAssembler (lines 598-645) *)

(** One of the four tag arrays: block [i] fills its slice with tag [i]. *)
Fixpoint broadcast (bs : list Grid) (tags : list Z) (offset : nat) (arr : list Z)
  : list Z :=
  match bs, tags with
  | block :: bs', t :: tags' =>
      broadcast bs' tags' (offset + n_cells pv block)
                (slice_assign arr offset (full_uint16 (n_cells pv block) t))
  | _, _ => arr
  end.

Definition assemble (ex : Extrusion Grid) (cellCenters : list Point) (ndof : Z)
  : Exception + Shell Grid :=
  let total_cells := foldr Nat.add 0%nat (map (n_cells pv) (blocks ex)) in
  let zeros16 := replicate total_cells 0 in
  let MaterialTag     := broadcast (blocks ex) (material_tags ex) 0 zeros16 in
  let AbsorbingRegion := broadcast (blocks ex) (absorbing_regions ex) 0 zeros16 in
  let ElementTag      := broadcast (blocks ex) (element_tags ex) 0 zeros16 in
  let RegionTag       := broadcast (blocks ex) (region_tags ex) 0 zeros16 in
  let Absorbing := combine pv (blocks ex) in
  let Absorbingidx := find_cells_within_bounds pv Absorbing (bounds cellCenters) in
  match index_assign (replicate (n_cells pv Absorbing) true) Absorbingidx false with
  | inl e => inl e
  | inr indicies =>
      let Absorbing := clean pv (extract_cells pv Absorbing indicies) in
      inr {| grid := Absorbing;
             MaterialTag := compress indicies MaterialTag;
             ElementTag := compress indicies ElementTag;
             AbsorbingRegion := compress indicies AbsorbingRegion;
             Region := compress indicies RegionTag;
             Core := full (n_cells pv Absorbing) 0;
             shell_ndf := full_uint16 (n_points pv Absorbing) ndof |}
  end.

(** *** ElementRetagger (lines 647-693) *)

Definition PML_parameters (numLayers : Z) (dx : Q) (b : Bounds) : PMLParameters :=
  let RD_width_x := (xmax b - xmin b)%Q in
  let RD_width_y := (ymax b - ymin b)%Q in
  let RD_Depth := (zmax b - zmin b)%Q in
  let RD_center_x := ((xmax b + xmin b) / 2)%Q in
  let RD_center_y := ((ymax b + ymin b) / 2)%Q in
  let RD_center_z := zmax b in
  {| gamma := 1 # 2; beta := 1 # 4; eta := (1 / 12)%Q; ksi := (1 / 48)%Q;
     PML_Thickness := (inject_Z numLayers * dx)%Q;
     m := 2; R := 1 # 100000000;
     meshType := "Box";
     meshTypeParameters :=
       [RD_center_x; RD_center_y; RD_center_z; RD_width_x; RD_width_y; RD_Depth];
     alpha0 := None; beta0 := None; Cp := None |}.

Fixpoint create_PML_elements (numLayers ndof : Z) (dx : option Q) (b : Bounds)
    (EleTags : list Z) (PMLTags : gmap Z Z) : M (gmap Z Z) :=
  match EleTags with
  | [] => ret PMLTags
  | t :: rest =>
      do ele <~ get_element t ;;
      if negb (py_in (element_type ele) ["stdBrick"; "bbarBrick"; "SSPbrick"])
      then raise (ValueError BadElementType)
      else
        let mat := element_material ele in
        if negb (String.eqb (material_name mat) "ElasticIsotropic")
           || negb (String.eqb (material_type mat) "nDMaterial")
        then raise (ValueError BadMaterial)
        else
          match dx with
          | None => raise UnboundLocalError
          | Some dx' =>
              do PMLele <~ create_element "PML3D" ndof mat
                             (PML_parameters numLayers dx' b) ;;
              create_PML_elements numLayers ndof dx b rest (<[t := tag PMLele]> PMLTags)
          end
  end.

(** [ElementTag[ElementTag == t] = PMLTags[t]], for each [t] in turn. *)
Fixpoint update_element_tags (EleTags : list Z) (PMLTags : gmap Z Z) (arr : list Z)
  : Exception + list Z :=
  match EleTags with
  | [] => inr arr
  | t :: rest =>
      match PMLTags !! t with
      | None => inl (KeyError t)
      | Some new =>
          update_element_tags rest PMLTags
            (map (fun x => if x =? t then astype_uint16 new else x) arr)
      end
  end.

Definition with_ElementTag (sh : Shell Grid) (arr : list Z) : Shell Grid :=
  {| grid := grid sh; MaterialTag := MaterialTag sh; ElementTag := arr;
     AbsorbingRegion := AbsorbingRegion sh; Region := Region sh;
     Core := Core sh; shell_ndf := shell_ndf sh |}.

Definition with_Core (sh : Shell Grid) (arr : list Z) : Shell Grid :=
  {| grid := grid sh; MaterialTag := MaterialTag sh; ElementTag := ElementTag sh;
     AbsorbingRegion := AbsorbingRegion sh; Region := Region sh;
     Core := arr; shell_ndf := shell_ndf sh |}.

Definition with_Region (sh : Shell Grid) (arr : list Z) : Shell Grid :=
  {| grid := grid sh; MaterialTag := MaterialTag sh; ElementTag := ElementTag sh;
     AbsorbingRegion := AbsorbingRegion sh; Region := arr;
     Core := Core sh; shell_ndf := shell_ndf sh |}.

Definition retag (numLayers ndof : Z) (dx : option Q) (mesh : Mesh)
    (sh : Shell Grid) : M (Shell Grid) :=
  let EleTags := unique (ElementTag sh) in
  do PMLTags <~ create_PML_elements numLayers ndof dx (bounds (points mesh)) EleTags ∅ ;;
  do arr <~ lift (update_element_tags EleTags PMLTags (ElementTag sh)) ;;
  ret (with_ElementTag sh arr).

(** *** ShellPartitioner (lines 696-708) *)

Fixpoint assign_partitions (parts : list (list nat)) (i : Z) (num_partitions : Z)
    (core : list Z) : Exception + list Z :=
  match parts with
  | [] => inr core
  | ids :: rest =>
      match index_assign core ids (i + num_partitions + 1) with
      | inl e => inl e
      | inr core' => assign_partitions rest (i + 1) num_partitions core'
      end
  end.

Definition partition_shell (numPartitions num_partitions : Z) (sh : Shell Grid)
  : Exception + Shell Grid :=
  if 1 <? numPartitions then
    match assign_partitions (partition pv (grid sh) numPartitions) 0
                            num_partitions (Core sh) with
    | inl e => inl e
    | inr core => inr (with_Core sh core)
    end
  else if numPartitions =? 1 then
    inr (with_Core sh (full (n_cells pv (grid sh)) (num_partitions + 1)))
  else inr sh.

(** *** Damping region of the shell (lines 710-720) *)

Definition new_region (a : Args) (sh : Shell Grid) : M (Shell Grid) :=
  do d <~ create_damping "frequency rayleigh" (rayleighDamping a) ;;
  do r <~ create_region "elementRegion" d ;;
  ret (with_Region sh (full_uint16 (n_cells pv (grid sh)) (region_tag r))).

Definition damp (a : Args) (ty : string) (sh : Shell Grid) : M (Shell Grid) :=
  do sh <~ (if String.eqb ty "Rayleigh"
            then (if negb (matchDamping a) then new_region a sh else ret sh)
            else ret sh) ;;
  if String.eqb ty "PML"
  then (if negb (matchDamping a) then new_region a sh else ret sh)
  else ret sh.

(** *** InterfaceStitcher (lines 747-795) *)

Definition inside (b : Bounds) (p : Point) : bool :=
  Qltb (xmin b + eps) (px p) && Qltb (px p) (xmax b - eps)
  && Qltb (ymin b + eps) (py p) && Qltb (py p) (ymax b - eps)
  && Qltb (zmin b + eps) (pz p) && Qltb (pz p) (zmax b + 10).

(** [mesh.points[where(~mask)]] *)
Definition interfacepoints (mesh : Mesh) : list Point :=
  List.filter (fun p => negb (inside (bounds (points mesh)) p)) (points mesh).

(** One row of [indices]: the nodes of the equal-DOF constraint. *)
Definition master_slave (ndfs : list Z) (index : nat * nat) : Exception + (Z * Z) :=
  match ndfs !! fst index, ndfs !! snd index with
  | Some ndf1, Some ndf2 =>
      if (ndf1 =? 9) && (ndf2 =? 3)
      then inr (Z.of_nat (snd index) + 1, Z.of_nat (fst index) + 1)
      else if (ndf1 =? 3) && (ndf2 =? 9)
      then inr (Z.of_nat (fst index) + 1, Z.of_nat (snd index) + 1)
      else inl (ValueError BadNdfCombination)
  | _, _ => inl IndexError
  end.

Fixpoint create_equal_dofs (ndfs : list Z) (indices : list (nat * nat)) : M unit :=
  match indices with
  | [] => ret tt
  | index :: rest =>
      do nodes <~ lift (master_slave ndfs index) ;;
      do _ <~ create_equal_dof (fst nodes) [snd nodes] [1; 2; 3] ;;
      create_equal_dofs ndfs rest
  end.

Definition flatten_pairs (rows : list (Q * Q)) : list Q :=
  flat_map (fun r => [fst r; snd r]) rows.

Definition stitch (mesh merged : Mesh) : M unit :=
  let rows := map (query_k2 kd (points merged)) (interfacepoints mesh) in
  let distances := map Qabs (flatten_pairs (map fst rows)) in
  let indices := map snd rows in
  do dmax <~ lift (array_maxQ distances) ;;
  if Qltb eps dmax
  then raise (ValueError PointsNotMatching)
  else create_equal_dofs (ndf merged) indices.

(** *** The two methods *)

Definition with_AbsorbingRegion (mesh : Mesh) (arr : list Z) : Mesh :=
  {| points := points mesh; ndf := ndf mesh; connectivity := connectivity mesh;
     cd_MaterialTag := cd_MaterialTag mesh; cd_ElementTag := cd_ElementTag mesh;
     cd_Region := cd_Region mesh; cd_Core := cd_Core mesh;
     cd_AbsorbingRegion := arr; active_scalars := active_scalars mesh |}.

Definition set_active_scalars (name : string) (mesh : Mesh) : Mesh :=
  {| points := points mesh; ndf := ndf mesh; connectivity := connectivity mesh;
     cd_MaterialTag := cd_MaterialTag mesh; cd_ElementTag := cd_ElementTag mesh;
     cd_Region := cd_Region mesh; cd_Core := cd_Core mesh;
     cd_AbsorbingRegion := cd_AbsorbingRegion mesh; active_scalars := Some name |}.

(** Lines 463-478: [ndof] and [mergeFlag] of the layer type. *)
Definition layer_type (a : Args) : Exception + (string * Z * bool) :=
  match kwargs_type a with
  | None => inl (ValueError TypeNotProvided)
  | Some ty =>
      if negb (py_in ty ["PML"; "Rayleigh"; "ASDA"]) then inl (ValueError BadType)
      else if String.eqb ty "PML" then inr (ty, 9, false)
      else if String.eqb ty "Rayleigh" then inr (ty, 3, true)
      else if String.eqb ty "ASDA" then inl (NotImplementedError ASDA)
      else inl UnboundLocalError
  end.

(** Lines 483-495: [clipped], the cells of the copy of the mesh that reach
    outside the box shrunk by [eps] (and raised by 10 at the top). *)
Definition clipped_cells (mesh : Mesh) : list ClippedCell :=
  let b := bounds (points mesh) in
  clip_surface pv mesh
    (mkBounds (xmin b + eps) (xmax b - eps) (ymin b + eps) (ymax b - eps)
              (zmin b + eps) (zmax b + 10)).

(** Lines 499-645: the shell before retagging. *)
Definition build_shell (a : Args) (mesh : Mesh) (ndof : Z)
  : Exception + (Shell Grid * option Q) :=
  let clipped := clipped_cells mesh in
  let cellCentersCoords := map center clipped in
  let absRegion := RegionClassifier.absRegion cellCentersCoords in
  match extrude_loop (numLayers a) (zip clipped absRegion)
                     (mkExtrusion [] [] [] [] [] None) with
  | inl e => inl e
  | inr ex =>
      match assemble ex cellCentersCoords ndof with
      | inl e => inl e
      | inr sh => inr (sh, last_dx ex)
      end
  end.

(** Lines 493-725: the shell of a call that passed the checks, up to the
    merge.  Returns the layer type, [mergeFlag], the copy of the mesh and
    [Absorbing]. *)
Definition construct_shell (a : Args) (mesh : Mesh) (ty : string) (ndof : Z)
    (mergeFlag : bool) (num_partitions : Z) : M (string * bool * Mesh * Shell Grid) :=
  do built <~ lift (build_shell a mesh ndof) ;;
  let '(Absorbing, dx) := built in
  do Absorbing <~ (if String.eqb ty "PML"
                   then retag (numLayers a) ndof dx mesh Absorbing
                   else ret Absorbing) ;;
  do Absorbing <~ lift (partition_shell (numPartitions a) num_partitions Absorbing) ;;
  do Absorbing <~ damp a ty Absorbing ;;
  if String.eqb ty "ASDA" then raise (NotImplementedError ASDA) else
  let mesh := with_AbsorbingRegion mesh
                (full_uint16 (length (connectivity mesh)) 0) in
  ret (ty, mergeFlag, mesh, Absorbing).

(** Lines 448-490: the checks of the rectangular method, then the shell. *)
Definition prepare_shell (a : Args) : M (string * bool * Mesh * Shell Grid) :=
  do self <~ get ;;
  match AssembeledMesh self with
  | None => raise (ValueError NoMeshFound)
  | Some assembled =>
  if numLayers a <? 1 then raise (ValueError BadNumLayers) else
  if numPartitions a <? 0 then raise (ValueError BadNumPartitions) else
  if negb (py_in (partitionAlgo a) ["kd-tree"; "metis"])
  then raise (ValueError BadPartitionAlgo) else
  if String.eqb (partitionAlgo a) "metis"
  then raise (NotImplementedError Metis) else
  do lt <~ lift (layer_type a) ;;
  let '(ty, ndof, mergeFlag) := lt in
  let mesh := assembled in                              (* .copy() *)
  do num_partitions <~ lift (array_max (cd_Core mesh)) ;;
  if (numPartitions a =? 0) && (0 <? num_partitions)
  then raise (ValueError PartitionsIncompatible)
  else construct_shell a mesh ty ndof mergeFlag num_partitions
  end.

(** Lines 739-795: the merge replaces the persistent mesh, then the
    stitching; the method ends without a return statement. *)
Definition _addRectangularAbsorbingLayer (a : Args) : M PyValue :=
  do prepared <~ prepare_shell a ;;
  let '(ty, mergeFlag, mesh, Absorbing) := prepared in
  let merged := set_active_scalars "AbsorbingRegion"
                  (merge pv mesh Absorbing mergeFlag) in
  do _ <~ modify (set_AssembeledMesh merged) ;;
  do _ <~ (if String.eqb ty "PML" then stitch mesh merged else ret tt) ;;
  ret PyNone.

Definition addAbsorbingLayer (a : Args) : M PyValue :=
  do self <~ get ;;
  match AssembeledMesh self with
  | None => raise (ValueError NoMeshFound)
  | Some _ =>
  if numLayers a <? 1 then raise (ValueError BadNumLayers) else
  if numPartitions a <? 0 then raise (ValueError BadNumPartitions) else
  if negb (py_in (geometry a) ["Rectangular"; "Cylindrical"])
  then raise (ValueError BadGeometry) else
  if negb (py_in (partitionAlgo a) ["kd-tree"; "metis"])
  then raise (ValueError BadPartitionAlgo) else
  if String.eqb (partitionAlgo a) "metis"
  then raise (NotImplementedError Metis) else
  if String.eqb (geometry a) "Rectangular"
  then _addRectangularAbsorbingLayer a
  else if String.eqb (geometry a) "Cylindrical"
  then raise (NotImplementedError Cylindrical)
  else ret PyNone
  end.

End AbsorbingLayer.

(** ** A reference kernel and a worked example

    To run the model, a small stand-in for the geometry kernel on
    axis-aligned boxes and a nearest-neighbour search over rationals.  No
    statement below depends on them: they only serve the worked examples. *)

Module BoxKernel.

Definition Grid : Type := list Bounds.        (* one box per cell *)

Definition Qeqb_point (p q : Point) : bool :=
  Qeq_bool (px p) (px q) && Qeq_bool (py p) (py q) && Qeq_bool (pz p) (pz q).

Definition add_point (acc : list Point) (p : Point) : list Point :=
  if existsb (Qeqb_point p) acc then acc else acc ++ [p].

Definition corners (b : Bounds) : list Point :=
  [ mkPoint (xmin b) (ymin b) (zmin b); mkPoint (xmax b) (ymin b) (zmin b);
    mkPoint (xmax b) (ymax b) (zmin b); mkPoint (xmin b) (ymax b) (zmin b);
    mkPoint (xmin b) (ymin b) (zmax b); mkPoint (xmax b) (ymin b) (zmax b);
    mkPoint (xmax b) (ymax b) (zmax b); mkPoint (xmin b) (ymax b) (zmax b) ].

Definition grid_points (g : Grid) : list Point :=
  fold_left add_point (flat_map corners g) [].

(** numpy's [arange(start, stop, step)]: ceil((stop - start) / step) values. *)
Definition arange (r : Q * Q * Q) : list Q :=
  let '(start, stop, step) := r in
  map (fun i => Qred (start + inject_Z (Z.of_nat i) * step))
      (seq 0 (Z.to_nat (Qceiling ((stop - start) / step)))).

Definition intervals (xs : list Q) : list (Q * Q) := zip xs (tail xs).

Definition StructuredGrid (rx ry rz : Q * Q * Q) : Grid :=
  flat_map (fun z =>
    flat_map (fun y =>
      map (fun x => mkBounds (fst x) (snd x) (fst y) (snd y) (fst z) (snd z))
          (intervals (arange rx)))
      (intervals (arange ry)))
    (intervals (arange rz)).

Definition overlaps (a b : Bounds) : bool :=
  Qle_bool (xmin a) (xmax b) && Qle_bool (xmin b) (xmax a)
  && Qle_bool (ymin a) (ymax b) && Qle_bool (ymin b) (ymax a)
  && Qle_bool (zmin a) (zmax b) && Qle_bool (zmin b) (zmax a).

Definition indices_where {A} (f : A -> bool) (l : list A) : list nat :=
  map fst (List.filter (fun ix => f (snd ix)) (zip (seq 0 (length l)) l)).

Definition strictly_inside (b : Bounds) (p : Point) : bool :=
  Qltb (xmin b) (px p) && Qltb (px p) (xmax b)
  && Qltb (ymin b) (py p) && Qltb (py p) (ymax b)
  && Qltb (zmin b) (pz p) && Qltb (pz p) (zmax b).

Definition midpoint (b : Bounds) : Point :=
  mkPoint (Qred ((xmin b + xmax b) / 2)) (Qred ((ymin b + ymax b) / 2))
          (Qred ((zmin b + zmax b) / 2)).

Definition clip_surface (mesh : Mesh) (b : Bounds) : list ClippedCell :=
  omap (fun ic =>
          let '(i, ids) := ic in
          let pts := omap (fun j => points mesh !! j) ids in
          if forallb (strictly_inside b) pts then None
          else Some (mkClippedCell pts (midpoint (bounds pts))
                       (default 0 (cd_MaterialTag mesh !! i))
                       (default 0 (cd_ElementTag mesh !! i))
                       (default 0 (cd_Region mesh !! i))))
       (zip (seq 0 (length (connectivity mesh))) (connectivity mesh)).

Definition index_of (pts : list Point) (p : Point) : nat :=
  default 0%nat (fst <$> list_find (fun q => Qeqb_point p q = true) pts).

Definition merge (mesh : Mesh) (sh : Shell Grid) (merge_points : bool) : Mesh :=
  let shell := zip (grid_points (grid sh)) (shell_ndf sh) in
  let added := if merge_points
               then List.filter (fun pn => negb (existsb (Qeqb_point (fst pn)) (points mesh))) shell
               else shell in
  let pts := points mesh ++ map fst added in
  let offset := if merge_points then 0%nat else length (points mesh) in
  {| points := pts;
     ndf := ndf mesh ++ map snd added;
     connectivity :=
       connectivity mesh
       ++ map (fun b => map (fun p => (offset + index_of (drop offset pts) p)%nat)
                            (corners b)) (grid sh);
     cd_MaterialTag := cd_MaterialTag mesh ++ MaterialTag sh;
     cd_ElementTag := cd_ElementTag mesh ++ ElementTag sh;
     cd_Region := cd_Region mesh ++ Region sh;
     cd_Core := cd_Core mesh ++ Core sh;
     cd_AbsorbingRegion := cd_AbsorbingRegion mesh ++ AbsorbingRegion sh;
     active_scalars := active_scalars mesh |}.

Definition find_cells_within_bounds (g : Grid) (b : Bounds) : list nat :=
  indices_where (overlaps b) g.

(** Cell [i] goes to part [i mod n]. *)
Definition partition (g : Grid) (n : Z) : list (list nat) :=
  map (fun part =>
         List.filter (fun i => Nat.eqb (i mod Z.to_nat n) part) (seq 0 (length g)))
      (seq 0 (Z.to_nat n)).

Definition pyvista : Pyvista Grid :=
  mkPyvista Grid clip_surface StructuredGrid (@length Bounds)
            (fun g => length (grid_points g)) (@concat Bounds)
            find_cells_within_bounds (fun g mask => compress mask g)
            (fun g => g) partition merge.

(** The two nearest points in the Manhattan distance, which is the
    Euclidean one whenever the neighbour differs from the query along one
    axis only (and when it is 0).  With fewer than two points, the index
    [length tree] and the distance 1 stand for pykdtree's missing
    neighbour. *)
Definition distance (p q : Point) : Q :=
  Qred (Qabs (px p - px q) + Qabs (py p - py q) + Qabs (pz p - pz q)).

Definition closer (best next : nat * Q) : nat * Q :=
  if Qltb (snd next) (snd best) then next else best.

Definition nearest (cands : list (nat * Q)) : option (nat * Q) :=
  match cands with
  | [] => None
  | c :: cs => Some (fold_left closer cs c)
  end.

Definition query_k2 (tree : list Point) (p : Point) : (Q * Q) * (nat * nat) :=
  let cands := zip (seq 0 (length tree)) (map (distance p) tree) in
  let missing := (length tree, 1%Q) in
  let first := default missing (nearest cands) in
  let second := default missing
                  (nearest (List.filter (fun c => negb (Nat.eqb (fst c) (fst first))) cands)) in
  ((snd first, snd second), (fst first, fst second)).

Definition pykdtree : Pykdtree := mkPykdtree query_k2.

End BoxKernel.

(** A slab of 2 x 2 x 1 unit cells on 3 x 3 x 2 points, one stdBrick element
    of an ElasticIsotropic material, unpartitioned. *)
Module Example.

Definition slab_points : list Point :=
  flat_map (fun z =>
    flat_map (fun y =>
      map (fun x => mkPoint (inject_Z x) (inject_Z y) (inject_Z z)) [0; 1; 2])
      [0; 1; 2])
    [0; 1].

Definition hexahedron (i j : nat) : list nat :=
  map (fun c : nat * nat * nat =>
         let '(x, y, z) := c in (i + x + 3 * (j + y) + 9 * z)%nat)
      [ (0, 0, 0); (1, 0, 0); (1, 1, 0); (0, 1, 0);
        (0, 0, 1); (1, 0, 1); (1, 1, 1); (0, 1, 1) ]%nat.

Definition slab : Mesh :=
  {| points := slab_points;
     ndf := replicate 18 3;
     connectivity := [hexahedron 0 0; hexahedron 1 0; hexahedron 0 1; hexahedron 1 1];
     cd_MaterialTag := [1; 1; 1; 1];
     cd_ElementTag := [1; 1; 1; 1];
     cd_Region := [1; 1; 1; 1];
     cd_Core := [0; 0; 0; 0];
     cd_AbsorbingRegion := [];
     active_scalars := None |}.

Definition soil : Material := mkMaterial 1 "nDMaterial" "ElasticIsotropic".

Definition brick : Element := mkElement 1 "stdBrick" 3 soil None.

Definition model (mesh : option Mesh) : MeshMaker :=
  {| AssembeledMesh := mesh;
     element := mkElementRegistry {[ 1 := brick ]} 2;
     damping := mkDampingManager [] 1;
     region := mkRegionManager [] 2;
     constraint_mp := [] |}.

Definition call (numLayers numPartitions : Z) (partitionAlgo geometry ty : string) : Args :=
  mkArgs numLayers numPartitions partitionAlgo geometry (95 # 100) false (Some ty).

Definition run (a : Args) (s : MeshMaker) : MeshMaker * (Exception + PyValue) :=
  addAbsorbingLayer BoxKernel.pyvista BoxKernel.pykdtree a s.

(** The PML call of one layer, the shell it builds and the merged mesh. *)
Definition pml : Args := call 1 0 "kd-tree" "Rectangular" "PML".

Definition value {A} (d : A) (r : Exception + A) : A :=
  match r with inr a => a | inl _ => d end.

Definition no_shell : Shell BoxKernel.Grid := mkShell [] [] [] [] [] [] [].

Definition built : Shell BoxKernel.Grid * option Q :=
  value (no_shell, None) (build_shell BoxKernel.pyvista pml slab 9).

Definition prepared (a : Args) (s : MeshMaker) : string * bool * Mesh * Shell BoxKernel.Grid :=
  value (""%string, false, slab, no_shell) (snd (prepare_shell BoxKernel.pyvista a s)).

Definition interior : Mesh := snd (fst (prepared pml (model (Some slab)))).

Definition merged : Mesh :=
  set_active_scalars "AbsorbingRegion"
    (BoxKernel.merge interior (snd (prepared pml (model (Some slab)))) false).

(** The same slab after a partitioning into two parts. *)
Definition partitioned_slab : Mesh :=
  {| points := slab_points;
     ndf := replicate 18 3;
     connectivity := connectivity slab;
     cd_MaterialTag := [1; 1; 1; 1];
     cd_ElementTag := [1; 1; 1; 1];
     cd_Region := [1; 1; 1; 1];
     cd_Core := [1; 1; 2; 2];
     cd_AbsorbingRegion := [];
     active_scalars := None |}.





End Example.




(** * Registries with sequential tags

    The classes below keep their instances in class-level dicts.  A Python
    dict keyed by integer tags whose order counts is an association list in
    insertion order. *)

Module PyDict.
Section Dict.
Context {V : Type}.

Definition dict : Type := list (Z * V).

(** [d.get(k)] *)
Fixpoint get (d : dict) (k : Z) : option V :=
  match d with
  | [] => None
  | (k', v) :: d' => if k' =? k then Some v else get d' k
  end.

(** [k in d] *)
Definition mem (d : dict) (k : Z) : bool :=
  match get d k with Some _ => true | None => false end.

(** [d[k] = v]: a known key keeps its place, a new one goes last. *)
Fixpoint set (d : dict) (k : Z) (v : V) : dict :=
  match d with
  | [] => [(k, v)]
  | (k', v') :: d' => if k' =? k then (k, v) :: d' else (k', v') :: set d' k v
  end.

(** [del d[k]] *)
Definition del (d : dict) (k : Z) : dict :=
  List.filter (fun kv => negb (fst kv =? k)) d.

Definition values (d : dict) : list V := map snd d.

(** [sorted(d.items())], by key: the keys of a dict are distinct, so the
    values are never compared. *)
Fixpoint insert_item (kv : Z * V) (l : list (Z * V)) : list (Z * V) :=
  match l with
  | [] => [kv]
  | kv' :: l' => if fst kv <? fst kv' then kv :: l else kv' :: insert_item kv l'
  end.

Definition sorted_items (d : dict) : list (Z * V) := foldr insert_item [] d.

(** [enumerate(l, start)] *)
Definition enumerate {A} (l : list A) (start : Z) : list (Z * A) :=
  zip (seqZ start (Z.of_nat (length l))) l.

End Dict.
Arguments dict : clear implicits.
End PyDict.

(** ** Single-point constraints (Constraint/spConstraint.py) *)

Module SPConstraints.

(** The four subclasses and the attributes they add. *)
Inductive Class :=
| FixConstraint
| FixXConstraint (xCoordinate tol : Q)
| FixYConstraint (yCoordinate tol : Q)
| FixZConstraint (zCoordinate tol : Q).

Record SPConstraint := mkSPConstraint
  { class : Class; tag : Z; node_tag : Z; dofs : list Z }.

(** [SPConstraint._constraints] *)
Definition Store : Type := PyDict.dict SPConstraint.

Definition _next_tag (cs : Store) : Z := Z.of_nat (length cs) + 1.

(** [SPConstraint.__init__], reached through the subclass constructors. *)
Definition __init__ (cl : Class) (node_tag : Z) (dofs : list Z) (cs : Store)
  : Store * SPConstraint :=
  let self := mkSPConstraint cl (_next_tag cs) node_tag dofs in
  (PyDict.set cs (tag self) self, self).

Definition get_constraint (t : Z) (cs : Store) : option SPConstraint :=
  PyDict.get cs t.

Definition set_tag (t : Z) (c : SPConstraint) : SPConstraint :=
  {| class := class c; tag := t; node_tag := node_tag c; dofs := dofs c |}.

Definition remove_constraint (t : Z) (cs : Store) : Store :=
  if PyDict.mem cs t then
    let constraints := PyDict.sorted_items (PyDict.del cs t) in
    fold_left (fun d (it : Z * (Z * SPConstraint)) =>
                 let '(new_tag, (_, constraint)) := it in
                 PyDict.set d new_tag (set_tag new_tag constraint))
              (PyDict.enumerate constraints 1) []
  else cs.

(** The manager: [-1] stands in for the node tag of the coordinate
    constraints; [tol] defaults to 1e-10. *)
Definition default_tol : Q := 1 # 10000000000.

(** [fix]; the name is a keyword here. *)
Definition fix_ (node_tag : Z) (dofs : list Z) (cs : Store) : Store * SPConstraint :=
  __init__ FixConstraint node_tag dofs cs.

Definition fixX (xCoordinate : Q) (dofs : list Z) (tol : Q) (cs : Store) :=
  __init__ (FixXConstraint xCoordinate tol) (-1) dofs cs.

Definition fixY (yCoordinate : Q) (dofs : list Z) (tol : Q) (cs : Store) :=
  __init__ (FixYConstraint yCoordinate tol) (-1) dofs cs.

Definition fixZ (zCoordinate : Q) (dofs : list Z) (tol : Q) (cs : Store) :=
  __init__ (FixZConstraint zCoordinate tol) (-1) dofs cs.

(** *** TCL output.  [str] of an integer is its decimal numeral; [str] of a
    float is left to the parameter [float_str]. *)
Section Tcl.
Variable float_str : Q -> string.

Definition newline : string := String (Ascii.ascii_of_nat 10) EmptyString.

(** [' '.join(map(str, self.dofs))] *)
Definition join_dofs (ds : list Z) : string := String.concat " " (map pretty ds).

Definition to_tcl (c : SPConstraint) : string :=
  match class c with
  | FixConstraint =>
      "fix " +:+ pretty (node_tag c) +:+ " " +:+ join_dofs (dofs c) +:+ ";"
  | FixXConstraint x tol =>
      "fixX " +:+ float_str x +:+ " " +:+ join_dofs (dofs c)
      +:+ " -tol " +:+ float_str tol +:+ ";"
  | FixYConstraint y tol =>
      "fixY " +:+ float_str y +:+ " " +:+ join_dofs (dofs c)
      +:+ " -tol " +:+ float_str tol +:+ ";"
  | FixZConstraint z tol =>
      "fixZ " +:+ float_str z +:+ " " +:+ join_dofs (dofs c)
      +:+ " -tol " +:+ float_str tol +:+ ";"
  end.

Definition is_fix (c : SPConstraint) : bool :=
  match class c with FixConstraint => true | _ => false end.
Definition is_fixX (c : SPConstraint) : bool :=
  match class c with FixXConstraint _ _ => true | _ => false end.
Definition is_fixY (c : SPConstraint) : bool :=
  match class c with FixYConstraint _ _ => true | _ => false end.
Definition is_fixZ (c : SPConstraint) : bool :=
  match class c with FixZConstraint _ _ => true | _ => false end.

(** One group of [SPConstraintManager.to_tcl]: the comment, then the
    commands, or nothing for an empty group. *)
Definition group (comment : string) (l : list SPConstraint) : list string :=
  match l with
  | [] => []
  | _ => comment :: map to_tcl l
  end.

Definition tcl_commands (cs : Store) : list string :=
  let constraints := PyDict.values cs in
  group "# Node-specific constraints" (List.filter is_fix constraints)
  ++ group (newline +:+ "# X-coordinate constraints") (List.filter is_fixX constraints)
  ++ group (newline +:+ "# Y-coordinate constraints") (List.filter is_fixY constraints)
  ++ group (newline +:+ "# Z-coordinate constraints") (List.filter is_fixZ constraints).

(** [SPConstraintManager.to_tcl] *)
Definition manager_to_tcl (cs : Store) : string :=
  String.concat newline (tcl_commands cs).

End Tcl.

End SPConstraints.

(** * The singleton and its exports (MeshMaker.py, lines 17-357) *)

Module Singleton.

(** [kwargs.get('model_name')] and [kwargs.get('model_path')] *)
Record Kwargs := mkKwargs
  { kw_model_name : option string; kw_model_path : option string }.

(** The attributes of the instance that the methods below read and write;
    the managers that [__init__] constructs are those of [MeshMaker].  An
    attribute that is not set yet reads [None] here. *)
Record Instance := mkInstance
  { _initialized : bool; model_name : option string; model_path : option string }.

(** [__new__]: the class attribute [_instance] and the object returned. *)
Definition __new__ (_instance : option Instance) : option Instance * Instance :=
  match _instance with
  | None => let self := mkInstance false None None in (Some self, self)
  | Some self => (_instance, self)
  end.

Definition __init__ (kwargs : Kwargs) (self : Instance) : Instance :=
  if _initialized self then self
  else mkInstance true (kw_model_name kwargs) (kw_model_path kwargs).

(** A call of the class with keyword arguments: [__new__], then [__init__]
    on the object it returned, which is the object [_instance] refers to. *)
Definition construct (kwargs : Kwargs) (_instance : option Instance)
  : option Instance * Instance :=
  let self := __init__ kwargs (snd (__new__ _instance)) in
  (Some self, self).

Definition get_instance (kwargs : Kwargs) (_instance : option Instance)
  : option Instance * Instance :=
  match _instance with
  | None => construct kwargs _instance
  | Some self => (_instance, self)
  end.

Definition set_model_info (name path : option string) (self : Instance) : Instance :=
  let self := match name with
              | Some n => mkInstance (_initialized self) (Some n) (model_path self)
              | None => self
              end in
  match path with
  | Some p => mkInstance (_initialized self) (model_name self) (Some p)
  | None => self
  end.

(** *** Where an export goes (lines 91-107 and 320-336) *)

(** [s.endswith(suffix)] *)
Fixpoint endswith (s suffix : string) : bool :=
  String.eqb s suffix
  || match s with
     | EmptyString => false
     | String _ s' => endswith s' suffix
     end.

Inductive ExportError :=
| NoFilename        (* "Either provide a filename or set model_name and model_path" *)
| NoMeshToExport    (* "No mesh found ..." *)
| SaveFailed.       (* whatever [mesh.save] raised, raised again *)

Inductive Effect :=
| Makedirs (directory : string)       (* os.makedirs(..., exist_ok=True) *)
| Save (filename : string) (mesh : Mesh).

Section Exports.
(** [os.path.join], [os.path.dirname(os.path.abspath(.))] and whether
    [mesh.save(filename, binary=True)] raises belong to the platform. *)
Variable os_path_join : string -> string -> string.
Variable directory_of : string -> string.
Variable save_raises : string -> Mesh -> bool.

Definition with_extension (ext filename : string) : string :=
  if negb (endswith filename ext) then filename +:+ ext else filename.

(** The full file path of an export with the extension [ext]. *)
Definition export_filename (ext : string) (self : Instance) (filename : option string)
  : ExportError + string :=
  match filename with
  | None =>
      match model_name self, model_path self with
      | Some name, Some path => inr (with_extension ext (os_path_join path (name +:+ ext)))
      | _, _ => inl NoFilename
      end
  | Some filename => inr (with_extension ext filename)
  end.

(** [export_to_vtk]: the effects on the file system, in order, and the
    value returned or the exception raised. *)
Definition export_to_vtk (self : Instance) (AssembeledMesh : option Mesh)
    (filename : option string) : list Effect * (ExportError + bool) :=
  match export_filename ".vtk" self filename with
  | inl e => ([], inl e)
  | inr filename =>
      let made := [Makedirs (directory_of filename)] in
      match AssembeledMesh with
      | None => (made, inl NoMeshToExport)
      | Some mesh =>
          if save_raises filename mesh then (made, inl SaveFailed)
          else (made ++ [Save filename mesh], inr true)
      end
  end.

(** [export_to_tcl] up to the opening of the file (lines 91-110): the
    effects so far and the name of the file to open. *)
Definition export_to_tcl_target (self : Instance) (AssembeledMesh : option Mesh)
    (filename : option string) : list Effect * (ExportError + string) :=
  match export_filename ".tcl" self filename with
  | inl e => ([], inl e)
  | inr filename =>
      let made := [Makedirs (directory_of filename)] in
      match AssembeledMesh with
      | None => (made, inl NoMeshToExport)
      | Some _ => (made, inr filename)
      end
  end.

End Exports.

End Singleton.

(** * Writing the nodes and the elements (MeshMaker.py, lines 146-180)

    The text handed to [f.write], call by call, is a list of strings.  The
    [str] of a numpy integer is its decimal numeral; the [str] of a float
    and the [to_tcl] of the element classes are parameters. *)

Module TclExport.

Definition tab : string := String (Ascii.ascii_of_nat 9) EmptyString.
Definition newline : string := String (Ascii.ascii_of_nat 10) EmptyString.

(** A numpy index into an axis of length [n]: a negative one counts from
    the end, one out of range raises. *)
Definition np_index (n : nat) (i : Z) : option nat :=
  if (0 <=? i) && (i <? Z.of_nat n) then Some (Z.to_nat i)
  else if (- Z.of_nat n <=? i) && (i <? 0) then Some (Z.to_nat (Z.of_nat n + i))
  else None.

Section NodesAndElements.
Variable float_str : Q -> string.
Variable element_to_tcl : Element -> Z -> list Z -> string.

(** The line of node [pid]: [nodeTags[pid]], [nodes[pid]], [ndfs[pid]]. *)
Definition node_line (mesh : Mesh) (pid : nat) : Exception + string :=
  match points mesh !! pid, ndf mesh !! pid with
  | Some node, Some n =>
      inr (tab +:+ "node " +:+ pretty (Z.of_nat pid + 1)
           +:+ " " +:+ float_str (px node) +:+ " " +:+ float_str (py node)
           +:+ " " +:+ float_str (pz node) +:+ " -ndf " +:+ pretty n +:+ newline)
  | _, _ => inl IndexError
  end.

(** The inner loop: [wroted[pid][core]] is indexed by the value of the
    core. *)
Fixpoint write_nodes (mesh : Mesh) (core : Z) (pids : list nat)
    (wroted : list (list bool)) (f : list string)
  : list string * (Exception + list (list bool)) :=
  match pids with
  | [] => (f, inr wroted)
  | pid :: rest =>
      match wroted !! pid with
      | None => (f, inl IndexError)
      | Some row =>
          match np_index (length row) core with
          | None => (f, inl IndexError)
          | Some col =>
              if default false (row !! col)
              then write_nodes mesh core rest wroted f
              else
                match node_line mesh pid with
                | inl e => (f, inl e)
                | inr line =>
                    write_nodes mesh core rest
                      (<[pid := <[col := true]> row]> wroted) (f ++ [line])
                end
          end
      end
  end.

(** One turn of the loop over the cells. *)
Definition write_cell (mesh : Mesh) (elements : gmap Z Element) (i : nat)
    (wroted : list (list bool)) (f : list string)
  : list string * (Exception + list (list bool)) :=
  match connectivity mesh !! i, cd_Core mesh !! i with
  | Some pids, Some core =>
      let f := f ++ ["if {$pid ==" +:+ pretty core +:+ "} {" +:+ newline] in
      match write_nodes mesh core pids wroted f with
      | (f, inl e) => (f, inl e)
      | (f, inr wroted) =>
          match cd_ElementTag mesh !! i with
          | None => (f, inl IndexError)
          | Some t =>
              match elements !! t with
              | None => (f, inl (KeyError t))
              | Some eleclass =>
                  let nodeTag := map (fun pid => Z.of_nat pid + 1) pids in
                  let eleTag := Z.of_nat i + 1 in
                  (f ++ [tab +:+ element_to_tcl eleclass eleTag nodeTag +:+ newline;
                         "}" +:+ newline],
                   inr wroted)
              end
          end
      end
  | _, _ => (f, inl IndexError)
  end.

Fixpoint write_cells (mesh : Mesh) (elements : gmap Z Element) (cells : list nat)
    (wroted : list (list bool)) (f : list string)
  : list string * (Exception + list (list bool)) :=
  match cells with
  | [] => (f, inr wroted)
  | i :: rest =>
      match write_cell mesh elements i wroted f with
      | (f, inl e) => (f, inl e)
      | (f, inr wroted) => write_cells mesh elements rest wroted f
      end
  end.

Definition nodes_and_elements (mesh : Mesh) (elements : gmap Z Element)
    (f : list string) : list string * (Exception + list (list bool)) :=
  let f := f ++ [newline +:+ "# Nodes & Elements ======================================"
                 +:+ newline] in
  let num_cores := unique (cd_Core mesh) in
  let num_nodes := length (points mesh) in
  let wroted := replicate num_nodes (replicate (length num_cores) false) in
  write_cells mesh elements (seq 0 (length (connectivity mesh))) wroted f.

End NodesAndElements.

End TclExport.

(** ** Materials (Material/materialBase.py)

    The class keeps three dicts that refer to the same material objects,
    and [retag_all] writes the [tag] attribute of the objects in place.  The
    objects live on a heap and are referred to by their position on it; a
    dict keyed by material objects is keyed by these positions, since the
    class defines no equality of its own.  The class methods are called on
    [Material] itself, so that the class attributes are those of one
    class. *)

Module Materials.

Record Material := mkMaterial
  { tag : Z; material_type : string; material_name : string; user_name : string }.

Record Registry := mkRegistry
  { heap : list Material;            (* the material objects *)
    _materials : PyDict.dict nat;    (* tag -> material *)
    _matTags : gmap nat Z;           (* material -> tag *)
    _names : gmap string nat;        (* user_name -> material *)
    _next_tag : Z;
    _start_tag : Z }.

Inductive Error :=
| NameExists (user_name : string)    (* ValueError: the name already exists *)
| TagStartTooSmall                   (* ValueError: start number below 1 *)
| NoMaterialWithTag (tag : Z)        (* KeyError of get_material_by_tag *)
| KeyError_name (name : string)      (* KeyError of _names *)
| KeyError_material (material : nat). (* KeyError of a dict at a material object *)

(** The class as it is defined. *)
Definition class_state : Registry := mkRegistry [] [] ∅ ∅ 1 1.

(** [material.tag = new_tag] *)
Definition with_tag (new_tag : Z) (material : Material) : Material :=
  {| tag := new_tag; material_type := material_type material;
     material_name := material_name material; user_name := user_name material |}.

(** [Material.__init__], reached through the constructor of a subclass; the
    value is the new object.  An object whose [__init__] raises is referred
    to by nothing and is left off the heap. *)
Definition __init__ (material_type material_name user_name : string) (s : Registry)
  : Registry * (Error + nat) :=
  if bool_decide (is_Some (_names s !! user_name)) then (s, inl (NameExists user_name))
  else
    let self := length (heap s) in
    let t := _next_tag s in
    ({| heap := heap s ++ [mkMaterial t material_type material_name user_name];
        _materials := PyDict.set (_materials s) t self;
        _matTags := <[self := t]> (_matTags s);
        _names := <[user_name := self]> (_names s);
        _next_tag := t + 1;
        _start_tag := _start_tag s |},
     inr self).

(** One turn of the loop of [retag_all], on the heap and the two dicts that
    were cleared. *)
Definition retag_step (acc : list Material * PyDict.dict nat * gmap nat Z)
    (it : Z * (Z * nat)) : list Material * PyDict.dict nat * gmap nat Z :=
  let '(h, materials, matTags) := acc in
  let '(new_tag, (_, material)) := it in
  (alter (with_tag new_tag) material h,
   PyDict.set materials new_tag material,
   <[material := new_tag]> matTags).

Definition retag_all (s : Registry) : Registry :=
  let sorted_materials := PyDict.sorted_items (_materials s) in
  let '(h, materials, matTags) :=
    fold_left retag_step (PyDict.enumerate sorted_materials (_start_tag s))
              (heap s, [], ∅) in
  {| heap := h; _materials := materials; _matTags := matTags; _names := _names s;
     _next_tag := _start_tag s + Z.of_nat (length materials);
     _start_tag := _start_tag s |}.

(** [delete_material]: each [pop] raises KeyError on a missing key and
    leaves what was popped before it popped. *)
Definition delete_material (t : Z) (s : Registry) : Registry * (Error + unit) :=
  match PyDict.get (_materials s) t with
  | None => (s, inr tt)
  | Some material_to_delete =>
      match heap s !! material_to_delete with
      | None => (s, inl (KeyError_material material_to_delete))
      | Some obj =>
          match _names s !! user_name obj with
          | None => (s, inl (KeyError_name (user_name obj)))
          | Some _ =>
              let s1 := {| heap := heap s; _materials := _materials s;
                           _matTags := _matTags s;
                           _names := delete (user_name obj) (_names s);
                           _next_tag := _next_tag s; _start_tag := _start_tag s |} in
              match _matTags s1 !! material_to_delete with
              | None => (s1, inl (KeyError_material material_to_delete))
              | Some _ =>
                  (retag_all
                     {| heap := heap s1; _materials := PyDict.del (_materials s1) t;
                        _matTags := delete material_to_delete (_matTags s1);
                        _names := _names s1;
                        _next_tag := _next_tag s1; _start_tag := _start_tag s1 |},
                   inr tt)
              end
          end
      end
  end.

Definition get_material_by_tag (t : Z) (s : Registry) : Error + nat :=
  match PyDict.get (_materials s) t with
  | None => inl (NoMaterialWithTag t)
  | Some material => inr material
  end.

(** [get_material_by_name] is defined twice in the class and the second
    definition is the one in force: it looks [_materials] up at the object
    that [_names] holds, and a material object is no key of [_materials],
    whose keys are integers. *)
Definition get_material_by_name (name : string) (s : Registry) : Error + nat :=
  match _names s !! name with
  | None => inl (KeyError_name name)
  | Some material => inl (KeyError_material material)
  end.

Definition clear_all (s : Registry) : Registry :=
  {| heap := heap s; _materials := []; _matTags := ∅; _names := ∅;
     _next_tag := _start_tag s; _start_tag := _start_tag s |}.

Definition set_tag_start (start_number : Z) (s : Registry) : Registry * (Error + unit) :=
  if start_number <? 1 then (s, inl TagStartTooSmall)
  else
    (retag_all {| heap := heap s; _materials := _materials s; _matTags := _matTags s;
                  _names := _names s; _next_tag := start_number;
                  _start_tag := start_number |},
     inr tt).

Definition get_all_materials (s : Registry) : PyDict.dict nat := _materials s.

End Materials.

(** ** The registry of material types (Material/materialBase.py, lines 239-304)

    [_material_types] is a dict of dicts keyed by strings; the order of the
    keys is what [get_material_categories] and [get_material_types]
    return.  A material class is called with the user name and the keyword
    arguments; what the call returns belongs to the class. *)

Module MaterialRegistry.

Section StrDict.
Context {V : Type}.

(** [d.get(k)] *)
Fixpoint get (d : list (string * V)) (k : string) : option V :=
  match d with
  | [] => None
  | (k', v) :: d' => if String.eqb k' k then Some v else get d' k
  end.

(** [d[k] = v]: a known key keeps its place, a new one goes last. *)
Fixpoint set (d : list (string * V)) (k : string) (v : V) : list (string * V) :=
  match d with
  | [] => [(k, v)]
  | (k', v') :: d' =>
      if String.eqb k' k then (k, v) :: d' else (k', v') :: set d' k v
  end.

(** [list(d.keys())] *)
Definition keys (d : list (string * V)) : list string := map fst d.

End StrDict.

Inductive Error :=
| CategoryNotRegistered (material_category : string)
| TypeNotRegistered (material_type material_category : string).

Section Registry.
Context {Class Kwargs Instance : Type}.
Variable call : Class -> string -> Kwargs -> Instance.

Definition Types : Type := list (string * list (string * Class)).

Definition register_material_type (material_category name : string)
    (material_class : Class) (_material_types : Types) : Types :=
  let _material_types :=
    match get _material_types material_category with
    | None => set _material_types material_category []
    | Some _ => _material_types
    end in
  match get _material_types material_category with
  | None => _material_types
  | Some types =>
      set _material_types material_category (set types name material_class)
  end.

Definition get_material_categories (_material_types : Types) : list string :=
  keys _material_types.

Definition get_material_types (category : string) (_material_types : Types)
  : list string :=
  keys (default [] (get _material_types category)).

Definition create_material (material_category material_type user_name : string)
    (kwargs : Kwargs) (_material_types : Types) : Error + Instance :=
  match get _material_types material_category with
  | None => inl (CategoryNotRegistered material_category)
  | Some types =>
      match get types material_type with
      | None => inl (TypeNotRegistered material_type material_category)
      | Some material_class => inr (call material_class user_name kwargs)
      end
  end.

End Registry.

End MaterialRegistry.

(** * Writing the mp constraints (MeshMaker.py, lines 213-300)

    The node numbers of the constraints are 1-based tags, the arrays are
    indexed by the tags minus one, and an index is an integer: a negative
    one counts from the end of the array.  [cells[s:e]] over the offsets of
    a cell is the list of the points of the cell.  The constraints of
    [self.constraint.mp] come in the order of their creation, and their
    [to_tcl] is a parameter. *)

Module MpExport.

(** [master_nodes], [slave_nodes], [constraint_map], [constraint_map_rev] *)
Record Maps := mkMaps
  { master_nodes : list bool;
    slave_nodes : list bool;
    constraint_map : gmap Z EqualDOF;
    constraint_map_rev : gmap Z Z }.

(** [arr[i] = True] *)
Definition np_set (arr : list bool) (i : Z) : Exception + list bool :=
  match TclExport.np_index (length arr) i with
  | None => inl IndexError
  | Some p => inr (<[p := true]> arr)
  end.

(** The inner loop over [constraint.slave_nodes]. *)
Fixpoint mark_slaves (master_id : Z) (slaves : list Z) (maps : Maps)
  : Exception + Maps :=
  match slaves with
  | [] => inr maps
  | slave_id :: rest =>
      let slave_id := slave_id - 1 in
      match np_set (slave_nodes maps) slave_id with
      | inl e => inl e
      | inr arr =>
          mark_slaves master_id rest
            {| master_nodes := master_nodes maps; slave_nodes := arr;
               constraint_map := constraint_map maps;
               constraint_map_rev := <[slave_id := master_id]> (constraint_map_rev maps) |}
      end
  end.

(** The loop over the constraints. *)
Fixpoint precompute (mp : list EqualDOF) (maps : Maps) : Exception + Maps :=
  match mp with
  | [] => inr maps
  | constraint :: rest =>
      let master_id := masterNode constraint - 1 in
      match np_set (master_nodes maps) master_id with
      | inl e => inl e
      | inr arr =>
          match mark_slaves master_id (slaveNodes constraint)
                  {| master_nodes := arr; slave_nodes := slave_nodes maps;
                     constraint_map := <[master_id := constraint]> (constraint_map maps);
                     constraint_map_rev := constraint_map_rev maps |} with
          | inl e => inl e
          | inr maps => precompute rest maps
          end
      end
  end.

(** [where(mask)[0]] *)
Definition where_ (mask : list bool) : list Z :=
  map Z.of_nat (List.filter (fun i => default false (mask !! i)) (seq 0 (length mask))).

(** [concatenate([cells[s:e] for s, e in zip(starts, ends)])] *)
Fixpoint core_node_indices (mesh : Mesh) (eleids : list nat) : Exception + list nat :=
  match eleids with
  | [] => inr []
  | i :: rest =>
      match connectivity mesh !! i with
      | None => inl IndexError
      | Some pids =>
          match core_node_indices mesh rest with
          | inl e => inl e
          | inr more => inr (pids ++ more)
          end
      end
  end.

(** [isin(arange(num_nodes), core_node_indices)] *)
Definition isin (num_nodes : nat) (indices : list nat) : list bool :=
  map (fun p => bool_decide (p ∈ indices)) (seq 0 num_nodes).

(** [arr[indices]] *)
Fixpoint take_ (arr : list bool) (indices : list Z) : Exception + list bool :=
  match indices with
  | [] => inr []
  | i :: rest =>
      match TclExport.np_index (length arr) i ≫= (fun p => arr !! p) with
      | None => inl IndexError
      | Some b =>
          match take_ arr rest with
          | inl e => inl e
          | inr bs => inr (b :: bs)
          end
      end
  end.

(** The loop that adds the masters of the slaves of the core. *)
Fixpoint add_masters (constraint_map_rev : gmap Z Z) (active_slaves active_masters : list Z)
  : Exception + list Z :=
  match active_slaves with
  | [] => inr active_masters
  | slave_id :: rest =>
      match constraint_map_rev !! slave_id with
      | None => inl (KeyError slave_id)
      | Some master_id =>
          add_masters constraint_map_rev rest (active_masters ++ [master_id])
      end
  end.

(** [[constraint_map[master_id].slave_nodes for master_id in active_masters]] *)
Fixpoint slave_lists_of (constraint_map : gmap Z EqualDOF) (active_masters : list Z)
  : Exception + list (list Z) :=
  match active_masters with
  | [] => inr []
  | master_id :: rest =>
      match constraint_map !! master_id with
      | None => inl (KeyError master_id)
      | Some constraint =>
          match slave_lists_of constraint_map rest with
          | inl e => inl e
          | inr more => inr (slaveNodes constraint :: more)
          end
      end
  end.

(** [in_core[all_slaves]] for [all_slaves] concatenated from [lists]: the
    slave nodes of a constraint are the Python list it was created with,
    an empty list is an array of floats, and so is then the concatenation,
    which is no index. *)
Definition take_slaves (in_core : list bool) (lists : list (list Z)) (all_slaves : list Z)
  : Exception + list bool :=
  if existsb (fun l : list Z => match l with [] => true | _ => false end) lists
  then inl IndexError
  else take_ in_core all_slaves.

Section Writing.
Variable float_str : Q -> string.
Variable constraint_to_tcl : EqualDOF -> string.

(** The line of the node at index [id]. *)
Definition node_line_at (mesh : Mesh) (id : Z) : Exception + string :=
  match TclExport.np_index (length (points mesh)) id ≫= (fun p => points mesh !! p),
        TclExport.np_index (length (ndf mesh)) id ≫= (fun p => ndf mesh !! p) with
  | Some node, Some n =>
      inr (TclExport.tab +:+ "node " +:+ pretty (id + 1)
           +:+ " " +:+ float_str (px node) +:+ " " +:+ float_str (py node)
           +:+ " " +:+ float_str (pz node) +:+ " -ndf " +:+ pretty n
           +:+ TclExport.newline)
  | _, _ => inl IndexError
  end.

Fixpoint write_node_lines (mesh : Mesh) (ids : list Z) (f : list string)
  : list string * (Exception + unit) :=
  match ids with
  | [] => (f, inr tt)
  | id :: rest =>
      match node_line_at mesh id with
      | inl e => (f, inl e)
      | inr line => write_node_lines mesh rest (f ++ [line])
      end
  end.

(** A titled group of node lines, written when there is a node. *)
Definition write_group (mesh : Mesh) (title : string) (size : nat) (ids : list Z)
    (f : list string) : list string * (Exception + unit) :=
  if (0 <? size)%nat
  then write_node_lines mesh ids (f ++ [(TclExport.tab +:+ title +:+ TclExport.newline)%string])
  else (f, inr tt).

Fixpoint write_constraints (constraint_map : gmap Z EqualDOF) (active_masters : list Z)
    (f : list string) : list string * (Exception + unit) :=
  match active_masters with
  | [] => (f, inr tt)
  | master_id :: rest =>
      match constraint_map !! master_id with
      | None => (f, inl (KeyError master_id))
      | Some constraint =>
          write_constraints constraint_map rest
            (f ++ [(TclExport.tab +:+ constraint_to_tcl constraint
                    +:+ TclExport.newline)%string])
      end
  end.

(** One turn of the loop over the cores. *)
Definition write_core (mesh : Mesh) (maps : Maps) (core : Z) (f : list string)
  : list string * (Exception + unit) :=
  let cores := cd_Core mesh in
  let num_nodes := length (points mesh) in
  let eleids := List.filter (fun i => bool_decide (cores !! i = Some core))
                            (seq 0 (length cores)) in
  match eleids with
  | [] => (f, inr tt)
  | _ :: _ =>
  match core_node_indices mesh eleids with
  | inl e => (f, inl e)
  | inr indices =>
  let in_core := isin num_nodes indices in
  let active_masters := where_ (zip_with andb (master_nodes maps) in_core) in
  let active_slaves := where_ (zip_with andb (slave_nodes maps) in_core) in
  match add_masters (constraint_map_rev maps) active_slaves active_masters with
  | inl e => (f, inl e)
  | inr active_masters =>
  let active_masters := unique active_masters in
  match active_masters with
  | [] => (f, inr tt)
  | _ :: _ =>
  let f := f ++ [("if {$pid == " +:+ pretty core +:+ "} {" +:+ TclExport.newline)%string] in
  match slave_lists_of (constraint_map maps) active_masters with
  | inl e => (f, inl e)
  | inr lists =>
  let all_slaves := map (fun s => s - 1) (concat lists) in
  match take_slaves in_core lists all_slaves with
  | inl e => (f, inl e)
  | inr slaves_in_core =>
  let valid_mask :=
    zip_with (fun s b => (s <? Z.of_nat num_nodes) && (0 <=? s) && negb b)
             all_slaves slaves_in_core in
  let valid_slaves := compress valid_mask all_slaves in
  match take_ in_core active_masters with
  | inl e => (f, inl e)
  | inr masters_in_core =>
  let valid_masters := compress (map negb masters_in_core) active_masters in
  match write_group mesh "# Master nodes" (length valid_masters) valid_masters f with
  | (f, inl e) => (f, inl e)
  | (f, inr _) =>
  match write_group mesh "# Slave nodes" (length valid_slaves) (unique valid_slaves) f with
  | (f, inl e) => (f, inl e)
  | (f, inr _) =>
  match write_constraints (constraint_map maps) active_masters f with
  | (f, inl e) => (f, inl e)
  | (f, inr _) => (f ++ [("}" +:+ TclExport.newline)%string], inr tt)
  end end end end end end end end end end.

Fixpoint write_cores (mesh : Mesh) (maps : Maps) (num_cores : list Z) (f : list string)
  : list string * (Exception + unit) :=
  match num_cores with
  | [] => (f, inr tt)
  | core :: rest =>
      match write_core mesh maps core f with
      | (f, inl e) => (f, inl e)
      | (f, inr _) => write_cores mesh maps rest f
      end
  end.

Definition mp_constraints (mesh : Mesh) (mp : list EqualDOF) (f : list string)
  : list string * (Exception + unit) :=
  let f := f ++ [(TclExport.newline
                  +:+ "# mpConstraints ======================================"
                  +:+ TclExport.newline)%string] in
  let num_cores := unique (cd_Core mesh) in
  let num_nodes := length (points mesh) in
  match precompute mp {| master_nodes := replicate num_nodes false;
                         slave_nodes := replicate num_nodes false;
                         constraint_map := ∅; constraint_map_rev := ∅ |} with
  | inl e => (f, inl e)
  | inr maps => write_cores mesh maps num_cores f
  end.

End Writing.

End MpExport.

(** ** Further scenarios *)

Module Scenarios.
Import Example.

(** A unit cube of one element: its single cell lies on all five faces. *)
Definition cube_points : list Point :=
  flat_map (fun z =>
    flat_map (fun y =>
      map (fun x => mkPoint (inject_Z x) (inject_Z y) (inject_Z z)) [0; 1])
      [0; 1])
    [0; 1].

Definition cube : Mesh :=
  {| points := cube_points;
     ndf := replicate 8 3;
     connectivity := [[0; 1; 3; 2; 4; 5; 7; 6]%nat];
     cd_MaterialTag := [1];
     cd_ElementTag := [1];
     cd_Region := [1];
     cd_Core := [0];
     cd_AbsorbingRegion := [];
     active_scalars := None |}.

(** The first boundary cell of the slab, in its left front bottom corner. *)
Definition corner_cell : ClippedCell :=
  default (mkClippedCell [] (mkPoint 0 0 0) 0 0 0)
          (head (clipped_cells BoxKernel.pyvista slab)).


(** Three single-point constraints created on an empty store. *)
Definition three_constraints : SPConstraints.Store :=
  fst (SPConstraints.fixZ 0 [1; 1; 1] SPConstraints.default_tol
         (fst (SPConstraints.fixX 10 [1; 0; 0] SPConstraints.default_tol
                 (fst (SPConstraints.fix_ 5 [1; 1; 0] []))))).

(** The slab on two cores, numbered from 0: two elements each. *)
Definition two_core_slab : Mesh :=
  {| points := slab_points;
     ndf := replicate 18 3;
     connectivity := connectivity slab;
     cd_MaterialTag := [1; 1; 1; 1];
     cd_ElementTag := [1; 1; 1; 1];
     cd_Region := [1; 1; 1; 1];
     cd_Core := [0; 0; 1; 1];
     cd_AbsorbingRegion := [];
     active_scalars := None |}.

(** A rendering of floats and of elements, for the scenarios. *)
Definition whole_part (q : Q) : string := pretty (Qfloor q).

Definition brick_line (e : Element) (eleTag : Z) (nodeTag : list Z) : string :=
  ("element " +:+ element_type e +:+ " " +:+ pretty eleTag +:+ " "
   +:+ String.concat " " (map pretty nodeTag))%string.

(** Three materials created one after the other on the class as defined. *)
Definition three_materials : Materials.Registry :=
  (Materials.__init__ "nDMaterial" "ElasticIsotropic" "Rock"
     (Materials.__init__ "nDMaterial" "ElasticIsotropic" "Sand"
        (Materials.__init__ "nDMaterial" "ElasticIsotropic" "Clay"
           Materials.class_state).1).1).1.

(** A constraint that ties node 18, of core 1, to node 1, of core 0, and
    one on a node that the slab does not have. *)
Definition tie : list EqualDOF := [mkEqualDOF 1 [18] [1; 2; 3]].

Definition loose_tie : list EqualDOF := [mkEqualDOF 1 [19] [1; 2; 3]].

Definition equal_dof_line (c : EqualDOF) : string :=
  ("equalDOF " +:+ pretty (masterNode c) +:+ " "
   +:+ String.concat " " (map pretty (slaveNodes c)) +:+ " "
   +:+ String.concat " " (map pretty (dofs c)))%string.

End Scenarios.


(** * Specification predicates *)

(** The constraint registered for a (master, slave) pair of node numbers. *)
Definition constraint_of (nodes : Z * Z) : EqualDOF :=
  mkEqualDOF (fst nodes) [snd nodes] [1; 2; 3].

(** The nodes of one constraint: the neighbour with [ndf = 3] is the master,
    the neighbour with [ndf = 9] is the slave; node numbers are indices + 1. *)
Definition stitched (ndfs : list Z) (index : nat * nat) (c : EqualDOF) : Prop :=
  exists master slave : nat,
    masterNode c = Z.of_nat master + 1
    /\ slaveNodes c = [Z.of_nat slave + 1]
    /\ dofs c = [1; 2; 3]
    /\ ((master = fst index /\ slave = snd index)
        \/ (master = snd index /\ slave = fst index))
    /\ ndfs !! master = Some 3
    /\ ndfs !! slave = Some 9.

(** A row of [indices] whose two entries are in range but whose [ndf] values
    are neither (9, 3) nor (3, 9). *)
Definition other_combination (ndfs : list Z) (index : nat * nat) : Prop :=
  exists ndf1 ndf2,
    ndfs !! fst index = Some ndf1 /\ ndfs !! snd index = Some ndf2
    /\ ~ (ndf1 = 9 /\ ndf2 = 3) /\ ~ (ndf1 = 3 /\ ndf2 = 9).

(** Both entries of a row index the [ndf] array. *)
Definition in_range (ndfs : list Z) (index : nat * nat) : Prop :=
  is_Some (ndfs !! fst index) /\ is_Some (ndfs !! snd index).

(** Strictly increasing lists, the shape of the result of [unique]. *)
Fixpoint increasing (l : list Z) : Prop :=
  match l with
  | [] => True
  | x :: t => Forall (Z.lt x) t /\ increasing t
  end.

(** The element types the retagging loop accepts. *)
Definition bricks : list string := ["stdBrick"; "bbarBrick"; "SSPbrick"].

(** What the two checks of the loop accept. *)
Definition compatible (e : Element) : bool :=
  py_in (element_type e) bricks
  && String.eqb (material_name (element_material e)) "ElasticIsotropic"
  && String.eqb (material_type (element_material e)) "nDMaterial".

(** The element the loop creates for the old element [old] under tag [t]. *)
Definition PML_element (t ndof numLayers : Z) (dx : Q) (b : Bounds) (old : Element) : Element :=
  mkElement t "PML3D" ndof (element_material old)
            (Some (PML_parameters numLayers dx b)).



(** The state differs from [s] in the element registry only. *)
Definition registry_only (s s' : MeshMaker) : Prop := s' = set_element (element s') s.

(** The values of a numpy uint16. *)
Definition uint16 (x : Z) : Prop := 0 <= x < 65536.


(** The calls that create a damping and a region of their own. *)
Definition adds_region (a : Args) (ty : string) : bool :=
  (String.eqb ty "Rayleigh" || String.eqb ty "PML") && negb (matchDamping a).

(** A precondition or validation failure of a call. *)
Definition validation_failure (a : Args) (s : MeshMaker) : Prop :=
  AssembeledMesh s = None
  \/ numLayers a < 1
  \/ numPartitions a < 0
  \/ py_in (geometry a) ["Rectangular"; "Cylindrical"] = false
  \/ py_in (partitionAlgo a) ["kd-tree"; "metis"] = false
  \/ kwargs_type a = None
  \/ (exists ty, kwargs_type a = Some ty
                 /\ py_in ty ["PML"; "Rayleigh"; "ASDA"] = false)
  \/ (numPartitions a = 0
      /\ exists mesh np, AssembeledMesh s = Some mesh
                         /\ array_max (cd_Core mesh) = inr np /\ 0 < np).

Section Carried.
Context {Grid : Type} (pv : Pyvista Grid).


End Carried.


Definition is_min (v : Q) (xs : list Q) : Prop :=
  (forall x, x ∈ xs -> (v <= x)%Q) /\ exists x, x ∈ xs /\ (x == v)%Q.

Definition is_max (v : Q) (xs : list Q) : Prop :=
  (forall x, x ∈ xs -> (x <= v)%Q) /\ exists x, x ∈ xs /\ (x == v)%Q.

(** The direction in which a cell with the given face memberships is
    extruded: away from each face it lies on, right before left and back
    before front. *)
Definition outward (l r fr bk bt : bool) : Z * Z * Z :=
  (if r then 1 else if l then -1 else 0,
   if bk then 1 else if fr then -1 else 0,
   if bt then -1 else 0).

(** [normal * numLayers * d], one component. *)
Definition reach (n numLayers : Z) (d : Q) : Q :=
  (inject_Z n * inject_Z numLayers * d)%Q.


(** The keys of a dict are the consecutive integers from [a], in order. *)
Definition keys_from {V} (a : Z) (d : PyDict.dict V) : Prop :=
  map fst d = seqZ a (Z.of_nat (length d)).

Definition increasing_keys {V} (d : list (Z * V)) : Prop :=
  forall i j x y, (i < j)%nat -> d !! i = Some x -> d !! j = Some y -> x.1 < y.1.

(** The single-point constraints are numbered 1, 2, ... in the order of
    the store, and each knows its number. *)
Definition numbered (cs : SPConstraints.Store) : Prop :=
  keys_from 1 cs /\ Forall (fun kv => SPConstraints.tag kv.2 = kv.1) cs.

(** The items of the store after the rebuild of [remove_constraint]. *)
Definition retagged (it : Z * (Z * SPConstraints.SPConstraint))
  : Z * SPConstraints.SPConstraint :=
  (it.1, SPConstraints.set_tag it.1 it.2.2).

(** The points of cell [i]. *)
Definition cell_points_of (mesh : Mesh) (i : nat) : list nat :=
  default [] (connectivity mesh !! i).

(** Some cell before [i], of the core of cell [i], holds the point. *)
Definition seen_before (mesh : Mesh) (i : nat) (pid : nat) : bool :=
  existsb (fun j => bool_decide (cd_Core mesh !! j = cd_Core mesh !! i)
                    && bool_decide (pid ∈ cell_points_of mesh j))
          (seq 0 i).

(** The points of a list that are not seen yet, each once, in order. *)
Fixpoint new_nodes (seen : nat -> bool) (pids : list nat) : list nat :=
  match pids with
  | [] => []
  | pid :: rest =>
      if seen pid then new_nodes seen rest
      else pid :: new_nodes (fun q => Nat.eqb q pid || seen q) rest
  end.

(** The nodes written in the block of cell [i]. *)
Definition block_nodes (mesh : Mesh) (i : nat) : list nat :=
  new_nodes (seen_before mesh i) (cell_points_of mesh i).

Definition node_text (float_str : Q -> string) (mesh : Mesh) (pid : nat) : string :=
  match TclExport.node_line float_str mesh pid with
  | inr line => line
  | inl _ => ""%string
  end.

(** The text of the block of cell [i]. *)
Definition block (float_str : Q -> string)
    (element_to_tcl : Element -> Z -> list Z -> string)
    (mesh : Mesh) (elements : gmap Z Element) (i : nat) : list string :=
  match cd_Core mesh !! i, cd_ElementTag mesh !! i ≫= (fun t => elements !! t) with
  | Some core, Some eleclass =>
      [("if {$pid ==" +:+ pretty core +:+ "} {" +:+ TclExport.newline)%string]
      ++ map (node_text float_str mesh) (block_nodes mesh i)
      ++ [(TclExport.tab
           +:+ element_to_tcl eleclass (Z.of_nat i + 1)
                 (map (fun pid => Z.of_nat pid + 1) (cell_points_of mesh i))
           +:+ TclExport.newline)%string;
          ("}" +:+ TclExport.newline)%string]
  | _, _ => []
  end.

(** What VTK guarantees of a mesh and the registry of its elements: one
    core and one element tag per cell, one ndf per point, cells made of
    points of the mesh, and every element tag registered. *)
Definition exportable (mesh : Mesh) (elements : gmap Z Element) : Prop :=
  length (cd_Core mesh) = length (connectivity mesh)
  /\ length (cd_ElementTag mesh) = length (connectivity mesh)
  /\ length (ndf mesh) = length (points mesh)
  /\ Forall (Forall (fun pid => (pid < length (points mesh))%nat)) (connectivity mesh)
  /\ Forall (fun t => is_Some (elements !! t)) (cd_ElementTag mesh).

(** The cores are 0, ..., k-1 for the k distinct cores of the mesh. *)
Definition cores_are_indices (mesh : Mesh) : Prop :=
  Forall (fun core => 0 <= core < Z.of_nat (length (unique (cd_Core mesh))))
         (cd_Core mesh).

(** [wroted[p][c]], false out of range. *)
Definition cell_at (wroted : list (list bool)) (p c : nat) : bool :=
  default false (wroted !! p ≫= (fun row => row !! c)).

(** [wroted] has one row per node and one column per distinct core. *)
Definition shape (rows cols : nat) (wroted : list (list bool)) : Prop :=
  length wroted = rows /\ Forall (fun row => length row = cols) wroted.

(** Some cell before [i], of core [c], holds the point. *)
Definition held (mesh : Mesh) (i : nat) (p c : nat) : bool :=
  existsb (fun j => bool_decide (cd_Core mesh !! j = Some (Z.of_nat c))
                    && bool_decide (p ∈ cell_points_of mesh j))
          (seq 0 i).

(** The heap after the loop of [retag_all] has told the objects of [pairs]
    their tags, and the dict from objects to tags it has filled. *)
Definition retag_heap (pairs : list (Z * nat)) (h : list Materials.Material)
  : list Materials.Material :=
  fold_left (fun h (p : Z * nat) => alter (Materials.with_tag p.1) p.2 h) pairs h.

Definition retag_tags (pairs : list (Z * nat)) (matTags : gmap nat Z) : gmap nat Z :=
  fold_left (fun mt (p : Z * nat) => <[p.2 := p.1]> mt) pairs matTags.

(** The dicts refer to objects of the heap, each under its own name and
    under one tag. *)
Definition linked (s : Materials.Registry) : Prop :=
  NoDup (map snd (Materials._materials s))
  /\ (forall t id, (t, id) ∈ Materials._materials s ->
        exists obj, Materials.heap s !! id = Some obj
                    /\ Materials._names s !! Materials.user_name obj = Some id)
  /\ (forall name id, Materials._names s !! name = Some id ->
        id ∈ map snd (Materials._materials s)
        /\ exists obj, Materials.heap s !! id = Some obj
                       /\ Materials.user_name obj = name).

(** A registry in order: the tags are [_start_tag], [_start_tag + 1], ... in
    the order of the dict, every material carries the tag it is filed
    under, [_matTags] is the inverse of [_materials], and [_names] files
    the registered materials, and no others, under their names. *)
Definition consistent (s : Materials.Registry) : Prop :=
  keys_from (Materials._start_tag s) (Materials._materials s)
  /\ Materials._next_tag s
     = Materials._start_tag s + Z.of_nat (length (Materials._materials s))
  /\ linked s
  /\ (forall t id obj, (t, id) ∈ Materials._materials s ->
        Materials.heap s !! id = Some obj -> Materials.tag obj = t)
  /\ (forall id t, Materials._matTags s !! id = Some t
                   <-> (t, id) ∈ Materials._materials s).

(** The registry between the three [pop]s of [delete_material] and its
    call of [retag_all]. *)
Definition popped (t : Z) (material : nat) (obj : Materials.Material)
    (s : Materials.Registry) : Materials.Registry :=
  {| Materials.heap := Materials.heap s;
     Materials._materials := PyDict.del (Materials._materials s) t;
     Materials._matTags := delete material (Materials._matTags s);
     Materials._names := delete (Materials.user_name obj) (Materials._names s);
     Materials._next_tag := Materials._next_tag s;
     Materials._start_tag := Materials._start_tag s |}.

(** The registry at the call of [retag_all] in [set_tag_start]. *)
Definition restarted (start_number : Z) (s : Materials.Registry) : Materials.Registry :=
  {| Materials.heap := Materials.heap s;
     Materials._materials := Materials._materials s;
     Materials._matTags := Materials._matTags s;
     Materials._names := Materials._names s;
     Materials._next_tag := start_number;
     Materials._start_tag := start_number |}.

(** The registries that the class methods can produce. *)
Inductive reachable : Materials.Registry -> Prop :=
| reach_class : reachable Materials.class_state
| reach_init (material_type material_name user_name : string) (s : Materials.Registry) :
    reachable s ->
    reachable (Materials.__init__ material_type material_name user_name s).1
| reach_delete_material (t : Z) (s : Materials.Registry) :
    reachable s -> reachable (Materials.delete_material t s).1
| reach_clear_all (s : Materials.Registry) :
    reachable s -> reachable (Materials.clear_all s)
| reach_set_tag_start (start_number : Z) (s : Materials.Registry) :
    reachable s -> reachable (Materials.set_tag_start start_number s).1.

(** The class registered for a type of a category, if any. *)
Definition registered_class {Class} (types : MaterialRegistry.Types (Class := Class))
    (category name : string) : option Class :=
  MaterialRegistry.get types category ≫= (fun d => MaterialRegistry.get d name).

(** The keys of a dict after an assignment at [k]. *)
Definition keys_with (ks : list string) (k : string) : list string :=
  if bool_decide (k ∈ ks) then ks else ks ++ [k].

(** Some constraint has the node at index [k] as its master, or as a slave. *)
Definition is_master (mp : list EqualDOF) (k : Z) : bool :=
  existsb (fun c => masterNode c - 1 =? k) mp.

Definition has_slave (s : Z) (c : EqualDOF) : bool :=
  existsb (fun x => x - 1 =? s) (slaveNodes c).

Definition is_slave (mp : list EqualDOF) (s : Z) : bool :=
  existsb (has_slave s) mp.

(** The last constraint created with the master at index [k], and the
    master of the last constraint created with the slave at index [s]. *)
Definition last_with_master (mp : list EqualDOF) (k : Z) : option EqualDOF :=
  List.find (fun c => masterNode c - 1 =? k) (rev mp).

Definition last_master_of (mp : list EqualDOF) (s : Z) : option Z :=
  (fun c => masterNode c - 1) <$> List.find (has_slave s) (rev mp).

(** The maps of the export stand for the constraints [mp] on [n] nodes. *)
Definition stands_for (n : nat) (mp : list EqualDOF) (maps : MpExport.Maps) : Prop :=
  MpExport.master_nodes maps = map (fun p => is_master mp (Z.of_nat p)) (seq 0 n)
  /\ MpExport.slave_nodes maps = map (fun p => is_slave mp (Z.of_nat p)) (seq 0 n)
  /\ (forall k, MpExport.constraint_map maps !! k = last_with_master mp k)
  /\ (forall s, MpExport.constraint_map_rev maps !! s = last_master_of mp s).

(** The nodes of a constraint are tags of nodes of the mesh, and it has a
    slave. *)
Definition on_nodes (n : nat) (c : EqualDOF) : Prop :=
  1 <= masterNode c <= Z.of_nat n
  /\ slaveNodes c <> []
  /\ Forall (fun s => 1 <= s <= Z.of_nat n) (slaveNodes c).

(** The points of the cells of a core, and whether the node at index [k]
    is one of them. *)
Definition core_cells (mesh : Mesh) (core : Z) : list nat :=
  List.filter (fun i => bool_decide (cd_Core mesh !! i = Some core))
              (seq 0 (length (cd_Core mesh))).

Definition core_points (mesh : Mesh) (core : Z) : list nat :=
  flat_map (cell_points_of mesh) (core_cells mesh core).

Definition in_core (mesh : Mesh) (core : Z) (k : Z) : bool :=
  (0 <=? k) && bool_decide (Z.to_nat k ∈ core_points mesh core).

(** The indices below [n] that satisfy [g], in order. *)
Definition nodes_where (n : nat) (g : Z -> bool) : list Z :=
  map Z.of_nat (List.filter (fun p => g (Z.of_nat p)) (seq 0 n)).

(** The masters whose constraints are written for a core: the masters in
    the core and the masters of the slaves in the core. *)
Definition active_masters_of (mesh : Mesh) (mp : list EqualDOF) (core : Z) : list Z :=
  let n := length (points mesh) in
  unique (nodes_where n (fun k => is_master mp k && in_core mesh core k)
          ++ omap (last_master_of mp)
                  (nodes_where n (fun s => is_slave mp s && in_core mesh core s))).

(** The constraints written for a core, and the nodes that are written
    with them because they are not in the core. *)
Definition written_constraints (mesh : Mesh) (mp : list EqualDOF) (core : Z)
  : list EqualDOF :=
  omap (last_with_master mp) (active_masters_of mesh mp core).

Definition extra_masters (mesh : Mesh) (mp : list EqualDOF) (core : Z) : list Z :=
  List.filter (fun k => negb (in_core mesh core k)) (active_masters_of mesh mp core).

Definition extra_slaves (mesh : Mesh) (mp : list EqualDOF) (core : Z) : list Z :=
  unique (List.filter (fun s => negb (in_core mesh core s))
            (map (fun s => s - 1)
                 (concat (map slaveNodes (written_constraints mesh mp core))))).

(** A titled group of node lines. *)
Definition node_group (float_str : Q -> string) (mesh : Mesh) (title : string)
    (ids : list Z) : list string :=
  match ids with
  | [] => []
  | _ :: _ =>
      (TclExport.tab +:+ title +:+ TclExport.newline)%string
      :: map (fun k => node_text float_str mesh (Z.to_nat k)) ids
  end.

Definition constraint_line (constraint_to_tcl : EqualDOF -> string) (c : EqualDOF)
  : string :=
  (TclExport.tab +:+ constraint_to_tcl c +:+ TclExport.newline)%string.

(** The text written for a core. *)
Definition mp_block (float_str : Q -> string) (constraint_to_tcl : EqualDOF -> string)
    (mesh : Mesh) (mp : list EqualDOF) (core : Z) : list string :=
  match active_masters_of mesh mp core with
  | [] => []
  | _ :: _ =>
      [("if {$pid == " +:+ pretty core +:+ "} {" +:+ TclExport.newline)%string]
      ++ node_group float_str mesh "# Master nodes" (extra_masters mesh mp core)
      ++ node_group float_str mesh "# Slave nodes" (extra_slaves mesh mp core)
      ++ map (constraint_line constraint_to_tcl) (written_constraints mesh mp core)
      ++ [("}" +:+ TclExport.newline)%string]
  end.

(** A mesh and constraints that can be written: one core per cell, one
    ndf per point, cells made of points of the mesh, constraints on nodes
    of the mesh. *)
Definition constrained (mesh : Mesh) (mp : list EqualDOF) : Prop :=
  length (cd_Core mesh) = length (connectivity mesh)
  /\ length (ndf mesh) = length (points mesh)
  /\ Forall (Forall (fun pid => (pid < length (points mesh))%nat)) (connectivity mesh)
  /\ Forall (on_nodes (length (points mesh))) mp.

(** The integer [i] is no index of an array of length [n]. *)
Definition beyond (n : nat) (i : Z) : Prop := i < - Z.of_nat n \/ Z.of_nat n <= i.


(** * Properties *)

Section RegionClassifierFacts.
Import RegionClassifier.

Lemma mask_assign_lookup arr mask v i a m :
  arr !! i = Some a -> mask !! i = Some m ->
  mask_assign arr mask v !! i = Some (set_if m v a).
Proof.
  intros Ha Hm. unfold mask_assign.
  rewrite lookup_zip_with, Ha. simpl. rewrite Hm. reflexivity.
Qed.

Lemma mask_and_lookup a b i x y :
  a !! i = Some x -> b !! i = Some y -> mask_and a b !! i = Some (x && y).
Proof.
  intros Ha Hb. unfold mask_and.
  rewrite lookup_zip_with, Ha. simpl. rewrite Hb. reflexivity.
Qed.

Lemma near_lookup coords ref i c :
  coords !! i = Some c -> near coords ref !! i = Some (is_near c ref).
Proof.
  intros H. unfold near. rewrite list_lookup_fmap, H. reflexivity.
Qed.

Lemma absRegion_lookup centers i c :
  centers !! i = Some c ->
  absRegion centers !! i = Some (cell_code (bounds centers) c).
Proof.
  intros Hc.
  assert (Hx : map px centers !! i = Some (px c))
    by (rewrite list_lookup_fmap, Hc; reflexivity).
  assert (Hy : map py centers !! i = Some (py c))
    by (rewrite list_lookup_fmap, Hc; reflexivity).
  assert (Hz : map pz centers !! i = Some (pz c))
    by (rewrite list_lookup_fmap, Hc; reflexivity).
  assert (H0 : zeros (length centers) !! i = Some 0).
  { unfold zeros. apply lookup_replicate_2. eapply lookup_lt_Some; eauto. }
  unfold absRegion, faces, cell_code, region_code; cbn [left right front back bottom].
  repeat (first
    [ eassumption
    | apply mask_assign_lookup
    | apply mask_and_lookup
    | apply near_lookup ]).
Qed.





End RegionClassifierFacts.

(** ** The monad *)

Section MonadFacts.

Lemma bind_inr {A B} (c : M A) (k : A -> M B) s s' b :
  bind c k s = (s', inr b) ->
  exists a s1, c s = (s1, inr a) /\ k a s1 = (s', inr b).
Proof.
  unfold bind. destruct (c s) as [s1 [e | a]]; intros H.
  - discriminate.
  - eauto.
Qed.

Lemma bind_inl {A B} (c : M A) (k : A -> M B) s s' e :
  bind c k s = (s', inl e) ->
  c s = (s', inl e) \/ exists a s1, c s = (s1, inr a) /\ k a s1 = (s', inl e).
Proof.
  unfold bind. destruct (c s) as [s1 [e1 | a]]; intros H.
  - left. congruence.
  - right. eauto.
Qed.


Lemma bind_err {A B} (c : M A) (k : A -> M B) s s1 e :
  c s = (s1, inl e) -> bind c k s = (s1, inl e).
Proof. unfold bind. intros ->. reflexivity. Qed.


Lemma lift_inl {A} (r : Exception + A) s s' e :
  lift r s = (s', inl e) -> r = inl e /\ s' = s.
Proof. unfold lift. intros H. inversion H. auto. Qed.

End MonadFacts.

(** ** RegionClassifier: the seventeen codes *)

Section RegionCodes.
Import RegionClassifier.

Lemma region_code_range l r fr bk bt :
  l || r || fr || bk || bt = true -> 1 <= region_code l r fr bk bt <= 17.
Proof. destruct l, r, fr, bk, bt; cbn; intros H; try discriminate; lia. Qed.

Lemma region_code_none : region_code false false false false false = 0.
Proof. reflexivity. Qed.

Lemma region_code_three_faces r bk :
  14 <= region_code true r true bk true <= 17.
Proof. destruct r, bk; cbn; lia. Qed.

(** C3 (as amended).  The code of a boundary cell is a function of its five
    face flags: a cell on at least one face gets exactly one code in 1..17, a
    cell on no face keeps 0, a cell on left, front and bottom and on neither
    right nor back gets 14, and every cell on left, front and bottom gets a
    three-face code (14..17), never a single-face or two-face code. *)
Theorem C3_region_codes (centers : list Point) (i : nat) (c : Point) :
  centers !! i = Some c ->
  let b := bounds centers in
  let l := is_near (px c) (xmin b) in
  let r := is_near (px c) (xmax b) in
  let fr := is_near (py c) (ymin b) in
  let bk := is_near (py c) (ymax b) in
  let bt := is_near (pz c) (zmin b) in
  absRegion centers !! i = Some (region_code l r fr bk bt)
  /\ (l || r || fr || bk || bt = true -> 1 <= region_code l r fr bk bt <= 17)
  /\ (l || r || fr || bk || bt = false -> region_code l r fr bk bt = 0)
  /\ (l && fr && bt = true -> r = false -> bk = false ->
      region_code l r fr bk bt = 14)
  /\ (l && fr && bt = true -> 14 <= region_code l r fr bk bt <= 17).
Proof.
  intros Hc b l r fr bk bt. split; [| split; [| split; [| split]]].
  - apply absRegion_lookup. exact Hc.
  - apply region_code_range.
  - destruct l, r, fr, bk, bt; cbn; intros H; try discriminate; reflexivity.
  - destruct l, fr, bt; cbn; try discriminate. intros _ -> ->. reflexivity.
  - destruct l, fr, bt; cbn; try discriminate. intros _.
    apply region_code_three_faces.
Qed.

End RegionCodes.

(** ** InterfaceStitcher *)

Section StitcherFacts.




Lemma set_constraint_mp_twice c c' s :
  set_constraint_mp c (set_constraint_mp c' s) = set_constraint_mp c s.
Proof. reflexivity. Qed.

Lemma set_constraint_mp_same s : set_constraint_mp (constraint_mp s) s = s.
Proof. destruct s; reflexivity. Qed.

Lemma create_equal_dof_run master slaves ds s :
  create_equal_dof master slaves ds s
  = (set_constraint_mp (constraint_mp s ++ [mkEqualDOF master slaves ds]) s, inr tt).
Proof. reflexivity. Qed.

(** A run of the loop that ends normally has appended one constraint per
    row, in the order of the rows. *)
Lemma create_equal_dofs_inr ndfs indices s s' :
  create_equal_dofs ndfs indices s = (s', inr tt) ->
  exists nodes,
    Forall2 (fun index ms => master_slave ndfs index = inr ms) indices nodes
    /\ s' = set_constraint_mp (constraint_mp s ++ map constraint_of nodes) s.
Proof.
  revert s. induction indices as [| index rest IH]; intros s H; cbn in H.
  - inversion H; subst. exists []. split; [constructor |].
    cbn. rewrite app_nil_r. symmetry. apply set_constraint_mp_same.
  - destruct (master_slave ndfs index) as [e | ms] eqn:Hms; [discriminate |].
    apply IH in H as (nodes & Hnodes & ->).
    exists (ms :: nodes). split; [constructor; assumption |].
    cbn [constraint_mp set_constraint_mp map].
    rewrite <- app_assoc. reflexivity.
Qed.

(** The loop stops at the first row that has no valid pair of nodes. *)
Lemma create_equal_dofs_inl ndfs indices s :
  Exists (fun index => exists e, master_slave ndfs index = inl e) indices ->
  exists s' e, create_equal_dofs ndfs indices s = (s', inl e)
               /\ Exists (fun index => master_slave ndfs index = inl e) indices.
Proof.
  revert s. induction indices as [| index rest IH]; intros s H.
  - inversion H.
  - cbn. destruct (master_slave ndfs index) as [e | ms] eqn:E.
    + exists s, e. split; [reflexivity | left; exact E].
    + inversion H as [? ? [e He] | ? ? Hrest]; subst; [congruence |].
      destruct (IH (set_constraint_mp
                      (constraint_mp s ++ [mkEqualDOF (fst ms) [snd ms] [1; 2; 3]]) s)
                   Hrest) as (s' & e & Hrun & Hex).
      exists s', e. split; [exact Hrun | right; exact Hex].
Qed.


Lemma master_slave_inr ndfs index ms :
  master_slave ndfs index = inr ms -> stitched ndfs index (constraint_of ms).
Proof.
  unfold master_slave.
  destruct (ndfs !! fst index) as [ndf1 |] eqn:E1; [| discriminate].
  destruct (ndfs !! snd index) as [ndf2 |] eqn:E2; [| discriminate].
  destruct ((ndf1 =? 9) && (ndf2 =? 3)) eqn:C1.
  - apply andb_true_iff in C1 as [H1 H2].
    apply Z.eqb_eq in H1, H2. subst. intros H. inversion H; subst.
    exists (snd index), (fst index). cbn. repeat split; auto.
  - destruct ((ndf1 =? 3) && (ndf2 =? 9)) eqn:C2; [| discriminate].
    apply andb_true_iff in C2 as [H1 H2].
    apply Z.eqb_eq in H1, H2. subst. intros H. inversion H; subst.
    exists (fst index), (snd index). cbn. repeat split; auto.
Qed.

Lemma master_slave_other ndfs index ndf1 ndf2 :
  ndfs !! fst index = Some ndf1 -> ndfs !! snd index = Some ndf2 ->
  ~ (ndf1 = 9 /\ ndf2 = 3) -> ~ (ndf1 = 3 /\ ndf2 = 9) ->
  master_slave ndfs index = inl (ValueError BadNdfCombination).
Proof.
  intros E1 E2 N1 N2. unfold master_slave. rewrite E1, E2.
  destruct ((ndf1 =? 9) && (ndf2 =? 3)) eqn:C1.
  { apply andb_true_iff in C1 as [H1 H2]. apply Z.eqb_eq in H1, H2. tauto. }
  destruct ((ndf1 =? 3) && (ndf2 =? 9)) eqn:C2.
  { apply andb_true_iff in C2 as [H1 H2]. apply Z.eqb_eq in H1, H2. tauto. }
  reflexivity.
Qed.


Lemma stitched_all ndfs indices nodes :
  Forall2 (fun index ms => master_slave ndfs index = inr ms) indices nodes ->
  Forall2 (stitched ndfs) indices (map constraint_of nodes).
Proof.
  induction 1; cbn; constructor; auto using master_slave_inr.
Qed.

Lemma master_slave_error ndfs index e :
  master_slave ndfs index = inl e ->
  e = IndexError \/ e = ValueError BadNdfCombination.
Proof.
  unfold master_slave.
  destruct (ndfs !! fst index) as [ndf1 |]; [| intros H; left; congruence].
  destruct (ndfs !! snd index) as [ndf2 |]; [| intros H; left; congruence].
  destruct ((ndf1 =? 9) && (ndf2 =? 3)); [discriminate |].
  destruct ((ndf1 =? 3) && (ndf2 =? 9)); [discriminate |].
  intros H; right; congruence.
Qed.

Lemma create_equal_dofs_error ndfs indices s s' e :
  create_equal_dofs ndfs indices s = (s', inl e) ->
  e = IndexError \/ e = ValueError BadNdfCombination.
Proof.
  revert s. induction indices as [| index rest IH]; intros s H; cbn in H.
  - discriminate.
  - destruct (master_slave ndfs index) as [e' | ms] eqn:E.
    + inversion H; subst. eapply master_slave_error; eauto.
    + eapply IH; eauto.
Qed.

End StitcherFacts.

Section StitcherClaims.

Lemma master_slave_inl_in_range ndfs index e :
  in_range ndfs index -> master_slave ndfs index = inl e ->
  e = ValueError BadNdfCombination.
Proof.
  intros [[ndf1 E1] [ndf2 E2]]. unfold master_slave. rewrite E1, E2.
  destruct ((ndf1 =? 9) && (ndf2 =? 3)); [discriminate |].
  destruct ((ndf1 =? 3) && (ndf2 =? 9)); [discriminate |].
  congruence.
Qed.

(** C1 (as amended).  In the loop that creates the equal-DOF constraints
    (lines 781-795), of the two neighbours of an interface point the one with
    [ndf = 3] is the master node and the one with [ndf = 9] is the slave
    node, the constraint ties DOFs 1, 2, 3 of the slave to the master, and a
    row with any other [ndf] combination raises the fatal ValueError. *)
Theorem C1_master_is_ndf3 (ndfs : list Z) (indices : list (nat * nat)) (s : MeshMaker) :
  (forall s', create_equal_dofs ndfs indices s = (s', inr tt) ->
     exists cs, constraint_mp s' = constraint_mp s ++ cs
                /\ Forall2 (stitched ndfs) indices cs)
  /\ (Forall (in_range ndfs) indices ->
      Exists (other_combination ndfs) indices ->
      exists s', create_equal_dofs ndfs indices s
                 = (s', inl (ValueError BadNdfCombination))).
Proof.
  split.
  - intros s' H. apply create_equal_dofs_inr in H as (nodes & Hnodes & ->).
    exists (map constraint_of nodes). split; [reflexivity |].
    apply stitched_all. exact Hnodes.
  - intros Hrange Hbad.
    assert (Hex : Exists (fun index => exists e, master_slave ndfs index = inl e) indices).
    { apply Exists_exists in Hbad as (index & Hin & n1 & n2 & E1 & E2 & N1 & N2).
      apply Exists_exists. exists index. split; [exact Hin |].
      eexists. eapply master_slave_other; eauto. }
    destruct (create_equal_dofs_inl ndfs indices s Hex) as (s' & e & Hrun & He).
    exists s'. rewrite Hrun. repeat f_equal.
    apply Exists_exists in He as (index & Hin & He).
    eapply master_slave_inl_in_range; [| exact He].
    rewrite Forall_forall in Hrange. apply Hrange. exact Hin.
Qed.





End StitcherClaims.

(** ** [unique]: the distinct values, in increasing order *)

Section UniqueFacts.

Lemma elem_of_insert_sorted (x y : Z) (l : list Z) :
  y ∈ insert_sorted x l <-> y = x \/ y ∈ l.
Proof.
  induction l as [| z t IH]; cbn.
  - rewrite elem_of_cons, elem_of_nil. tauto.
  - destruct (x <? z) eqn:E1.
    + rewrite !elem_of_cons. tauto.
    + destruct (x =? z) eqn:E2.
      * apply Z.eqb_eq in E2. subst. rewrite !elem_of_cons. tauto.
      * rewrite !elem_of_cons, IH. tauto.
Qed.

Lemma insert_sorted_increasing (x : Z) (l : list Z) :
  increasing l -> increasing (insert_sorted x l).
Proof.
  induction l as [| z t IH]; cbn.
  - intros _. split; [constructor | exact I].
  - intros [Hz Ht]. destruct (x <? z) eqn:E1.
    + apply Z.ltb_lt in E1. cbn. split; [| split; assumption].
      constructor; [exact E1 |].
      eapply Forall_impl; [exact Hz |]. cbn. intros; lia.
    + destruct (x =? z) eqn:E2; [cbn; tauto |].
      apply Z.ltb_ge in E1. apply Z.eqb_neq in E2.
      cbn. split; [| apply IH; exact Ht].
      apply Forall_forall. intros y Hy.
      apply elem_of_insert_sorted in Hy as [-> | Hy]; [lia |].
      rewrite Forall_forall in Hz. apply Hz. exact Hy.
Qed.

Lemma increasing_NoDup (l : list Z) : increasing l -> NoDup l.
Proof.
  induction l as [| x t IH]; cbn; [constructor |].
  intros [Hx Ht]. apply NoDup_cons. split; [| apply IH; exact Ht].
  intros Hin. rewrite Forall_forall in Hx. apply Hx in Hin. lia.
Qed.

Lemma unique_increasing (arr : list Z) : increasing (unique arr).
Proof.
  induction arr as [| x t IH]; cbn; [exact I |].
  apply insert_sorted_increasing. exact IH.
Qed.

Lemma elem_of_unique (arr : list Z) (x : Z) : x ∈ unique arr <-> x ∈ arr.
Proof.
  induction arr as [| y t IH]; cbn; [reflexivity |].
  rewrite elem_of_insert_sorted, elem_of_cons, IH. reflexivity.
Qed.

Lemma NoDup_unique (arr : list Z) : NoDup (unique arr).
Proof. apply increasing_NoDup, unique_increasing. Qed.

End UniqueFacts.

(** ** ElementRetagger *)

Section RetaggerFacts.


Lemma registry_only_refl s : registry_only s s.
Proof. unfold registry_only. destruct s; reflexivity. Qed.

Lemma registry_only_trans s1 s2 s3 :
  registry_only s1 s2 -> registry_only s2 s3 -> registry_only s1 s3.
Proof.
  unfold registry_only. intros H12 H23. rewrite H23 at 1. rewrite H12 at 1.
  reflexivity.
Qed.


(** A run of the loop that ends normally: every tag names an element that
    passes the checks, one PML3D element is created per tag with the next
    sequential tags, and the dict maps each tag to its new element. *)
Lemma create_PML_elements_inr nl ndof dx b tags :
  forall P s s' P',
  NoDup tags ->
  create_PML_elements nl ndof dx b tags P s = (s', inr P') ->
  registry_only s s'
  /\ next_tag (element s') = next_tag (element s) + Z.of_nat (length tags)
  /\ (forall k, k < next_tag (element s) \/ next_tag (element s') <= k ->
        elements (element s') !! k = elements (element s) !! k)
  /\ (forall t, t ∉ tags -> P' !! t = P !! t)
  /\ (forall i t, tags !! i = Some t ->
        exists old dx',
          dx = Some dx'
          /\ elements (element s) !! t = Some old
          /\ compatible old = true
          /\ P' !! t = Some (next_tag (element s) + Z.of_nat i)
          /\ elements (element s') !! (next_tag (element s) + Z.of_nat i)
             = Some (PML_element (next_tag (element s) + Z.of_nat i)
                                 ndof nl dx' b old)).
Proof.
  induction tags as [| t rest IH]; intros P s s' P' Hnd H.
  - cbn in H. inversion H; subst.
    split; [apply registry_only_refl |]. split; [cbn; lia |].
    split; [reflexivity |]. split; [reflexivity |].
    intros i t Hi. destruct i; discriminate.
  - apply NoDup_cons in Hnd as [Hnot Hnd].
    cbn [create_PML_elements] in H.
    unfold get_element, bind at 1, bind at 1, get in H.
    destruct (elements (element s) !! t) as [old |] eqn:Hold; [| discriminate].
    cbn [ret] in H.
    destruct (negb (py_in (element_type old) ["stdBrick"; "bbarBrick"; "SSPbrick"]))
      eqn:Hbr; [discriminate |].
    destruct (negb (String.eqb (material_name (element_material old)) "ElasticIsotropic")
              || negb (String.eqb (material_type (element_material old)) "nDMaterial"))
      eqn:Hmat; [discriminate |].
    destruct dx as [dx' |]; [| discriminate].
    assert (Hc : compatible old = true).
    { unfold compatible, bricks. apply negb_false_iff in Hbr.
      apply orb_false_iff in Hmat as [H1 H2].
      apply negb_false_iff in H1, H2. rewrite Hbr, H1, H2. reflexivity. }
    unfold create_element, bind at 1, bind at 1, get, modify in H. cbn [ret] in H.
    unfold bind at 1 in H. cbn in H.
    set (n := next_tag (element s)) in *.
    set (e := {| tag := n; element_type := "PML3D"; element_ndof := ndof;
                 element_material := element_material old;
                 element_parameters := Some (PML_parameters nl dx' b) |}) in *.
    apply IH in H as (Hreg & Hnext & Hframe & HP & Hall); [| exact Hnd].
    cbn [element set_element next_tag elements] in Hnext, Hframe, Hall.
    split.
    { eapply registry_only_trans; [| exact Hreg].
      unfold registry_only. reflexivity. }
    split; [cbn [length]; lia |].
    split.
    { intros k Hk. rewrite Hframe by lia.
      apply lookup_insert_ne. lia. }
    split.
    { intros u Hu. rewrite not_elem_of_cons in Hu. destruct Hu as [Hne Hu].
      rewrite HP by exact Hu. apply lookup_insert_ne. congruence. }
    intros i u Hi. destruct i as [| i]; cbn in Hi.
    + inversion Hi; subst u. exists old, dx'.
      split; [reflexivity |]. split; [exact Hold |]. split; [exact Hc |].
      replace (n + Z.of_nat 0) with n by lia. split.
      * rewrite HP by exact Hnot. apply lookup_insert_eq.
      * rewrite Hframe by lia. apply lookup_insert_eq.
    + destruct (Hall i u Hi) as (old' & dx'' & Hdx & Hold' & Hc' & HP' & Hnew).
      inversion Hdx; subst dx''.
      exists old', dx'. split; [reflexivity |].
      assert (Hne : n <> u).
      { intros ->. rewrite lookup_insert_eq in Hold'. inversion Hold'; subst old'.
        discriminate Hc'. }
      rewrite lookup_insert_ne in Hold' by exact Hne.
      split; [exact Hold' |]. split; [exact Hc' |].
      replace (n + Z.of_nat (S i)) with (n + 1 + Z.of_nat i) by lia.
      split; assumption.
Qed.

End RetaggerFacts.

Section RetaggerLoops.




(** Whatever the new tags are, the rewritten array exists, has the same
    length and holds 16-bit values. *)
Lemma update_element_tags_uint16 (tags : list Z) (P : gmap Z Z) :
  forall arr,
  (forall t, t ∈ tags -> is_Some (P !! t)) ->
  exists arr', update_element_tags tags P arr = inr arr'
               /\ length arr' = length arr
               /\ (Forall (fun x => 0 <= x < 65536) arr ->
                   Forall (fun x => 0 <= x < 65536) arr').
Proof.
  induction tags as [| t rest IH]; intros arr HP.
  - exists arr. cbn. auto.
  - cbn [update_element_tags]. destruct (HP t) as [n Hn]; [left |]. rewrite Hn.
    destruct (IH (map (fun x => if x =? t then astype_uint16 n else x) arr))
      as (arr' & Hrun & Hlen & Hr).
    { intros u Hu. apply HP. right. exact Hu. }
    exists arr'. split; [exact Hrun |]. split; [rewrite Hlen; apply length_map |].
    intros Harr. apply Hr. apply Forall_fmap. eapply Forall_impl; [exact Harr |].
    cbn. intros x Hx. destruct (x =? t); [| exact Hx].
    unfold astype_uint16. apply Z.mod_pos_bound. lia.
Qed.

End RetaggerLoops.

Section RetaggerClaims.
Context {Grid : Type}.

Lemma PML_parameters_defaults (numLayers : Z) (dx : Q) (b : Bounds) :
  PML_parameters numLayers dx b
  = {| gamma := 1 # 2; beta := 1 # 4; eta := 1 # 12; ksi := 1 # 48;
       PML_Thickness := (inject_Z numLayers * dx)%Q;
       m := 2; R := 1 # 100000000;
       meshType := "Box";
       meshTypeParameters :=
         [ ((xmax b + xmin b) / 2)%Q; ((ymax b + ymin b) / 2)%Q; zmax b;
           (xmax b - xmin b)%Q; (ymax b - ymin b)%Q; (zmax b - zmin b)%Q ];
       alpha0 := None; beta0 := None; Cp := None |}.
Proof. reflexivity. Qed.

Lemma retag_run (numLayers ndof : Z) (dx : option Q) (mesh : Mesh)
    (sh : Shell Grid) (s : MeshMaker) :
  retag numLayers ndof dx mesh sh s
  = match create_PML_elements numLayers ndof dx (bounds (points mesh))
            (unique (ElementTag sh)) ∅ s with
    | (s1, inl e) => (s1, inl e)
    | (s1, inr PMLTags) =>
        match update_element_tags (unique (ElementTag sh)) PMLTags (ElementTag sh) with
        | inl e => (s1, inl e)
        | inr arr => (s1, inr (with_ElementTag sh arr))
        end
    end.
Proof.
  unfold retag, bind, lift, ret.
  destruct (create_PML_elements _ _ _ _ _ _ s) as [s1 [e | P]]; [reflexivity |].
  destruct (update_element_tags _ _ _); reflexivity.
Qed.


(** After the loop every entry is the stored form of a new tag: an entry is
    rewritten at the latest when its own old tag comes up. *)
Lemma update_element_tags_new (N : Z -> Prop) (tags : list Z) (P : gmap Z Z) :
  forall arr arr',
  (forall t, t ∈ tags -> exists n, P !! t = Some n /\ N (astype_uint16 n)) ->
  Forall (fun x => N x \/ x ∈ tags) arr ->
  update_element_tags tags P arr = inr arr' ->
  Forall N arr'.
Proof.
  induction tags as [| t rest IH]; intros arr arr' HP Harr H.
  - cbn in H. inversion H; subst. eapply Forall_impl; [exact Harr |].
    cbn. intros x [Hx | Hx]; [exact Hx |]. apply elem_of_nil in Hx. contradiction.
  - cbn [update_element_tags] in H.
    destruct (HP t) as (n & Hn & HN); [left |]. rewrite Hn in H.
    eapply IH; [| | exact H].
    + intros u Hu. apply HP. right. exact Hu.
    + apply Forall_fmap. eapply Forall_impl; [exact Harr |].
      cbn. intros x Hx. destruct (x =? t) eqn:E; [left; exact HN |].
      apply Z.eqb_neq in E. destruct Hx as [Hx | Hx]; [left; exact Hx |].
      apply elem_of_cons in Hx as [-> | Hx]; [congruence | right; exact Hx].
Qed.

Lemma retag_all_new (numLayers ndof : Z) (dx : option Q) (mesh : Mesh)
    (sh sh' : Shell Grid) (s s' : MeshMaker) :
  retag numLayers ndof dx mesh sh s = (s', inr sh') ->
  Forall (fun x => exists i : nat,
            x = astype_uint16 (next_tag (element s) + Z.of_nat i))
         (ElementTag sh').
Proof.
  intros H. rewrite retag_run in H.
  destruct (create_PML_elements _ _ _ _ _ _ s) as [s1 [e | P]] eqn:Hloop;
    [discriminate |].
  destruct (update_element_tags _ P (ElementTag sh)) as [e | arr] eqn:Hup;
    [discriminate |].
  inversion H; subst s' sh'. clear H. cbn [ElementTag with_ElementTag].
  apply create_PML_elements_inr in Hloop as (_ & _ & _ & _ & Hall);
    [| apply NoDup_unique].
  eapply update_element_tags_new; [| | exact Hup].
  - intros t Ht. apply list_elem_of_lookup in Ht as [i Hi].
    destruct (Hall i t Hi) as (_ & _ & _ & _ & _ & HP & _).
    eexists. split; [exact HP |]. exists i. reflexivity.
  - apply Forall_forall. intros x Hx. right. apply elem_of_unique. exact Hx.
Qed.






End RetaggerClaims.

(** ** LayerExtruder and ShellAssembler *)

Section AssemblerFacts.
Context {Grid : Type} (pv : Pyvista Grid).


Lemma astype_uint16_small (z : Z) : uint16 z -> astype_uint16 z = z.
Proof. unfold uint16, astype_uint16. intros H. apply Z.mod_small. exact H. Qed.

Lemma full_uint16_Forall (n : nat) (v : Z) (P : Z -> Prop) :
  P (astype_uint16 v) -> Forall P (full_uint16 n v).
Proof.
  intros H. unfold full_uint16. apply Forall_forall. intros x Hx.
  apply elem_of_replicate in Hx as [-> _]. exact H.
Qed.

Lemma slice_assign_Forall (P : Z -> Prop) arr offset vals :
  Forall P arr -> Forall P vals -> Forall P (slice_assign arr offset vals).
Proof.
  intros Ha Hv. unfold slice_assign.
  apply Forall_app. split; [apply Forall_take; exact Ha |].
  apply Forall_app. split; [exact Hv | apply Forall_drop; exact Ha].
Qed.


(** Block [i] writes its own tag, cast to uint16, over its slice. *)
Lemma broadcast_exact (bs : list Grid) :
  forall (tags : list Z) (done rest : list Z),
  length tags = length bs ->
  length rest = foldr Nat.add 0%nat (map (n_cells pv) bs) ->
  broadcast pv bs tags (length done) (done ++ rest)
  = done ++ concat (zip_with (fun block t => full_uint16 (n_cells pv block) t) bs tags).
Proof.
  induction bs as [| block bs IH]; intros tags done rest Hlen Hrest.
  - cbn in *. destruct rest; [| discriminate]. destruct tags; reflexivity.
  - destruct tags as [| t tags]; [discriminate |]. cbn in Hlen, Hrest.
    cbn [broadcast zip_with concat].
    assert (Hslice : slice_assign (done ++ rest) (length done)
                       (full_uint16 (n_cells pv block) t)
                     = (done ++ full_uint16 (n_cells pv block) t)
                       ++ drop (n_cells pv block) rest).
    { unfold slice_assign, full_uint16. rewrite length_replicate.
      rewrite take_app_length, drop_app_add.
      rewrite <- app_assoc. reflexivity. }
    rewrite Hslice.
    replace (length done + n_cells pv block)%nat
      with (length (done ++ full_uint16 (n_cells pv block) t))
      by (rewrite length_app; unfold full_uint16; rewrite length_replicate; reflexivity).
    rewrite IH.
    + rewrite <- app_assoc. reflexivity.
    + lia.
    + rewrite length_drop. lia.
Qed.

Lemma broadcast_from_zeros (bs : list Grid) (tags : list Z) :
  length tags = length bs ->
  broadcast pv bs tags 0
    (replicate (foldr Nat.add 0%nat (map (n_cells pv) bs)) 0)
  = concat (zip_with (fun block t => full_uint16 (n_cells pv block) t) bs tags).
Proof.
  intros H. apply (broadcast_exact bs tags [] _ H). apply length_replicate.
Qed.

Lemma broadcast_Forall (P : Z -> Prop) (bs : list Grid) (tags : list Z) :
  length tags = length bs ->
  Forall (fun t => P (astype_uint16 t)) tags ->
  Forall P (broadcast pv bs tags 0
              (replicate (foldr Nat.add 0%nat (map (n_cells pv) bs)) 0)).
Proof.
  intros Hlen Ht. rewrite broadcast_from_zeros by exact Hlen.
  clear Hlen. revert tags Ht. induction bs as [| block bs IH]; intros tags Ht.
  - constructor.
  - destruct tags as [| t tags]; [constructor |]. inversion Ht; subst.
    cbn. apply Forall_app. split; [apply full_uint16_Forall; assumption |].
    apply IH. assumption.
Qed.


End AssemblerFacts.

(** ** The phases of a call that reaches the merge *)

Section Phases.
Context {Grid : Type} (pv : Pyvista Grid).




(** *** ShellPartitioner *)


Lemma with_Region_same (sh : Shell Grid) : with_Region sh (Region sh) = sh.
Proof. destruct sh; reflexivity. Qed.


(** *** The damping region *)

Lemma new_region_run (a : Args) (sh : Shell Grid) (s : MeshMaker) :
  new_region pv a sh s
  = (set_region
       (mkRegionManager
          (regions (region s)
           ++ [mkRegionEntry (region_next_tag (region s)) "elementRegion"
                             (damping_next_tag (damping s))])
          (region_next_tag (region s) + 1))
       (set_damping
          (mkDampingManager
             (dampings (damping s)
              ++ [mkDamping (damping_next_tag (damping s)) "frequency rayleigh"
                            (rayleighDamping a)])
             (damping_next_tag (damping s) + 1)) s),
     inr (with_Region sh (full_uint16 (n_cells pv (grid sh))
                                      (region_next_tag (region s))))).
Proof. reflexivity. Qed.

Lemma damp_inr (a : Args) (ty : string) (sh sh' : Shell Grid) (s s' : MeshMaker) :
  damp pv a ty sh s = (s', inr sh') ->
  sh' = with_Region sh (Region sh')
  /\ AssembeledMesh s' = AssembeledMesh s
  /\ element s' = element s
  /\ constraint_mp s' = constraint_mp s
  /\ Region sh' = (if adds_region a ty
                   then full_uint16 (n_cells pv (grid sh)) (region_next_tag (region s))
                   else Region sh).
Proof.
  unfold damp, adds_region, bind.
  destruct (String.eqb ty "Rayleigh") eqn:Er; destruct (String.eqb ty "PML") eqn:Ep.
  - apply String.eqb_eq in Er, Ep. congruence.
  - destruct (matchDamping a); cbn [negb orb andb].
    + unfold ret. intros H. inversion H; subst. rewrite with_Region_same. auto.
    + rewrite new_region_run. unfold ret. intros H. inversion H; subst. cbn. auto.
  - destruct (matchDamping a); cbn [negb orb andb]; unfold ret at 1.
    + unfold ret. intros H. inversion H; subst. rewrite with_Region_same. auto.
    + rewrite new_region_run. intros H. inversion H; subst. cbn. auto.
  - cbn [negb orb andb]. unfold ret. intros H. inversion H; subst.
    rewrite with_Region_same. auto.
Qed.

End Phases.

(** ** The whole call *)

Section CallFacts.
Context {Grid : Type} (pv : Pyvista Grid) (kd : Pykdtree).

Lemma registry_only_fields (s s' : MeshMaker) :
  registry_only s s' ->
  AssembeledMesh s' = AssembeledMesh s /\ damping s' = damping s
  /\ region s' = region s /\ constraint_mp s' = constraint_mp s.
Proof. unfold registry_only. intros ->. cbn. auto. Qed.





End CallFacts.

Section CallChecks.
Context {Grid : Type} (pv : Pyvista Grid) (kd : Pykdtree).

(** The checks of the rectangular method, once those of the outer method
    have passed. *)
Lemma prepare_shell_checks (a : Args) (s : MeshMaker) (mesh : Mesh) :
  AssembeledMesh s = Some mesh ->
  (numLayers a <? 1) = false -> (numPartitions a <? 0) = false ->
  negb (py_in (partitionAlgo a) ["kd-tree"; "metis"]) = false ->
  String.eqb (partitionAlgo a) "metis" = false ->
  prepare_shell pv a s
  = match layer_type a with
    | inl e => (s, inl e)
    | inr (ty, ndof, flag) =>
        match array_max (cd_Core mesh) with
        | inl e => (s, inl e)
        | inr np =>
            if (numPartitions a =? 0) && (0 <? np)
            then (s, inl (ValueError PartitionsIncompatible))
            else construct_shell pv a mesh ty ndof flag np s
        end
    end.
Proof.
  intros Hmesh HnL HnP Halgo Hmetis.
  unfold prepare_shell, bind, get, lift, raise.
  rewrite Hmesh, HnL, HnP, Halgo, Hmetis.
  destruct (layer_type a) as [e | [[ty ndof] flag]]; [reflexivity |].
  destruct (array_max (cd_Core mesh)) as [e | np]; [reflexivity |].
  destruct ((numPartitions a =? 0) && (0 <? np)); reflexivity.
Qed.

Lemma rectangular_raises (a : Args) (s s1 : MeshMaker) (e : Exception) :
  prepare_shell pv a s = (s1, inl e) ->
  _addRectangularAbsorbingLayer pv kd a s = (s1, inl e).
Proof. intros H. unfold _addRectangularAbsorbingLayer. apply bind_err. exact H. Qed.

(** The checks of both methods as one decision tree: every leaf that
    raises does so in the state of the call, before any shell is built. *)
Lemma addAbsorbingLayer_checks (a : Args) (s : MeshMaker) :
  addAbsorbingLayer pv kd a s
  = match AssembeledMesh s with
    | None => (s, inl (ValueError NoMeshFound))
    | Some mesh =>
      if numLayers a <? 1 then (s, inl (ValueError BadNumLayers)) else
      if numPartitions a <? 0 then (s, inl (ValueError BadNumPartitions)) else
      if negb (py_in (geometry a) ["Rectangular"; "Cylindrical"])
      then (s, inl (ValueError BadGeometry)) else
      if negb (py_in (partitionAlgo a) ["kd-tree"; "metis"])
      then (s, inl (ValueError BadPartitionAlgo)) else
      if String.eqb (partitionAlgo a) "metis"
      then (s, inl (NotImplementedError Metis)) else
      if String.eqb (geometry a) "Rectangular" then
        match layer_type a with
        | inl e => (s, inl e)
        | inr _ =>
            match array_max (cd_Core mesh) with
            | inl e => (s, inl e)
            | inr num_partitions =>
                if (numPartitions a =? 0) && (0 <? num_partitions)
                then (s, inl (ValueError PartitionsIncompatible))
                else _addRectangularAbsorbingLayer pv kd a s
            end
        end
      else if String.eqb (geometry a) "Cylindrical"
      then (s, inl (NotImplementedError Cylindrical))
      else (s, inr PyNone)
    end.
Proof.
  unfold addAbsorbingLayer, bind at 1, get.
  destruct (AssembeledMesh s) as [mesh |] eqn:Hmesh; [| reflexivity].
  destruct (numLayers a <? 1) eqn:HnL; [reflexivity |].
  destruct (numPartitions a <? 0) eqn:HnP; [reflexivity |].
  destruct (negb (py_in (geometry a) ["Rectangular"; "Cylindrical"])); [reflexivity |].
  destruct (negb (py_in (partitionAlgo a) ["kd-tree"; "metis"])) eqn:Halgo;
    [reflexivity |].
  destruct (String.eqb (partitionAlgo a) "metis") eqn:Hmetis; [reflexivity |].
  destruct (String.eqb (geometry a) "Rectangular");
    [| destruct (String.eqb (geometry a) "Cylindrical"); reflexivity].
  pose proof (prepare_shell_checks a s mesh Hmesh HnL HnP Halgo Hmetis) as Hp.
  destruct (layer_type a) as [e | [[ty ndof] flag]];
    [apply rectangular_raises; exact Hp |].
  destruct (array_max (cd_Core mesh)) as [e | np];
    [apply rectangular_raises; exact Hp |].
  destruct ((numPartitions a =? 0) && (0 <? np));
    [apply rectangular_raises; exact Hp | reflexivity].
Qed.

Lemma py_in_two (x y z : string) : py_in x [y; z] = true <-> x = y \/ x = z.
Proof.
  unfold py_in. cbn [existsb]. rewrite !orb_true_iff, !String.eqb_eq.
  split; [intros [H | [H | H]]; auto; discriminate | intros [H | H]; auto].
Qed.

End CallChecks.

(** ** The claims about the whole call *)

Section CallClaims.
Context {Grid : Type} (pv : Pyvista Grid) (kd : Pykdtree).



(** C7 (the code departs from it).  A call that ends without an error
    returns None, not True: the rectangular method has no return statement,
    and the outer method returns its result. *)
Theorem C7_returns_None (a : Args) (s s' : MeshMaker) (v : PyValue) :
  addAbsorbingLayer pv kd a s = (s', inr v) -> v = PyNone.
Proof.
  rewrite addAbsorbingLayer_checks.
  destruct (AssembeledMesh s) as [mesh |]; [| discriminate].
  destruct (numLayers a <? 1); [discriminate |].
  destruct (numPartitions a <? 0); [discriminate |].
  destruct (negb (py_in (geometry a) ["Rectangular"; "Cylindrical"])); [discriminate |].
  destruct (negb (py_in (partitionAlgo a) ["kd-tree"; "metis"])); [discriminate |].
  destruct (String.eqb (partitionAlgo a) "metis"); [discriminate |].
  destruct (String.eqb (geometry a) "Rectangular").
  - destruct (layer_type a) as [e | lt]; [discriminate |].
    destruct (array_max (cd_Core mesh)) as [e | np]; [discriminate |].
    destruct ((numPartitions a =? 0) && (0 <? np)); [discriminate |].
    unfold _addRectangularAbsorbingLayer. intros H.
    apply bind_inr in H as ([[[ty flag] mesh'] sh] & s1 & _ & H).
    apply bind_inr in H as (u & s2 & _ & H).
    apply bind_inr in H as (u' & s3 & _ & H).
    unfold ret in H. congruence.
  - destruct (String.eqb (geometry a) "Cylindrical"); [discriminate |].
    congruence.
Qed.

(** C9.  On a precondition or validation failure (no assembled mesh,
    numLayers < 1, numPartitions < 0, unknown geometry, algorithm or type
    string, or numPartitions = 0 on a partitioned mesh) the call raises in
    the state it was made in: the persistent mesh, like the rest of the
    singleton, is unchanged. *)
Theorem C9_failed_call_keeps_mesh (a : Args) (s : MeshMaker) :
  validation_failure a s ->
  exists e, addAbsorbingLayer pv kd a s = (s, inl e).
Proof.
  intros H. rewrite addAbsorbingLayer_checks.
  destruct (AssembeledMesh s) as [mesh |] eqn:Hmesh; [| eauto].
  destruct (numLayers a <? 1) eqn:HnL; [eauto |].
  destruct (numPartitions a <? 0) eqn:HnP; [eauto |].
  destruct (negb (py_in (geometry a) ["Rectangular"; "Cylindrical"])) eqn:Hgeo;
    [eauto |].
  destruct (negb (py_in (partitionAlgo a) ["kd-tree"; "metis"])) eqn:Halgo;
    [eauto |].
  destruct (String.eqb (partitionAlgo a) "metis"); [eauto |].
  apply negb_false_iff in Hgeo, Halgo. apply Z.ltb_ge in HnL, HnP.
  destruct (String.eqb (geometry a) "Rectangular") eqn:HR.
  - destruct (layer_type a) as [e | lt] eqn:Hlt; [eauto |].
    destruct (array_max (cd_Core mesh)) as [e | np] eqn:Hnp; [eauto |].
    destruct ((numPartitions a =? 0) && (0 <? np)) eqn:Hc; [eauto |].
    exfalso. unfold layer_type in Hlt.
    destruct H as [H | [H | [H | [H | [H | [H | [H | H]]]]]]];
      try congruence; try lia.
    + rewrite H in Hlt. discriminate.
    + destruct H as (ty & Hty & Hin). rewrite Hty, Hin in Hlt. discriminate.
    + destruct H as (H0 & mesh0 & np0 & Hm0 & Hnp0 & Hpos).
      assert (np0 = np) by congruence. subst np0.
      rewrite H0 in Hc. apply Z.ltb_lt in Hpos. rewrite Hpos in Hc. discriminate.
  - destruct (String.eqb (geometry a) "Cylindrical") eqn:HC; [eauto |].
    exfalso. apply py_in_two in Hgeo.
    apply String.eqb_neq in HR, HC. tauto.
Qed.

End CallClaims.

Section ErrorKinds.
Context {Grid : Type} (pv : Pyvista Grid) (kd : Pykdtree).

Lemma layer_type_ASDA (a : Args) :
  kwargs_type a = Some "ASDA" -> layer_type a = inl (NotImplementedError ASDA).
Proof. intros H. unfold layer_type. rewrite H. reflexivity. Qed.

Lemma layer_type_unknown (a : Args) (ty : string) :
  kwargs_type a = Some ty -> py_in ty ["PML"; "Rayleigh"; "ASDA"] = false ->
  layer_type a = inl (ValueError BadType).
Proof. intros H Hin. unfold layer_type. rewrite H, Hin. reflexivity. Qed.

(** C8.  In a call that passes the checks made before it (a mesh is
    assembled, numLayers >= 1, numPartitions >= 0, known geometry and
    algorithm), selecting an unimplemented feature (partitionAlgo "metis",
    geometry "Cylindrical", type "ASDA") raises NotImplementedError, which
    is not a ValueError; with "metis" or "Cylindrical" this is so whatever
    the type string, known or not.  A call that fails an earlier check
    raises the ValueError of that check, whatever is selected.  A call
    with type "ASDA" always raises in the state of the call, whatever the
    geometry kernel, so no extrusion is attempted; an unknown geometry or
    algorithm string always raises a ValueError, and so does an unknown
    type string in a rectangular kd-tree call. *)
Theorem C8_error_kinds (a : Args) (s : MeshMaker) :
  let result := addAbsorbingLayer pv kd a s in
  (forall mesh,
     AssembeledMesh s = Some mesh -> 1 <= numLayers a -> 0 <= numPartitions a ->
     (partitionAlgo a = "metis" ->
      py_in (geometry a) ["Rectangular"; "Cylindrical"] = true ->
      result = (s, inl (NotImplementedError Metis)))
     /\ (geometry a = "Cylindrical" -> partitionAlgo a = "kd-tree" ->
         result = (s, inl (NotImplementedError Cylindrical)))
     /\ (kwargs_type a = Some "ASDA" ->
         geometry a = "Rectangular" -> partitionAlgo a = "kd-tree" ->
         result = (s, inl (NotImplementedError ASDA)))
     /\ (kwargs_type a = Some "ASDA" ->
         py_in (geometry a) ["Rectangular"; "Cylindrical"] = true ->
         py_in (partitionAlgo a) ["kd-tree"; "metis"] = true ->
         exists what, result = (s, inl (NotImplementedError what))))
  /\ (kwargs_type a = Some "ASDA" -> exists e, result = (s, inl e))
  /\ (py_in (geometry a) ["Rectangular"; "Cylindrical"] = false ->
      exists site, result = (s, inl (ValueError site)))
  /\ (py_in (partitionAlgo a) ["kd-tree"; "metis"] = false ->
      exists site, result = (s, inl (ValueError site)))
  /\ (forall ty,
        kwargs_type a = Some ty -> py_in ty ["PML"; "Rayleigh"; "ASDA"] = false ->
        geometry a = "Rectangular" -> partitionAlgo a = "kd-tree" ->
        exists site, result = (s, inl (ValueError site)))
  /\ (AssembeledMesh s = None \/ numLayers a < 1 \/ numPartitions a < 0 ->
      exists site, result = (s, inl (ValueError site)))
  /\ (forall mesh ty,
        AssembeledMesh s = Some mesh -> 1 <= numLayers a -> 0 <= numPartitions a ->
        kwargs_type a = Some ty -> py_in ty ["PML"; "Rayleigh"; "ASDA"] = false ->
        (partitionAlgo a = "metis"
         /\ py_in (geometry a) ["Rectangular"; "Cylindrical"] = true)
        \/ (geometry a = "Cylindrical" /\ partitionAlgo a = "kd-tree") ->
        exists what, result = (s, inl (NotImplementedError what)))
  /\ (forall what site, NotImplementedError what <> ValueError site).
Proof.
  intros result. unfold result. rewrite addAbsorbingLayer_checks.
  split; [| split; [| split; [| split; [| split; [| split; [| split]]]]]].
  - intros mesh Hmesh HnL HnP. apply Z.ltb_ge in HnL, HnP.
    rewrite Hmesh, HnL, HnP.
    split; [| split; [| split]].
    + intros -> ->. reflexivity.
    + intros -> ->. reflexivity.
    + intros Hty -> ->. cbn. rewrite (layer_type_ASDA a Hty). reflexivity.
    + intros Hty Hgeo Halgo. rewrite Hgeo, Halgo. cbn [negb].
      destruct (String.eqb (partitionAlgo a) "metis"); [eauto |].
      destruct (String.eqb (geometry a) "Rectangular") eqn:HR.
      * rewrite (layer_type_ASDA a Hty). eauto.
      * destruct (String.eqb (geometry a) "Cylindrical") eqn:HC; [eauto |].
        exfalso. apply py_in_two in Hgeo. apply String.eqb_neq in HR, HC. tauto.
  - intros Hty.
    destruct (AssembeledMesh s) as [mesh |]; [| eauto].
    destruct (numLayers a <? 1); [eauto |].
    destruct (numPartitions a <? 0); [eauto |].
    destruct (negb (py_in (geometry a) ["Rectangular"; "Cylindrical"])) eqn:Hgeo;
      [eauto |].
    destruct (negb (py_in (partitionAlgo a) ["kd-tree"; "metis"])); [eauto |].
    destruct (String.eqb (partitionAlgo a) "metis"); [eauto |].
    destruct (String.eqb (geometry a) "Rectangular") eqn:HR.
    + rewrite (layer_type_ASDA a Hty). eauto.
    + destruct (String.eqb (geometry a) "Cylindrical") eqn:HC; [eauto |].
      exfalso. apply negb_false_iff, py_in_two in Hgeo.
      apply String.eqb_neq in HR, HC. tauto.
  - intros Hgeo. rewrite Hgeo. cbn [negb].
    destruct (AssembeledMesh s) as [mesh |]; [| eauto].
    destruct (numLayers a <? 1); [eauto |].
    destruct (numPartitions a <? 0); eauto.
  - intros Halgo. rewrite Halgo. cbn [negb].
    destruct (AssembeledMesh s) as [mesh |]; [| eauto].
    destruct (numLayers a <? 1); [eauto |].
    destruct (numPartitions a <? 0); [eauto |].
    destruct (negb (py_in (geometry a) ["Rectangular"; "Cylindrical"])); eauto.
  - intros ty Hty Hin -> ->. cbn.
    rewrite (layer_type_unknown a ty Hty Hin).
    destruct (AssembeledMesh s) as [mesh |]; [| eauto].
    destruct (numLayers a <? 1); [eauto |].
    destruct (numPartitions a <? 0); eauto.
  - intros [Hnone | [HnL | HnP]].
    + rewrite Hnone. eauto.
    + destruct (AssembeledMesh s) as [mesh |]; [| eauto].
      apply Z.ltb_lt in HnL. rewrite HnL. eauto.
    + destruct (AssembeledMesh s) as [mesh |]; [| eauto].
      destruct (numLayers a <? 1); [eauto |].
      apply Z.ltb_lt in HnP. rewrite HnP. eauto.
  - intros mesh ty Hmesh HnL HnP _ _ Hsel. apply Z.ltb_ge in HnL, HnP.
    rewrite Hmesh, HnL, HnP.
    destruct Hsel as [[-> ->] | [-> ->]]; eauto.
  - intros what site. discriminate.
Qed.


End ErrorKinds.

(** ** The claims on the worked example *)

Section Witnesses.
Import Example.

Ltac run_example := vm_compute; reflexivity.

(** C1 on two rows: the pair (ndf 9, ndf 3) yields master 2, the node with
    ndf 3; the pair (3, 3) raises. *)
Lemma C1_witness :
  (exists cs,
     constraint_mp (fst (create_equal_dofs [9; 3] [(0, 1)%nat] (model None)))
     = constraint_mp (model None) ++ cs
     /\ Forall2 (stitched [9; 3]) [(0, 1)%nat] cs)
  /\ (exists s', create_equal_dofs [3; 3] [(0, 1)%nat] (model None)
                 = (s', inl (ValueError BadNdfCombination))).
Proof.
  split.
  - apply (proj1 (C1_master_is_ndf3 [9; 3] [(0, 1)%nat] (model None))).
    run_example.
  - apply (proj2 (C1_master_is_ndf3 [3; 3] [(0, 1)%nat] (model None))).
    + repeat constructor; cbn; eauto.
    + left. exists 3, 3. cbn. repeat split; try reflexivity; intros [? ?]; discriminate.
Defined.

(** The claim as stated fails on the row (ndf 9, ndf 3): the master is
    node 2, whose ndf is 3, and the slave is node 1, whose ndf is 9. *)
Lemma C1_counterexample :
  constraint_mp (fst (create_equal_dofs [9; 3] [(0, 1)%nat] (model None)))
  = [mkEqualDOF 2 [1] [1; 2; 3]]
  /\ [9; 3] !! Z.to_nat (2 - 1) = Some 3
  /\ [9; 3] !! Z.to_nat (1 - 1) = Some 9.
Proof. repeat split. Qed.


(** C3 on the slab: its first cell lies on left, front and bottom only. *)
Lemma C3_witness :
  RegionClassifier.absRegion (map center (clipped_cells BoxKernel.pyvista slab)) !! 0%nat
  = Some 14.
Proof.
  destruct (C3_region_codes (map center (clipped_cells BoxKernel.pyvista slab)) 0
              (mkPoint (1 # 2) (1 # 2) (1 # 2)) eq_refl)
    as (H & _ & _ & Hpure & _).
  rewrite H. apply (f_equal Some). apply Hpure; reflexivity.
Defined.

(** The claim as stated fails on the single cell of a unit cube: its centre
    is on left, front and bottom (and on right and back), and its code is 17. *)
Lemma C3_counterexample :
  let centers := [mkPoint (1 # 2) (1 # 2) (1 # 2)] in
  let b := bounds centers in
  RegionClassifier.is_near (1 # 2) (xmin b)
  && RegionClassifier.is_near (1 # 2) (ymin b)
  && RegionClassifier.is_near (1 # 2) (zmin b) = true
  /\ RegionClassifier.absRegion centers = [17].
Proof. split; reflexivity. Qed.




(** C7 on the slab: the PML call ends normally and its value is None. *)
Lemma C7_witness :
  value (PyBool true) (snd (run pml (model (Some slab)))) = PyNone.
Proof.
  apply (C7_returns_None BoxKernel.pyvista BoxKernel.pykdtree pml (model (Some slab))
           (fst (run pml (model (Some slab))))).
  run_example.
Defined.

(** C8 on the slab: metis, Cylindrical and ASDA are refused as not
    implemented, an unknown geometry as a value error. *)
Lemma C8_witness :
  let s := model (Some slab) in
  run (call 1 0 "metis" "Rectangular" "PML") s = (s, inl (NotImplementedError Metis))
  /\ run (call 1 0 "kd-tree" "Cylindrical" "PML") s
     = (s, inl (NotImplementedError Cylindrical))
  /\ run (call 1 0 "kd-tree" "Rectangular" "ASDA") s
     = (s, inl (NotImplementedError ASDA))
  /\ exists site, run (call 1 0 "kd-tree" "Spherical" "PML") s
                  = (s, inl (ValueError site)).
Proof.
  intros s. split; [| split; [| split]].
  - pose proof (C8_error_kinds BoxKernel.pyvista BoxKernel.pykdtree
                  (call 1 0 "metis" "Rectangular" "PML") s) as H.
    cbv zeta in H. destruct H as (H & _).
    destruct (H slab eq_refl) as (Hmetis & _); [cbn; lia | cbn; lia |].
    apply Hmetis; reflexivity.
  - pose proof (C8_error_kinds BoxKernel.pyvista BoxKernel.pykdtree
                  (call 1 0 "kd-tree" "Cylindrical" "PML") s) as H.
    cbv zeta in H. destruct H as (H & _).
    destruct (H slab eq_refl) as (_ & Hcyl & _); [cbn; lia | cbn; lia |].
    apply Hcyl; reflexivity.
  - pose proof (C8_error_kinds BoxKernel.pyvista BoxKernel.pykdtree
                  (call 1 0 "kd-tree" "Rectangular" "ASDA") s) as H.
    cbv zeta in H. destruct H as (H & _).
    destruct (H slab eq_refl) as (_ & _ & Hasda & _); [cbn; lia | cbn; lia |].
    apply Hasda; reflexivity.
  - pose proof (C8_error_kinds BoxKernel.pyvista BoxKernel.pykdtree
                  (call 1 0 "kd-tree" "Spherical" "PML") s) as H.
    cbv zeta in H. destruct H as (_ & _ & Hgeo & _).
    apply Hgeo; reflexivity.
Defined.

(** The claim as stated fails on two calls on the slab.  With no layer,
    "metis" is not reached: the call raises the ValueError of the check of
    numLayers, not the error of an unimplemented feature.  With the
    geometry "Cylindrical" or the algorithm "metis", an unknown type string
    is never read: the call raises NotImplementedError, not a ValueError. *)
Lemma C8_counterexample :
  run (call 0 0 "metis" "Rectangular" "PML") (model (Some slab))
  = (model (Some slab), inl (ValueError BadNumLayers))
  /\ run (call 1 0 "kd-tree" "Cylindrical" "Bogus") (model (Some slab))
     = (model (Some slab), inl (NotImplementedError Cylindrical))
  /\ run (call 1 0 "metis" "Rectangular" "Bogus") (model (Some slab))
     = (model (Some slab), inl (NotImplementedError Metis)).
Proof. repeat split. Qed.

(** C9 on the slab: a call with no layer raises and the model is the one
    the call was made in. *)
Lemma C9_witness :
  exists e, run (call 0 0 "kd-tree" "Rectangular" "PML") (model (Some slab))
            = (model (Some slab), inl e).
Proof.
  apply (C9_failed_call_keeps_mesh BoxKernel.pyvista BoxKernel.pykdtree).
  right. left. cbn. lia.
Defined.


End Witnesses.

(** * Further properties of the absorbing-layer code *)

(** ** Bounds of a point set *)

Section BoundsFacts.

Lemma fold_grow_fields (ps : list Point) (b : Bounds) :
  xmin (fold_left grow ps b) = fold_left Qmin (map px ps) (xmin b)
  /\ xmax (fold_left grow ps b) = fold_left Qmax (map px ps) (xmax b)
  /\ ymin (fold_left grow ps b) = fold_left Qmin (map py ps) (ymin b)
  /\ ymax (fold_left grow ps b) = fold_left Qmax (map py ps) (ymax b)
  /\ zmin (fold_left grow ps b) = fold_left Qmin (map pz ps) (zmin b)
  /\ zmax (fold_left grow ps b) = fold_left Qmax (map pz ps) (zmax b).
Proof.
  revert b. induction ps as [| p ps IH]; intros b; cbn; [repeat split |].
  apply (IH (grow b p)).
Qed.

Lemma is_min_fold (xs : list Q) (x0 : Q) : is_min (fold_left Qmin xs x0) (x0 :: xs).
Proof.
  revert x0. induction xs as [| a xs IH]; intros x0; cbn.
  - split; [| exists x0; split; [left | reflexivity]].
    intros x Hx. apply list_elem_of_singleton in Hx. subst. apply Qle_refl.
  - destruct (IH (Qmin x0 a)) as [Hlow (w & Hw & Heq)]. split.
    + intros x Hx.
      assert (Hm : (fold_left Qmin xs (Qmin x0 a) <= Qmin x0 a)%Q) by (apply Hlow; left).
      apply elem_of_cons in Hx as [-> | Hx].
      * eapply Qle_trans; [exact Hm | apply Q.le_min_l].
      * apply elem_of_cons in Hx as [-> | Hx].
        -- eapply Qle_trans; [exact Hm | apply Q.le_min_r].
        -- apply Hlow. right. exact Hx.
    + apply elem_of_cons in Hw as [-> | Hw].
      * destruct (Q.min_spec x0 a) as [[_ Hmin] | [_ Hmin]].
        -- exists x0. split; [left |]. rewrite <- Heq. symmetry. exact Hmin.
        -- exists a. split; [right; left |]. rewrite <- Heq. symmetry. exact Hmin.
      * exists w. split; [do 2 right; exact Hw | exact Heq].
Qed.

Lemma is_max_fold (xs : list Q) (x0 : Q) : is_max (fold_left Qmax xs x0) (x0 :: xs).
Proof.
  revert x0. induction xs as [| a xs IH]; intros x0; cbn.
  - split; [| exists x0; split; [left | reflexivity]].
    intros x Hx. apply list_elem_of_singleton in Hx. subst. apply Qle_refl.
  - destruct (IH (Qmax x0 a)) as [Hup (w & Hw & Heq)]. split.
    + intros x Hx.
      assert (Hm : (Qmax x0 a <= fold_left Qmax xs (Qmax x0 a))%Q) by (apply Hup; left).
      apply elem_of_cons in Hx as [-> | Hx].
      * eapply Qle_trans; [apply Q.le_max_l | exact Hm].
      * apply elem_of_cons in Hx as [-> | Hx].
        -- eapply Qle_trans; [apply Q.le_max_r | exact Hm].
        -- apply Hup. right. exact Hx.
    + apply elem_of_cons in Hw as [-> | Hw].
      * destruct (Q.max_spec x0 a) as [[_ Hmax] | [_ Hmax]].
        -- exists a. split; [right; left |]. rewrite <- Heq. symmetry. exact Hmax.
        -- exists x0. split; [left |]. rewrite <- Heq. symmetry. exact Hmax.
      * exists w. split; [do 2 right; exact Hw | exact Heq].
Qed.

Lemma is_min_unique (v w : Q) (xs : list Q) : is_min v xs -> is_min w xs -> (v == w)%Q.
Proof.
  intros [Hv (x & Hx & Ex)] [Hw (y & Hy & Ey)].
  apply Qle_antisym.
  - rewrite <- Ey. apply Hv. exact Hy.
  - rewrite <- Ex. apply Hw. exact Hx.
Qed.

Lemma is_max_unique (v w : Q) (xs : list Q) : is_max v xs -> is_max w xs -> (v == w)%Q.
Proof.
  intros [Hv (x & Hx & Ex)] [Hw (y & Hy & Ey)].
  apply Qle_antisym.
  - rewrite <- Ex. apply Hw. exact Hx.
  - rewrite <- Ey. apply Hv. exact Hy.
Qed.

(** The six fields of [bounds] are the extreme coordinates of the points. *)
Lemma bounds_extremes (pts : list Point) :
  pts <> [] ->
  let b := bounds pts in
  is_min (xmin b) (map px pts) /\ is_max (xmax b) (map px pts)
  /\ is_min (ymin b) (map py pts) /\ is_max (ymax b) (map py pts)
  /\ is_min (zmin b) (map pz pts) /\ is_max (zmax b) (map pz pts).
Proof.
  destruct pts as [| p ps]; [congruence |]. intros _ b. unfold b, bounds.
  destruct (fold_grow_fields ps (mkBounds (px p) (px p) (py p) (py p) (pz p) (pz p)))
    as (-> & -> & -> & -> & -> & ->).
  cbn [xmin xmax ymin ymax zmin zmax map].
  repeat split; first [apply is_min_fold | apply is_max_fold].
Qed.

Lemma bounds_contain (pts : list Point) (p : Point) :
  p ∈ pts ->
  let b := bounds pts in
  (xmin b <= px p <= xmax b)%Q /\ (ymin b <= py p <= ymax b)%Q
  /\ (zmin b <= pz p <= zmax b)%Q.
Proof.
  intros Hp b.
  assert (Hne : pts <> []) by (intros ->; inversion Hp).
  destruct (bounds_extremes pts Hne)
    as ([Hx0 _] & [Hx1 _] & [Hy0 _] & [Hy1 _] & [Hz0 _] & [Hz1 _]).
  repeat split;
    first [apply Hx0 | apply Hx1 | apply Hy0 | apply Hy1 | apply Hz0 | apply Hz1];
    apply list_elem_of_fmap; exists p; (split; [reflexivity | exact Hp]).
Qed.

End BoundsFacts.

(** ** Which points are stitched *)

Section InterfacePoints.

Lemma Qltb_ge (a b : Q) : Qltb a b = false <-> (b <= a)%Q.
Proof.
  unfold Qltb. rewrite negb_false_iff. apply Qle_bool_iff.
Qed.

(** A point of the mesh is an interface point exactly when it lies within
    [eps] of the left, right, front or back face or of the bottom: the
    points of the top face away from the sides are never stitched, and the
    points are kept in the order of the mesh. *)
Theorem interface_points_on_the_faces (mesh : Mesh) (p : Point) :
  let b := bounds (points mesh) in
  (p ∈ interfacepoints mesh
   <-> p ∈ points mesh
       /\ ((px p <= xmin b + eps)%Q \/ (xmax b - eps <= px p)%Q
           \/ (py p <= ymin b + eps)%Q \/ (ymax b - eps <= py p)%Q
           \/ (pz p <= zmin b + eps)%Q))
  /\ sublist (interfacepoints mesh) (points mesh).
Proof.
  intros b. split.
  - unfold interfacepoints. rewrite list_elem_of_In, filter_In, <- list_elem_of_In.
    fold b. split.
    + intros [Hp Hout]. split; [exact Hp |].
      apply negb_true_iff in Hout. unfold inside in Hout.
      repeat (apply andb_false_iff in Hout as [Hout | Hout]);
        apply Qltb_ge in Hout; auto 10.
      destruct (bounds_contain _ _ Hp) as (_ & _ & _ & Hz). fold b in Hz.
      exfalso. lra.
    + intros [Hp Hface]. split; [exact Hp |].
      apply negb_true_iff. unfold inside.
      repeat rewrite andb_false_iff.
      destruct Hface as [H | [H | [H | [H | H]]]]; apply Qltb_ge in H; auto 10.
  - unfold interfacepoints. clear b. generalize (bounds (points mesh)). intros b0.
    induction (points mesh) as [| q qs IH]; cbn.
    + constructor.
    + destruct (negb _); [apply sublist_skip | apply sublist_cons]; exact IH.
Qed.

End InterfacePoints.

(** ** The direction and the extent of an extruded block *)

Section ExtrusionFacts.
Context {Grid : Type} (pv : Pyvista Grid).

Import RegionClassifier.

(** The table of normals agrees with the table of region codes: the cell is
    extruded away from each face its centre lies on (to the right when it
    lies on both left and right, to the back when on both front and back),
    never upwards; a cell on no face has code 0, and [normals[-1]] sends it
    along (1, 1, -1). *)
Theorem extrusion_direction (centers : list Point) (i : nat) (c : Point) :
  centers !! i = Some c ->
  let b := bounds centers in
  let l := is_near (px c) (xmin b) in
  let r := is_near (px c) (xmax b) in
  let fr := is_near (py c) (ymin b) in
  let bk := is_near (py c) (ymax b) in
  let bt := is_near (pz c) (zmin b) in
  exists code,
    absRegion centers !! i = Some code
    /\ py_getitem normals (code - 1)
       = Some (if l || r || fr || bk || bt then outward l r fr bk bt else (1, 1, -1)).
Proof.
  intros Hc b l r fr bk bt.
  exists (region_code l r fr bk bt). split.
  - rewrite (absRegion_lookup centers i c Hc). reflexivity.
  - destruct l, r, fr, bk, bt; reflexivity.
Qed.

Lemma py_getitem_elem {A} (l : list A) (i : Z) (x : A) :
  py_getitem l i = Some x -> x ∈ l.
Proof.
  unfold py_getitem.
  destruct ((0 <=? i) && (i <? Z.of_nat (length l)));
    [intros H; eapply list_elem_of_lookup_2; exact H |].
  destruct ((- Z.of_nat (length l) <=? i) && (i <? 0));
    [intros H; eapply list_elem_of_lookup_2; exact H | discriminate].
Qed.

Lemma normals_components (nx ny nz : Z) :
  (nx, ny, nz) ∈ normals -> -1 <= nx <= 1 /\ -1 <= ny <= 1 /\ -1 <= nz <= 0.
Proof.
  unfold normals. rewrite !elem_of_cons, elem_of_nil.
  intros H. repeat (destruct H as [H | H]; [inversion H; lia |]). contradiction.
Qed.

Lemma is_min_shift (v d : Q) (X : list Q) :
  is_min v X -> is_min (v + Qmin 0 d) (map (fun x => x + d)%Q X ++ X).
Proof.
  intros [Hlow (x & Hx & Ex)].
  pose proof (Q.le_min_l 0 d) as H0. pose proof (Q.le_min_r 0 d) as Hd. split.
  - intros y Hy. apply elem_of_app in Hy as [Hy | Hy].
    + apply list_elem_of_fmap in Hy as (x' & -> & Hx'). specialize (Hlow x' Hx'). lra.
    + specialize (Hlow y Hy). lra.
  - destruct (Q.min_spec 0 d) as [[_ Hmin] | [_ Hmin]].
    + exists x. split; [apply elem_of_app; right; exact Hx | lra].
    + exists (x + d)%Q. split; [| lra].
      apply elem_of_app. left. apply list_elem_of_fmap. exists x. split; [reflexivity | exact Hx].
Qed.

Lemma is_max_shift (v d : Q) (X : list Q) :
  is_max v X -> is_max (v + Qmax 0 d) (map (fun x => x + d)%Q X ++ X).
Proof.
  intros [Hup (x & Hx & Ex)].
  pose proof (Q.le_max_l 0 d) as H0. pose proof (Q.le_max_r 0 d) as Hd. split.
  - intros y Hy. apply elem_of_app in Hy as [Hy | Hy].
    + apply list_elem_of_fmap in Hy as (x' & -> & Hx'). specialize (Hup x' Hx'). lra.
    + specialize (Hup y Hy). lra.
  - destruct (Q.max_spec 0 d) as [[_ Hmax] | [_ Hmax]].
    + exists (x + d)%Q. split; [| lra].
      apply elem_of_app. left. apply list_elem_of_fmap. exists x. split; [reflexivity | exact Hx].
    + exists x. split; [apply elem_of_app; right; exact Hx | lra].
Qed.

Lemma shifted_coordinates (n : Z * Z * Z) (numLayers : Z) (dx dy dz : Q)
    (pts : list Point) :
  let coords := map (shift n numLayers dx dy dz) pts ++ pts in
  map px coords = map (fun x => x + reach n.1.1 numLayers dx)%Q (map px pts) ++ map px pts
  /\ map py coords = map (fun y => y + reach n.1.2 numLayers dy)%Q (map py pts) ++ map py pts
  /\ map pz coords = map (fun z => z + reach n.2 numLayers dz)%Q (map pz pts) ++ map pz pts.
Proof.
  intros coords. unfold coords. destruct n as [[nx ny] nz]. cbn [fst snd].
  rewrite !map_app, !map_map. repeat split; reflexivity.
Qed.

Lemma reach_not_up (nz numLayers : Z) (dz : Q) :
  -1 <= nz <= 0 -> 0 <= numLayers -> (0 <= dz)%Q ->
  (Qmax 0 (reach nz numLayers dz) == 0)%Q.
Proof.
  intros Hnz HnL Hdz. apply Q.max_l. unfold reach.
  assert (HL : (0 <= inject_Z numLayers)%Q) by (change 0%Q with (inject_Z 0); rewrite <- Zle_Qle; exact HnL).
  pose proof (Qmult_le_0_compat _ _ HL Hdz) as Hprod.
  assert (nz = -1 \/ nz = 0) as [-> | ->] by lia.
  - change (inject_Z (-1)) with (-1 # 1)%Q. lra.
  - change (inject_Z 0) with 0%Q. lra.
Qed.

(** The block extruded from a boundary cell spans the cell and, along each
    axis, [numLayers] cell sizes beyond it on the side the normal points
    to; the grid is sampled with the cell's own sizes; and the top of the
    block is the top of the cell: the layer never rises above the mesh. *)
Theorem extruded_block (numLayers : Z) (cell : ClippedCell) (code : Z)
    (nx ny nz : Z) :
  py_getitem normals (code - 1) = Some (nx, ny, nz) ->
  cell_points cell <> [] ->
  let b := bounds (cell_points cell) in
  let dx := Qabs (xmax b - xmin b) in
  let dy := Qabs (ymax b - ymin b) in
  let dz := Qabs (zmax b - zmin b) in
  exists c : Bounds,
    extrude_cell pv numLayers cell code
    = inr (StructuredGrid pv (xmin c, (xmax c + eps)%Q, dx)
                             (ymin c, (ymax c + eps)%Q, dy)
                             (zmin c, (zmax c + eps)%Q, dz), dx)
    /\ (dx == xmax b - xmin b /\ dy == ymax b - ymin b /\ dz == zmax b - zmin b)%Q
    /\ (xmin c == xmin b + Qmin 0 (reach nx numLayers dx))%Q
    /\ (xmax c == xmax b + Qmax 0 (reach nx numLayers dx))%Q
    /\ (ymin c == ymin b + Qmin 0 (reach ny numLayers dy))%Q
    /\ (ymax c == ymax b + Qmax 0 (reach ny numLayers dy))%Q
    /\ (zmin c == zmin b + Qmin 0 (reach nz numLayers dz))%Q
    /\ (0 <= numLayers -> (zmax c == zmax b)%Q).
Proof.
  intros Hn Hne b dx dy dz.
  set (coords := map (shift (nx, ny, nz) numLayers dx dy dz) (cell_points cell)
                 ++ cell_points cell).
  exists (bounds coords). split.
  { unfold extrude_cell. rewrite Hn. reflexivity. }
  destruct (bounds_extremes (cell_points cell) Hne)
    as (Hx0 & Hx1 & Hy0 & Hy1 & Hz0 & Hz1).
  fold b in Hx0, Hx1, Hy0, Hy1, Hz0, Hz1.
  assert (Hsize : (xmin b <= xmax b /\ ymin b <= ymax b /\ zmin b <= zmax b)%Q).
  { destruct (cell_points cell) as [| p ps] eqn:E; [congruence |].
    destruct (bounds_contain (p :: ps) p) as (Hx & Hy & Hz); [left |].
    fold b in Hx, Hy, Hz. repeat split; lra. }
  destruct Hsize as (Sx & Sy & Sz).
  assert (Hdx : (dx == xmax b - xmin b)%Q) by (unfold dx; apply Qabs_pos; lra).
  assert (Hdy : (dy == ymax b - ymin b)%Q) by (unfold dy; apply Qabs_pos; lra).
  assert (Hdz : (dz == zmax b - zmin b)%Q) by (unfold dz; apply Qabs_pos; lra).
  split; [repeat split; assumption |].
  assert (Hc : coords <> []).
  { unfold coords. destruct (cell_points cell); [congruence | discriminate]. }
  destruct (bounds_extremes coords Hc) as (Cx0 & Cx1 & Cy0 & Cy1 & Cz0 & Cz1).
  destruct (shifted_coordinates (nx, ny, nz) numLayers dx dy dz (cell_points cell))
    as (Ex & Ey & Ez).
  fold coords in Ex, Ey, Ez. cbn [fst snd] in Ex, Ey, Ez.
  rewrite Ex in Cx0, Cx1. rewrite Ey in Cy0, Cy1. rewrite Ez in Cz0, Cz1.
  assert (Hz1' : (zmax (bounds coords) == zmax b + Qmax 0 (reach nz numLayers dz))%Q).
  { eapply is_max_unique; [exact Cz1 | apply is_max_shift; exact Hz1]. }
  repeat split.
  - eapply is_min_unique; [exact Cx0 | apply is_min_shift; exact Hx0].
  - eapply is_max_unique; [exact Cx1 | apply is_max_shift; exact Hx1].
  - eapply is_min_unique; [exact Cy0 | apply is_min_shift; exact Hy0].
  - eapply is_max_unique; [exact Cy1 | apply is_max_shift; exact Hy1].
  - eapply is_min_unique; [exact Cz0 | apply is_min_shift; exact Hz0].
  - intros HnL. rewrite Hz1'.
    apply py_getitem_elem, normals_components in Hn as (_ & _ & Hnz).
    rewrite (reach_not_up nz numLayers dz Hnz HnL); [lra |].
    unfold dz. apply Qabs_nonneg.
Qed.

End ExtrusionFacts.

(** ** What a call leaves behind *)

Section ShellTotality.
Context {Grid : Type} (pv : Pyvista Grid).

Import RegionClassifier.





Lemma index_assign_error {A} (arr : list A) (ids : list nat) (v : A) (e : Exception) :
  index_assign arr ids v = inl e ->
  e = IndexError /\ Exists (fun i => (length arr <= i)%nat) ids.
Proof.
  unfold index_assign. destruct (forallb _ ids) eqn:E; [discriminate |].
  intros H. injection H as <-. split; [reflexivity |].
  apply Exists_exists.
  assert (Hn : ~ Forall (fun i => (i < length arr)%nat) ids).
  { intros HF. rewrite Forall_forall in HF.
    assert (forallb (fun i => Nat.ltb i (length arr)) ids = true); [| congruence].
    apply forallb_forall. intros i Hi. apply Nat.ltb_lt, HF, list_elem_of_In, Hi. }
  apply not_Forall_Exists in Hn; [| intros i; apply _].
  apply Exists_exists in Hn as (i & Hi & Hlt). unfold compose in Hlt.
  exists i. split; [exact Hi | lia].
Qed.





End ShellTotality.

Section CallOutcomes.
Context {Grid : Type} (pv : Pyvista Grid) (kd : Pykdtree).

Lemma create_PML_elements_registry nl ndof dx b tags :
  forall P s s' r,
  create_PML_elements nl ndof dx b tags P s = (s', r) -> registry_only s s'.
Proof.
  induction tags as [| t rest IH]; intros P s s' r H; cbn in H.
  - unfold ret in H. inversion H; subst. apply registry_only_refl.
  - unfold bind, get_element, get in H. cbn in H.
    destruct (elements (element s) !! t) as [old |];
      [| unfold raise in H; inversion H; subst; apply registry_only_refl].
    unfold ret in H.
    match type of H with (if ?c then _ else _) _ = _ => destruct c end;
      [unfold raise in H; inversion H; subst; apply registry_only_refl |].
    match type of H with (if ?c then _ else _) _ = _ => destruct c end;
      [unfold raise in H; inversion H; subst; apply registry_only_refl |].
    destruct dx as [dx' |];
      [| unfold raise in H; inversion H; subst; apply registry_only_refl].
    unfold create_element, bind, get, modify, ret in H. cbn in H.
    apply IH in H.
    eapply registry_only_trans; [| exact H].
    unfold registry_only. destruct s; reflexivity.
Qed.

Lemma retag_registry (numLayers ndof : Z) (dx : option Q) (mesh : Mesh)
    (sh : Shell Grid) (s s' : MeshMaker) r :
  retag numLayers ndof dx mesh sh s = (s', r) -> registry_only s s'.
Proof.
  rewrite retag_run.
  destruct (create_PML_elements _ _ _ _ _ _ s) as [s1 [e | P]] eqn:Hloop;
    apply create_PML_elements_registry in Hloop.
  - intros H. inversion H; subst. exact Hloop.
  - destruct (update_element_tags _ _ _); intros H; inversion H; subst; exact Hloop.
Qed.

Lemma damp_never_raises (a : Args) (ty : string) (sh : Shell Grid) (s : MeshMaker) :
  exists s' sh', damp pv a ty sh s = (s', inr sh').
Proof.
  unfold damp, bind.
  destruct (String.eqb ty "Rayleigh"), (String.eqb ty "PML"), (negb (matchDamping a));
    try rewrite !new_region_run; unfold ret; eauto.
Qed.

Lemma bind_any {A B} (c : M A) (k : A -> M B) s s' (r : Exception + B) :
  bind c k s = (s', r) ->
  (exists e, c s = (s', inl e) /\ r = inl e)
  \/ exists a s1, c s = (s1, inr a) /\ k a s1 = (s', r).
Proof.
  unfold bind. destruct (c s) as [s1 [e | a]].
  - intros H. inversion H; subst. left. eauto.
  - intros H. right. eauto.
Qed.

(** Up to the merge, a call touches neither the assembled mesh nor the
    constraints, whatever its outcome. *)
Lemma construct_shell_frame (a : Args) (mesh : Mesh) (ty : string) (ndof : Z)
    (flag : bool) (np : Z) (s s' : MeshMaker) r :
  construct_shell pv a mesh ty ndof flag np s = (s', r) ->
  AssembeledMesh s' = AssembeledMesh s /\ constraint_mp s' = constraint_mp s.
Proof.
  unfold construct_shell. intros H.
  apply bind_any in H as [(e & H & _) | ([sh0 dx] & s0 & Hb & H)].
  { unfold lift in H. inversion H; subst. auto. }
  unfold lift in Hb. inversion Hb; subst s0. clear Hb. cbv beta iota in H.
  assert (Hretag : forall s1 r1,
             (if String.eqb ty "PML" then retag (numLayers a) ndof dx mesh sh0
              else ret sh0) s = (s1, r1) ->
             AssembeledMesh s1 = AssembeledMesh s /\ constraint_mp s1 = constraint_mp s).
  { intros s1 r1 H1. destruct (String.eqb ty "PML").
    - apply retag_registry, registry_only_fields in H1 as (? & _ & _ & ?). auto.
    - unfold ret in H1. inversion H1; subst. auto. }
  apply bind_any in H as [(e & H & _) | (sh1 & s1 & Hr & H)].
  { apply Hretag in H. exact H. }
  apply Hretag in Hr as [Hm1 Hc1].
  apply bind_any in H as [(e & H & _) | (sh2 & s2 & Hp & H)].
  { unfold lift in H. inversion H; subst. auto. }
  unfold lift in Hp. inversion Hp; subst s2. clear Hp.
  apply bind_any in H as [(e & H & _) | (sh3 & s3 & Hd & H)].
  { destruct (damp_never_raises a ty sh2 s1) as (s2' & sh3' & Hd). congruence. }
  apply damp_inr in Hd as (_ & Hm2 & _ & Hc2 & _).
  destruct (String.eqb ty "ASDA"); unfold raise, ret in H; inversion H; subst;
    split; congruence.
Qed.

Lemma prepare_shell_frame (a : Args) (s s' : MeshMaker) r :
  prepare_shell pv a s = (s', r) ->
  AssembeledMesh s' = AssembeledMesh s /\ constraint_mp s' = constraint_mp s.
Proof.
  unfold prepare_shell. intros H.
  apply bind_any in H as [(e & H & _) | (self & s0 & Hg & H)]; [discriminate |].
  unfold get in Hg. inversion Hg; subst s0 self. clear Hg.
  destruct (AssembeledMesh s) as [mesh |] eqn:Hmesh;
    [| unfold raise in H; inversion H; subst; auto].
  destruct (numLayers a <? 1); [unfold raise in H; inversion H; subst; auto |].
  destruct (numPartitions a <? 0); [unfold raise in H; inversion H; subst; auto |].
  destruct (negb (py_in (partitionAlgo a) _));
    [unfold raise in H; inversion H; subst; auto |].
  destruct (String.eqb (partitionAlgo a) "metis");
    [unfold raise in H; inversion H; subst; auto |].
  apply bind_any in H as [(e & H & _) | ([[ty ndof] flag] & s0 & Hl & H)].
  { unfold lift in H. inversion H; subst. auto. }
  unfold lift in Hl. inversion Hl; subst s0. clear Hl. cbv beta iota in H.
  apply bind_any in H as [(e & H & _) | (np & s0 & Hn & H)].
  { unfold lift in H. inversion H; subst. auto. }
  unfold lift in Hn. inversion Hn; subst s0. clear Hn.
  destruct ((numPartitions a =? 0) && (0 <? np));
    [unfold raise in H; inversion H; subst; auto |].
  apply construct_shell_frame in H as [Hm Hc]. split; congruence.
Qed.

Lemma create_equal_dofs_frame (ndfs : list Z) (indices : list (nat * nat)) :
  forall s s' r,
  create_equal_dofs ndfs indices s = (s', r) ->
  s' = set_constraint_mp (constraint_mp s') s.
Proof.
  induction indices as [| index rest IH]; intros s s' r H; cbn [create_equal_dofs] in H.
  - unfold ret in H. inversion H; subst. symmetry. apply set_constraint_mp_same.
  - apply bind_any in H as [(e & H & _) | (nodes & s0 & Hn & H)].
    { unfold lift in H. inversion H; subst. symmetry. apply set_constraint_mp_same. }
    unfold lift in Hn. inversion Hn; subst s0. clear Hn.
    apply bind_any in H as [(e & H & _) | (u & s1 & Hc & H)];
      rewrite create_equal_dof_run in *; [discriminate |].
    inversion Hc; subst s1. clear Hc.
    apply IH in H. rewrite H. rewrite set_constraint_mp_twice.
    destruct s; reflexivity.
Qed.

Lemma stitch_frame (mesh merged : Mesh) (s s' : MeshMaker) r :
  stitch kd mesh merged s = (s', r) -> AssembeledMesh s' = AssembeledMesh s.
Proof.
  unfold stitch. intros H.
  apply bind_any in H as [(e & H & _) | (dmax & s0 & Hd & H)].
  { unfold lift in H. inversion H; subst. reflexivity. }
  unfold lift in Hd. inversion Hd; subst s0. clear Hd.
  destruct (Qltb eps dmax); [unfold raise in H; inversion H; subst; auto |].
  apply create_equal_dofs_frame in H. rewrite H. reflexivity.
Qed.

Lemma stitch_error (mesh merged : Mesh) (s s' : MeshMaker) (e : Exception) :
  stitch kd mesh merged s = (s', inl e) ->
  e = ValueError ZeroSizeReduction \/ e = ValueError PointsNotMatching
  \/ e = IndexError \/ e = ValueError BadNdfCombination.
Proof.
  unfold stitch. intros H.
  apply bind_any in H as [(e' & H & He) | (dmax & s0 & Hd & H)].
  { unfold lift in H. inversion H as [[Hs E]]. inversion He; subst e'. left.
    unfold array_maxQ in E. destruct (map Qabs _); [| discriminate]. congruence. }
  unfold lift in Hd. inversion Hd; subst s0. clear Hd.
  destruct (Qltb eps dmax); [unfold raise in H; inversion H; auto |].
  apply create_equal_dofs_error in H as [-> | ->]; auto.
Qed.

(** A failed call never leaves a half-built mesh: the assembled mesh is
    either the one of the call, or (only when the stitching of a PML layer
    raised) the whole merge of the mesh with the finished shell. *)
Theorem failed_call_mesh (a : Args) (s s' : MeshMaker) (e : Exception) :
  addAbsorbingLayer pv kd a s = (s', inl e) ->
  AssembeledMesh s' = AssembeledMesh s
  \/ exists flag mesh' (sh : Shell Grid) s1,
       prepare_shell pv a s = (s1, inr ("PML"%string, flag, mesh', sh))
       /\ AssembeledMesh s'
          = Some (set_active_scalars "AbsorbingRegion" (merge pv mesh' sh flag))
       /\ (e = ValueError ZeroSizeReduction \/ e = ValueError PointsNotMatching
           \/ e = IndexError \/ e = ValueError BadNdfCombination).
Proof.
  rewrite addAbsorbingLayer_checks.
  destruct (AssembeledMesh s) as [mesh |] eqn:Hmesh;
    [| intros H; inversion H; subst; auto].
  destruct (numLayers a <? 1); [intros H; inversion H; subst; auto |].
  destruct (numPartitions a <? 0); [intros H; inversion H; subst; auto |].
  destruct (negb (py_in (geometry a) _)); [intros H; inversion H; subst; auto |].
  destruct (negb (py_in (partitionAlgo a) _)); [intros H; inversion H; subst; auto |].
  destruct (String.eqb (partitionAlgo a) "metis"); [intros H; inversion H; subst; auto |].
  destruct (String.eqb (geometry a) "Rectangular").
  2: { destruct (String.eqb (geometry a) "Cylindrical"); intros H; inversion H; subst; auto. }
  destruct (layer_type a) as [e' | lt]; [intros H; inversion H; subst; auto |].
  destruct (array_max (cd_Core mesh)) as [e' | np]; [intros H; inversion H; subst; auto |].
  destruct ((numPartitions a =? 0) && (0 <? np)); [intros H; inversion H; subst; auto |].
  unfold _addRectangularAbsorbingLayer. intros H.
  apply bind_inl in H as [H | ([[[ty flag] mesh'] sh] & s1 & Hprep & H)].
  { left. apply prepare_shell_frame in H as [Hm _]. congruence. }
  apply bind_inl in H as [H | (u & s2 & Hmod & H)]; [discriminate |].
  unfold modify in Hmod. inversion Hmod; subst s2 u. clear Hmod.
  apply bind_inl in H as [H | (u & s3 & _ & H)]; [| discriminate].
  destruct (String.eqb ty "PML") eqn:Hty; [| discriminate].
  apply String.eqb_eq in Hty. subst ty.
  right. exists flag, mesh', sh, s1. split; [exact Hprep |]. split.
  - apply stitch_frame in H. rewrite H. reflexivity.
  - eapply stitch_error. exact H.
Qed.

End CallOutcomes.

Section RayleighCall.
Context {Grid : Type} (pv : Pyvista Grid) (kd : Pykdtree).



End RayleighCall.

(** ** Partitioning the shell *)

Section PartitionFacts.
Context {Grid : Type} (pv : Pyvista Grid).

Lemma fold_insert_lookup {A} (v : A) (ids : list nat) :
  forall arr,
  Forall (fun i => (i < length arr)%nat) ids ->
  length (fold_left (fun a i => <[i := v]> a) ids arr) = length arr
  /\ forall j, fold_left (fun a i => <[i := v]> a) ids arr !! j
               = if decide (j ∈ ids) then Some v else arr !! j.
Proof.
  induction ids as [| i ids IH]; intros arr H; cbn [fold_left].
  - split; [reflexivity |]. intros j. destruct (decide (j ∈ [])) as [Hin |]; [| reflexivity].
    inversion Hin.
  - inversion H as [| ? ? Hi Hrest]; subst.
    destruct (IH (<[i := v]> arr)) as [Hlen Hlook].
    { rewrite length_insert. exact Hrest. }
    split; [rewrite Hlen; apply length_insert |].
    intros j. rewrite Hlook.
    destruct (decide (j ∈ ids)) as [Hin | Hout].
    + rewrite decide_True by (right; exact Hin). reflexivity.
    + destruct (decide (j = i)) as [-> | Hne].
      * rewrite decide_True by left. apply list_lookup_insert_eq. exact Hi.
      * rewrite decide_False by (rewrite elem_of_cons; tauto).
        apply list_lookup_insert_ne. congruence.
Qed.

Lemma index_assign_lookup {A} (arr arr' : list A) (ids : list nat) (v : A) :
  index_assign arr ids v = inr arr' ->
  length arr' = length arr
  /\ forall j, arr' !! j = if decide (j ∈ ids) then Some v else arr !! j.
Proof.
  unfold index_assign. destruct (forallb _ ids) eqn:E; [| discriminate].
  intros H. injection H as <-. apply fold_insert_lookup.
  apply Forall_forall. intros i Hi.
  rewrite forallb_forall in E. apply Nat.ltb_lt, E, list_elem_of_In, Hi.
Qed.

(** [Core[ids] = i + num_partitions + 1] for the parts in turn: a cell
    takes the number of the last part that lists it. *)
Lemma assign_partitions_inr (parts : list (list nat)) :
  forall (i np : Z) (core core' : list Z),
  assign_partitions parts i np core = inr core' ->
  length core' = length core
  /\ (forall j, (forall ids, ids ∈ parts -> j ∉ ids) -> core' !! j = core !! j)
  /\ (forall j k ids,
        parts !! k = Some ids -> j ∈ ids ->
        (forall k' ids', (k < k')%nat -> parts !! k' = Some ids' -> j ∉ ids') ->
        core' !! j = Some (i + Z.of_nat k + np + 1)).
Proof.
  induction parts as [| ids0 rest IH]; intros i np core core' H; cbn [assign_partitions] in H.
  - injection H as <-. split; [reflexivity |]. split; [reflexivity |].
    intros j k ids Hk. rewrite lookup_nil in Hk. discriminate.
  - destruct (index_assign core ids0 (i + np + 1)) as [e | core1] eqn:E; [discriminate |].
    apply index_assign_lookup in E as [Hlen1 Hlook1].
    apply IH in H as (Hlen & Hkeep & Hset).
    split; [congruence |]. split.
    + intros j Hout. rewrite Hkeep by (intros ids Hids; apply Hout; right; exact Hids).
      rewrite Hlook1. rewrite decide_False; [reflexivity |]. apply Hout. left.
    + intros j k ids Hk Hin Hlast. destruct k as [| k].
      * cbn in Hk. injection Hk as ->.
        rewrite Hkeep.
        -- rewrite Hlook1, decide_True by exact Hin. f_equal. lia.
        -- intros ids' Hids'. apply list_elem_of_lookup in Hids' as [k' Hk'].
           apply (Hlast (S k') ids'); [lia | exact Hk'].
      * cbn in Hk. rewrite (Hset j k ids Hk Hin).
        -- f_equal. lia.
        -- intros k' ids' Hlt Hk'. apply (Hlast (S k') ids'); [lia | exact Hk'].
Qed.

Lemma assign_partitions_values (parts : list (list nat)) :
  forall (i np : Z) (core core' : list Z) (j : nat) (c : Z),
  assign_partitions parts i np core = inr core' ->
  core' !! j = Some c ->
  core !! j = Some c \/ i + np < c <= i + np + Z.of_nat (length parts).
Proof.
  induction parts as [| ids0 rest IH]; intros i np core core' j c H Hc;
    cbn [assign_partitions] in H.
  - injection H as <-. left. exact Hc.
  - destruct (index_assign core ids0 (i + np + 1)) as [e | core1] eqn:E; [discriminate |].
    apply index_assign_lookup in E as [_ Hlook1].
    destruct (IH _ _ _ _ j c H Hc) as [H1 | Hrange].
    + rewrite Hlook1 in H1. destruct (decide (j ∈ ids0)).
      * injection H1 as <-. right. cbn [length]. lia.
      * left. exact H1.
    + right. cbn [length]. lia.
Qed.

Lemma assign_partitions_error (parts : list (list nat)) :
  forall (i np : Z) (core : list Z) (e : Exception),
  assign_partitions parts i np core = inl e ->
  e = IndexError
  /\ exists ids id, ids ∈ parts /\ id ∈ ids /\ (length core <= id)%nat.
Proof.
  induction parts as [| ids0 rest IH]; intros i np core e H; cbn [assign_partitions] in H.
  - discriminate.
  - destruct (index_assign core ids0 (i + np + 1)) as [e' | core1] eqn:E.
    + injection H as <-. apply index_assign_error in E as [-> Hbad].
      split; [reflexivity |]. apply Exists_exists in Hbad as (id & Hid & Hlen).
      exists ids0, id. split; [left | auto].
    + apply index_assign_lookup in E as [Hlen1 _].
      apply IH in H as (-> & ids & id & Hids & Hid & Hlen).
      split; [reflexivity |]. exists ids, id. rewrite <- Hlen1.
      split; [right; exact Hids | auto].
Qed.

(** With more than one partition asked for, every shell cell takes the
    number of the last part listing it, counted on from the highest core
    of the interior mesh, and keeps its core when no part lists it: the
    cores given out lie strictly above those of the interior.  The only
    failure is an index error, on a cell id beyond the cells of the
    shell. *)
Theorem partitioned_shell_cores (numPartitions np : Z) (sh : Shell Grid) :
  1 < numPartitions ->
  let parts := partition pv (grid sh) numPartitions in
  (forall sh',
     partition_shell pv numPartitions np sh = inr sh' ->
     sh' = with_Core sh (Core sh')
     /\ length (Core sh') = length (Core sh)
     /\ (forall j k ids,
           parts !! k = Some ids -> j ∈ ids ->
           (forall k' ids', (k < k')%nat -> parts !! k' = Some ids' -> j ∉ ids') ->
           Core sh' !! j = Some (Z.of_nat k + np + 1))
     /\ (forall j, (forall ids, ids ∈ parts -> j ∉ ids) -> Core sh' !! j = Core sh !! j)
     /\ (forall j c, Core sh' !! j = Some c ->
           Core sh !! j = Some c \/ np < c <= np + Z.of_nat (length parts)))
  /\ (forall e,
        partition_shell pv numPartitions np sh = inl e ->
        e = IndexError
        /\ exists ids id, ids ∈ parts /\ id ∈ ids /\ (length (Core sh) <= id)%nat).
Proof.
  intros Hn parts. unfold partition_shell.
  apply Z.ltb_lt in Hn. rewrite Hn. fold parts.
  destruct (assign_partitions parts 0 np (Core sh)) as [e | core] eqn:E; split.
  - discriminate.
  - intros e' H. injection H as <-. eapply assign_partitions_error. exact E.
  - intros sh' H. injection H as <-. cbn [Core with_Core].
    destruct (assign_partitions_inr parts 0 np (Core sh) core E) as (Hlen & Hkeep & Hset).
    split; [reflexivity |]. split; [exact Hlen |]. split.
    + intros j k ids Hk Hin Hlast. rewrite (Hset j k ids Hk Hin Hlast). f_equal; lia.
    + split; [exact Hkeep |].
      intros j c Hc.
      destruct (assign_partitions_values parts 0 np (Core sh) core j c E Hc); [auto |].
      right. lia.
  - discriminate.
Qed.

End PartitionFacts.

(** ** The further properties on the scenarios *)

Section FurtherWitnesses.
Import Example Scenarios.

Ltac run_example := vm_compute; reflexivity.


(** The corner cell of the slab is classified 14 and sent along
    (-1, -1, -1). *)
Lemma extrusion_direction_witness :
  exists code,
    RegionClassifier.absRegion (map center (clipped_cells BoxKernel.pyvista slab)) !! 0%nat
    = Some code
    /\ py_getitem normals (code - 1) = Some (-1, -1, -1).
Proof.
  destruct (extrusion_direction (map center (clipped_cells BoxKernel.pyvista slab)) 0
              (mkPoint (1 # 2) (1 # 2) (1 # 2)) eq_refl) as (code & Hcode & Hn).
  exists code. split; [exact Hcode |]. rewrite Hn. reflexivity.
Defined.

(** One layer on the corner cell: the block reaches from -1 to 1 along x
    and its top stays at 1. *)
Lemma extruded_block_witness :
  exists c : Bounds,
    (exists g dx, extrude_cell BoxKernel.pyvista 1 corner_cell 14 = inr (g, dx))
    /\ (xmin c == -1 /\ xmax c == 1 /\ zmin c == -1 /\ zmax c == 1)%Q.
Proof.
  destruct (extruded_block BoxKernel.pyvista 1 corner_cell 14 (-1) (-1) (-1))
    as (c & Hrun & _ & Hx0 & Hx1 & _ & _ & Hz0 & Hz1).
  - reflexivity.
  - vm_compute. discriminate.
  - exists c. split; [rewrite Hrun; eauto |].
    rewrite Hx0, Hx1, Hz0, Hz1 by lia. vm_compute. repeat split; reflexivity.
Defined.

(** The PML call on the unit cube raises in the stitching, and the merged
    mesh has replaced the cube. *)
Lemma failed_call_mesh_witness :
  AssembeledMesh (fst (run pml (model (Some cube)))) = AssembeledMesh (model (Some cube))
  \/ exists flag mesh' sh s1,
       prepare_shell BoxKernel.pyvista pml (model (Some cube))
       = (s1, inr ("PML"%string, flag, mesh', sh))
       /\ AssembeledMesh (fst (run pml (model (Some cube))))
          = Some (set_active_scalars "AbsorbingRegion"
                    (merge BoxKernel.pyvista mesh' sh flag))
       /\ (ValueError PointsNotMatching = ValueError ZeroSizeReduction
           \/ ValueError PointsNotMatching = ValueError PointsNotMatching
           \/ ValueError PointsNotMatching = IndexError
           \/ ValueError PointsNotMatching = ValueError BadNdfCombination).
Proof.
  apply (failed_call_mesh BoxKernel.pyvista BoxKernel.pykdtree pml (model (Some cube))).
  run_example.
Defined.


(** Two parts on the shell of the slab: cell 1 is listed by the second part
    only and takes core 2. *)
Lemma partitioned_shell_cores_witness :
  Core (value no_shell (partition_shell BoxKernel.pyvista 2 0 (fst built))) !! 1%nat
  = Some 2.
Proof.
  assert (H12 : 1 < 2) by lia.
  destruct (proj1 (partitioned_shell_cores BoxKernel.pyvista 2 0 (fst built) H12)
              (value no_shell (partition_shell BoxKernel.pyvista 2 0 (fst built))))
    as (_ & _ & Hset & _); [run_example |].
  apply (Hset 1%nat 1%nat
           (List.filter (fun i => Nat.eqb (i mod 2) 1) (seq 0 28))).
  - run_example.
  - apply list_elem_of_In. vm_compute. auto.
  - intros k' ids' Hk' Hids'. exfalso.
    destruct k' as [| [| k']]; [lia | lia |]. vm_compute in Hids'. discriminate.
Defined.

End FurtherWitnesses.

(** * Properties of the registries *)

(** ** Dicts with consecutive keys *)

Section PyDictFacts.
Context {V : Type}.
Implicit Types d : list (Z * V).

Lemma keys_from_lookup a d :
  keys_from a d <-> forall i kv, d !! i = Some kv -> kv.1 = a + Z.of_nat i.
Proof.
  unfold keys_from. split.
  - intros H i kv Hi.
    assert (Hk : map fst d !! i = Some kv.1) by (rewrite list_lookup_fmap, Hi; reflexivity).
    rewrite H in Hk. apply lookup_seqZ in Hk as [-> _]. reflexivity.
  - intros H. apply list_eq. intros i.
    rewrite list_lookup_fmap.
    destruct (d !! i) as [kv |] eqn:Hi; cbn.
    + symmetry. apply lookup_seqZ. split; [apply H; exact Hi |].
      apply lookup_lt_Some in Hi. lia.
    + symmetry. apply lookup_seqZ_ge. apply lookup_ge_None in Hi. lia.
Qed.

Lemma keys_from_nil a : keys_from a ([] : list (Z * V)).
Proof. reflexivity. Qed.

Lemma keys_from_cons a k v d :
  keys_from a ((k, v) :: d) <-> k = a /\ keys_from (a + 1) d.
Proof.
  rewrite !keys_from_lookup. split.
  - intros H. split; [pose proof (H 0%nat (k, v) eq_refl) as E; cbn in E; lia |].
    intros i kv Hi. pose proof (H (S i) kv Hi) as E. lia.
  - intros [-> H] [| i] kv Hi; cbn in Hi.
    + injection Hi as <-. cbn. lia.
    + pose proof (H i kv Hi) as E. lia.
Qed.

Lemma keys_from_app a d k v :
  keys_from a d -> k = a + Z.of_nat (length d) -> keys_from a (d ++ [(k, v)]).
Proof.
  rewrite !keys_from_lookup. intros H -> i kv Hi.
  apply lookup_app_Some in Hi as [Hi | [Hlen Hi]]; [apply H; exact Hi |].
  apply list_lookup_singleton_Some in Hi as [Hi <-]. cbn. lia.
Qed.

Lemma get_keys_from a d k :
  keys_from a d ->
  PyDict.get d k = if a <=? k then snd <$> d !! Z.to_nat (k - a) else None.
Proof.
  revert a. induction d as [| [k0 v] d IH]; intros a H; cbn [PyDict.get].
  - destruct (a <=? k); reflexivity.
  - apply keys_from_cons in H as [-> H]. rewrite (IH _ H).
    destruct (Z.eqb_spec a k) as [-> | Hne].
    + rewrite Z.leb_refl, Z.sub_diag. reflexivity.
    + destruct (Z.leb_spec (a + 1) k), (Z.leb_spec a k); try lia; [| reflexivity].
      replace (Z.to_nat (k - a)) with (S (Z.to_nat (k - (a + 1)))) by lia. reflexivity.
Qed.

Lemma get_keys_from_None a d k :
  keys_from a d -> k < a \/ a + Z.of_nat (length d) <= k -> PyDict.get d k = None.
Proof.
  intros H Hk. rewrite (get_keys_from a d k H).
  destruct (Z.leb_spec a k); [| reflexivity].
  rewrite (proj2 (lookup_ge_None d _)); [reflexivity | lia].
Qed.

(** A key that is not in the dict is appended. *)
Lemma set_new d k v : PyDict.get d k = None -> PyDict.set d k v = d ++ [(k, v)].
Proof.
  induction d as [| [k0 v0] d IH]; cbn; [reflexivity |].
  destruct (k0 =? k); [discriminate |]. intros H. rewrite (IH H). reflexivity.
Qed.

Lemma del_absent d k : PyDict.get d k = None -> PyDict.del d k = d.
Proof.
  unfold PyDict.del. induction d as [| [k0 v0] d IH]; cbn; [reflexivity |].
  destruct (k0 =? k); [discriminate |]. intros H. cbn. rewrite (IH H). reflexivity.
Qed.

Lemma del_keys_from a d k :
  keys_from a d -> a <= k < a + Z.of_nat (length d) ->
  PyDict.del d k = delete (Z.to_nat (k - a)) d.
Proof.
  unfold PyDict.del.
  revert a. induction d as [| [k0 v0] d IH]; intros a H Hk; cbn in *; [lia |].
  apply keys_from_cons in H as [-> H].
  destruct (Z.eqb_spec a k) as [-> | Hne]; cbn.
  - rewrite Z.sub_diag. cbn.
    fold (PyDict.del d k). apply del_absent.
    apply (get_keys_from_None (k + 1) d k H). lia.
  - rewrite (IH (a + 1) H) by lia.
    replace (Z.to_nat (k - a)) with (S (Z.to_nat (k - (a + 1)))) by lia. reflexivity.
Qed.

(** Items whose keys increase are sorted already. *)
Lemma sorted_items_increasing d : increasing_keys d -> PyDict.sorted_items d = d.
Proof.
  unfold PyDict.sorted_items.
  induction d as [| kv d IH]; intros H; cbn [foldr]; [reflexivity |].
  rewrite IH.
  - destruct d as [| kv' d]; cbn [PyDict.insert_item]; [reflexivity |].
    replace (kv.1 <? kv'.1) with true; [reflexivity |].
    symmetry. apply Z.ltb_lt. apply (H 0%nat 1%nat); [lia | reflexivity | reflexivity].
  - intros i j x y Hij Hi Hj. apply (H (S i) (S j)); [lia | exact Hi | exact Hj].
Qed.

Lemma keys_from_increasing a d : keys_from a d -> increasing_keys d.
Proof.
  rewrite keys_from_lookup. intros H i j x y Hij Hi Hj.
  rewrite (H i x Hi), (H j y Hj). lia.
Qed.

Lemma increasing_keys_delete d n : increasing_keys d -> increasing_keys (delete n d).
Proof.
  intros H i j x y Hij Hi Hj.
  destruct (decide (i < n)%nat), (decide (j < n)%nat).
  - rewrite list_lookup_delete_lt in Hi, Hj by lia.
    apply (H i j x y); [lia | exact Hi | exact Hj].
  - rewrite list_lookup_delete_lt in Hi by lia.
    rewrite list_lookup_delete_ge in Hj by lia.
    apply (H i (S j) x y); [lia | exact Hi | exact Hj].
  - lia.
  - rewrite list_lookup_delete_ge in Hi, Hj by lia.
    apply (H (S i) (S j) x y); [lia | exact Hi | exact Hj].
Qed.

End PyDictFacts.

(** ** The store of single-point constraints *)

Section SPConstraintFacts.
Import SPConstraints.

Lemma enumerate_cons {A} (x : A) (l : list A) (a : Z) :
  PyDict.enumerate (x :: l) a = (a, x) :: PyDict.enumerate l (a + 1).
Proof.
  unfold PyDict.enumerate. cbn [length].
  rewrite seqZ_cons by lia. cbn [zip zip_with]. do 3 f_equal; lia.
Qed.

Lemma lookup_enumerate {A} (l : list A) (a : Z) (j : nat) :
  PyDict.enumerate l a !! j = (fun x => (a + Z.of_nat j, x)) <$> l !! j.
Proof.
  revert a j. induction l as [| x l IH]; intros a j.
  - reflexivity.
  - rewrite enumerate_cons. destruct j as [| j]; cbn.
    + do 2 f_equal. lia.
    + rewrite IH. destruct (l !! j); cbn; [do 2 f_equal; lia | reflexivity].
Qed.

Lemma length_enumerate {A} (l : list A) (a : Z) :
  length (PyDict.enumerate l a) = length l.
Proof.
  unfold PyDict.enumerate. rewrite length_zip_with, length_seqZ. lia.
Qed.

Lemma rebuild_appends (l : list (Z * SPConstraint)) :
  forall (acc : Store) (a : Z),
  keys_from 1 acc -> a = 1 + Z.of_nat (length acc) ->
  fold_left (fun d (it : Z * (Z * SPConstraint)) =>
               let '(new_tag, (_, constraint)) := it in
               PyDict.set d new_tag (set_tag new_tag constraint))
            (PyDict.enumerate l a) acc
  = acc ++ map retagged (PyDict.enumerate l a).
Proof.
  induction l as [| [k c] l IH]; intros acc a Hacc Ha.
  - cbn. rewrite app_nil_r. reflexivity.
  - rewrite enumerate_cons. cbn [fold_left map].
    rewrite set_new by (apply (get_keys_from_None 1 acc a Hacc); lia).
    rewrite IH.
    + rewrite <- app_assoc. reflexivity.
    + apply keys_from_app; [exact Hacc | lia].
    + rewrite length_app. cbn. lia.
Qed.

Lemma numbered_lookup (cs : list (Z * SPConstraint)) (j : nat) (k : Z) (c : SPConstraint) :
  numbered cs -> cs !! j = Some (k, c) -> k = 1 + Z.of_nat j /\ tag c = k.
Proof.
  intros [Hk Ht] Hj. split.
  - apply (proj1 (keys_from_lookup 1 cs) Hk j (k, c) Hj).
  - rewrite Forall_lookup in Ht. apply (Ht j (k, c) Hj).
Qed.

Lemma get_numbered (cs : list (Z * SPConstraint)) (k : Z) :
  numbered cs ->
  get_constraint k cs = if 1 <=? k then snd <$> cs !! Z.to_nat (k - 1) else None.
Proof. intros [Hk _]. apply get_keys_from. exact Hk. Qed.

Lemma set_tag_same (c : SPConstraint) : set_tag (tag c) c = c.
Proof. destruct c; reflexivity. Qed.

Lemma remove_constraint_present (cs : list (Z * SPConstraint)) (t : Z) (c : SPConstraint) :
  numbered cs -> get_constraint t cs = Some c ->
  1 <= t <= Z.of_nat (length cs)
  /\ remove_constraint t cs
     = map retagged (PyDict.enumerate (delete (Z.to_nat (t - 1)) cs) 1).
Proof.
  unfold Store, PyDict.dict in *. intros Hn Hget.
  assert (Ht : 1 <= t <= Z.of_nat (length cs)).
  { rewrite (get_numbered cs t Hn) in Hget.
    destruct (Z.leb_spec 1 t); [| discriminate].
    destruct (cs !! Z.to_nat (t - 1)) eqn:E; [| discriminate].
    apply lookup_lt_Some in E. lia. }
  split; [exact Ht |].
  unfold remove_constraint, PyDict.mem. unfold get_constraint in Hget. rewrite Hget.
  destruct Hn as [Hk _].
  rewrite (del_keys_from 1 cs t Hk) by lia.
  rewrite sorted_items_increasing
    by (apply increasing_keys_delete, (keys_from_increasing 1), Hk).
  rewrite (rebuild_appends _ [] 1); [reflexivity | apply keys_from_nil | reflexivity].
Qed.

Lemma remove_constraint_absent (cs : Store) (t : Z) :
  get_constraint t cs = None -> remove_constraint t cs = cs.
Proof.
  unfold remove_constraint, PyDict.mem, get_constraint. intros ->. reflexivity.
Qed.

Lemma retagged_numbered (l : list (Z * SPConstraint)) :
  numbered (map retagged (PyDict.enumerate l 1)).
Proof.
  split.
  - apply keys_from_lookup. intros i kv Hi.
    rewrite list_lookup_fmap, lookup_enumerate in Hi.
    destruct (l !! i); [| discriminate]. cbn in Hi. injection Hi as <-. reflexivity.
  - apply Forall_lookup. intros i kv Hi.
    rewrite list_lookup_fmap, lookup_enumerate in Hi.
    destruct (l !! i); [| discriminate]. cbn in Hi. injection Hi as <-. reflexivity.
Qed.

(** Creation and removal keep the store numbered 1, 2, ... in creation
    order: a new constraint takes the number after the last, is appended,
    can be looked up under its tag and overwrites nothing. *)
Theorem constraints_stay_numbered (cs : Store) :
  numbered cs ->
  (forall cl node ds,
     let r := __init__ cl node ds cs in
     numbered r.1
     /\ r.1 = cs ++ [(Z.of_nat (length cs) + 1, r.2)]
     /\ tag r.2 = Z.of_nat (length cs) + 1
     /\ get_constraint (tag r.2) r.1 = Some r.2
     /\ forall t, t <> tag r.2 -> get_constraint t r.1 = get_constraint t cs)
  /\ (forall t, numbered (remove_constraint t cs)).
Proof.
  unfold Store, PyDict.dict in *. intros Hn. split.
  - intros cl node ds. cbv zeta. unfold __init__, _next_tag. cbn [fst snd tag].
    destruct Hn as [Hk Ht].
    assert (Hnew : PyDict.get cs (Z.of_nat (length cs) + 1) = None)
      by (apply (get_keys_from_None 1 cs _ Hk); lia).
    rewrite (set_new cs _ _ Hnew).
    assert (Hn' : numbered (cs ++ [(Z.of_nat (length cs) + 1,
                                    mkSPConstraint cl (Z.of_nat (length cs) + 1) node ds)])).
    { split; [apply keys_from_app; [exact Hk | lia] |].
      apply Forall_app. split; [exact Ht | repeat constructor]. }
    split; [exact Hn' |]. split; [reflexivity |]. split; [reflexivity |].
    split.
    + rewrite (get_numbered _ _ Hn').
      replace (1 <=? Z.of_nat (length cs) + 1) with true by (symmetry; apply Z.leb_le; lia).
      replace (Z.to_nat (Z.of_nat (length cs) + 1 - 1)) with (length cs) by lia.
      rewrite lookup_app_r, Nat.sub_diag by lia. reflexivity.
    + intros t Hne. rewrite (get_numbered _ _ Hn'), (get_numbered cs t (conj Hk Ht)).
      destruct (Z.leb_spec 1 t); [| reflexivity].
      destruct (decide (Z.to_nat (t - 1) < length cs)%nat).
      * rewrite lookup_app_l by lia. reflexivity.
      * rewrite !(proj2 (lookup_ge_None _ _)); [reflexivity | lia |].
        rewrite length_app. cbn. lia.
  - intros t. destruct (get_constraint t cs) as [c |] eqn:E.
    + destruct (remove_constraint_present cs t c Hn E) as [_ ->]. apply retagged_numbered.
    + rewrite (remove_constraint_absent cs t E). exact Hn.
Qed.

(** Removing a known tag closes the gap: the constraints below it stay, the
    ones above it move down by one and are told their new tag, and the store
    is one shorter; removing an unknown tag changes nothing. *)
Theorem remove_constraint_shifts (cs : Store) (t : Z) :
  numbered cs ->
  (get_constraint t cs = None -> remove_constraint t cs = cs)
  /\ (forall c, get_constraint t cs = Some c ->
        length (remove_constraint t cs) = (length cs - 1)%nat
        /\ forall k, get_constraint k (remove_constraint t cs)
                     = if k <? t then get_constraint k cs
                       else set_tag k <$> get_constraint (k + 1) cs).
Proof.
  unfold Store, PyDict.dict in *.
  intros Hn. split; [apply remove_constraint_absent |].
  intros c Hget.
  destruct (remove_constraint_present cs t c Hn Hget) as [Ht ->].
  split.
  { rewrite length_map, length_enumerate, length_delete; [reflexivity |].
    apply lookup_lt_is_Some. lia. }
  intros k.
  rewrite (get_numbered _ k (retagged_numbered _)), !(get_numbered cs _ Hn).
  rewrite list_lookup_fmap, lookup_enumerate.
  destruct (Z.leb_spec 1 k) as [Hk | Hk].
  2: { replace (k <? t) with true by (symmetry; apply Z.ltb_lt; lia). reflexivity. }
  destruct (Z.ltb_spec k t) as [Hlt | Hge].
  - rewrite list_lookup_delete_lt by lia.
    destruct (cs !! Z.to_nat (k - 1)) as [[k' c'] |] eqn:E; [| reflexivity].
    destruct (numbered_lookup cs _ k' c' Hn E) as [Hk' Htag]. cbn.
    unfold retagged. cbn.
    replace (1 + Z.of_nat (Z.to_nat (k - 1))) with (tag c') by lia.
    rewrite set_tag_same. reflexivity.
  - rewrite list_lookup_delete_ge by lia.
    replace (1 <=? k + 1) with true by (symmetry; apply Z.leb_le; lia).
    replace (Z.to_nat (k + 1 - 1)) with (S (Z.to_nat (k - 1))) by lia.
    destruct (cs !! S (Z.to_nat (k - 1))) as [[k' c'] |]; [| reflexivity].
    cbn. unfold retagged. cbn. do 2 f_equal. lia.
Qed.

Lemma group_commands (float_str : Q -> string) (comment : string)
    (l : list SPConstraint) :
  String.prefix "fix" comment = false ->
  List.filter (String.prefix "fix") (group float_str comment l)
  = map (to_tcl float_str) l.
Proof.
  intros Hc. unfold group. destruct l as [| c l]; [reflexivity |].
  cbn [List.filter]. rewrite Hc.
  induction (c :: l) as [| x xs IH]; [reflexivity |].
  cbn [map List.filter]. rewrite IH.
  replace (String.prefix "fix" (to_tcl float_str x)) with true; [reflexivity |].
  unfold to_tcl. destruct (class x); reflexivity.
Qed.

Lemma by_class_Permutation (l : list SPConstraint) :
  l ≡ₚ List.filter is_fix l ++ List.filter is_fixX l
       ++ List.filter is_fixY l ++ List.filter is_fixZ l.
Proof.
  induction l as [| x l IH]; [reflexivity |].
  unfold is_fix, is_fixX, is_fixY, is_fixZ in *. cbn [List.filter].
  destruct (class x); cbn [app].
  - apply Permutation_cons; [reflexivity | exact IH].
  - apply Permutation_cons_app. exact IH.
  - rewrite app_assoc. apply Permutation_cons_app. rewrite <- app_assoc. exact IH.
  - rewrite !app_assoc. apply Permutation_cons_app. rewrite <- !app_assoc. exact IH.
Qed.

(** The TCL text of the manager holds the command of every constraint
    exactly once: the lines that start with "fix" are the commands of the
    node constraints, then of the X, Y and Z constraints, each group in the
    order of the store; an empty store gives the empty text. *)
Theorem manager_to_tcl_commands (float_str : Q -> string) (cs : Store) :
  let constraints := PyDict.values cs in
  let commands := List.filter (String.prefix "fix") (tcl_commands float_str cs) in
  commands
  = map (to_tcl float_str)
        (List.filter is_fix constraints ++ List.filter is_fixX constraints
         ++ List.filter is_fixY constraints ++ List.filter is_fixZ constraints)
  /\ commands ≡ₚ map (to_tcl float_str) constraints
  /\ manager_to_tcl float_str [] = ""%string.
Proof.
  intros constraints commands.
  assert (H : commands
              = map (to_tcl float_str)
                  (List.filter is_fix constraints ++ List.filter is_fixX constraints
                   ++ List.filter is_fixY constraints ++ List.filter is_fixZ constraints)).
  { unfold commands, tcl_commands. fold constraints.
    rewrite !List.filter_app, !group_commands by reflexivity.
    rewrite !map_app. reflexivity. }
  split; [exact H |]. split; [| reflexivity].
  rewrite H. apply Permutation_map. symmetry. apply by_class_Permutation.
Qed.

End SPConstraintFacts.

Section RegistryWitnesses.
Import Scenarios.

Lemma numbered_nil : numbered [].
Proof. split; [reflexivity | constructor]. Qed.

Lemma three_constraints_numbered : numbered three_constraints.
Proof. split; [reflexivity | repeat constructor]. Qed.

(** A fourth constraint on the three takes tag 4. *)
Lemma constraints_stay_numbered_witness :
  let r := SPConstraints.fix_ 7 [0; 0; 1] three_constraints in
  numbered r.1
  /\ r.1 = three_constraints ++ [(Z.of_nat (length three_constraints) + 1, r.2)]
  /\ SPConstraints.tag r.2 = Z.of_nat (length three_constraints) + 1
  /\ SPConstraints.get_constraint (SPConstraints.tag r.2) r.1 = Some r.2
  /\ forall t, t <> SPConstraints.tag r.2 ->
               SPConstraints.get_constraint t r.1
               = SPConstraints.get_constraint t three_constraints.
Proof.
  exact (proj1 (constraints_stay_numbered three_constraints three_constraints_numbered)
           SPConstraints.FixConstraint 7 [0; 0; 1]).
Defined.

(** Removing constraint 2 of the three moves the third to tag 2. *)
Lemma remove_constraint_shifts_witness :
  SPConstraints.get_constraint 2 (SPConstraints.remove_constraint 2 three_constraints)
  = Some (SPConstraints.mkSPConstraint
            (SPConstraints.FixZConstraint 0 SPConstraints.default_tol) 2 (-1) [1; 1; 1]).
Proof.
  destruct (proj2 (remove_constraint_shifts three_constraints 2 three_constraints_numbered)
              (SPConstraints.mkSPConstraint
                 (SPConstraints.FixXConstraint 10 SPConstraints.default_tol) 2 (-1) [1; 0; 0])
              eq_refl) as [_ Hk].
  rewrite (Hk 2). reflexivity.
Defined.

End RegistryWitnesses.

(** * Properties of the singleton and its exports *)

Section SingletonFacts.
Import Singleton.

(** The class has one instance, initialised once: the first call of the
    class makes it, and every later call of the class or of [get_instance]
    returns it as it is, whatever keyword arguments it is given. *)
Theorem singleton_constructed_once (first_kwargs later_kwargs : Kwargs)
    (_instance : option Instance) :
  let made := construct first_kwargs _instance in
  _initialized made.2 = true
  /\ made.1 = Some made.2
  /\ construct later_kwargs made.1 = made
  /\ get_instance later_kwargs made.1 = made
  /\ (_instance = None ->
      model_name made.2 = kw_model_name first_kwargs
      /\ model_path made.2 = kw_model_path first_kwargs).
Proof.
  destruct _instance as [[[] name path] |]; cbn; repeat split; intros; discriminate.
Qed.

Lemma endswith_unfold (s suffix : string) :
  endswith s suffix
  = String.eqb s suffix
    || match s with
       | EmptyString => false
       | String _ s' => endswith s' suffix
       end.
Proof. destruct s; reflexivity. Qed.

Lemma endswith_app (s ext : string) : endswith (s +:+ ext) ext = true.
Proof.
  induction s as [| c s IH].
  - change ("" +:+ ext)%string with ext.
    rewrite endswith_unfold, String.eqb_refl. reflexivity.
  - change (String c s +:+ ext)%string with (String c (s +:+ ext)).
    rewrite endswith_unfold, IH. apply orb_true_r.
Qed.

Lemma with_extension_endswith (ext filename : string) :
  endswith (with_extension ext filename) ext = true.
Proof.
  unfold with_extension. destruct (endswith filename ext) eqn:E; cbn [negb].
  - exact E.
  - apply endswith_app.
Qed.

Section Targets.
Variable os_path_join : string -> string -> string.
Variable directory_of : string -> string.
Variable save_raises : string -> Mesh -> bool.

Lemma export_filename_inr (ext : string) (self : Instance)
    (filename : option string) (f : string) :
  export_filename os_path_join ext self filename = inr f -> endswith f ext = true.
Proof.
  unfold export_filename. destruct filename as [given |].
  - intros H. injection H as <-. apply with_extension_endswith.
  - destruct (model_name self); [| discriminate].
    destruct (model_path self); [| discriminate].
    intros H. injection H as <-. apply with_extension_endswith.
Qed.

Lemma export_filename_inl (ext : string) (self : Instance)
    (filename : option string) (e : ExportError) :
  export_filename os_path_join ext self filename = inl e ->
  e = NoFilename /\ filename = None
  /\ (model_name self = None \/ model_path self = None).
Proof.
  unfold export_filename. destruct filename as [given |]; [discriminate |].
  destruct (model_name self) as [name |].
  - destruct (model_path self) as [path |]; [discriminate |].
    intros H. injection H as <-. auto.
  - intros H. injection H as <-. auto.
Qed.

(** The file an export writes always carries the extension: a given name
    that ends with it is used as it is, any other gets it appended, and
    without a given name the file is [model_name + ext] joined to
    [model_path].  The only failure is a missing name, when no filename is
    given and the model name or the model path is not set. *)
Theorem export_filename_extension (ext : string) (self : Instance)
    (filename : option string) :
  (forall f, export_filename os_path_join ext self filename = inr f ->
     endswith f ext = true
     /\ (forall given, filename = Some given ->
           f = if endswith given ext then given else given +:+ ext)
     /\ (filename = None ->
         exists name path,
           model_name self = Some name /\ model_path self = Some path
           /\ endswith f ext = true
           /\ (endswith (os_path_join path (name +:+ ext)) ext = true ->
               f = os_path_join path (name +:+ ext))))
  /\ (forall e, export_filename os_path_join ext self filename = inl e ->
        e = NoFilename /\ filename = None
        /\ (model_name self = None \/ model_path self = None))
  /\ (filename = None -> model_name self = None \/ model_path self = None ->
      export_filename os_path_join ext self filename = inl NoFilename).
Proof.
  split; [| split].
  - intros f H. split; [eapply export_filename_inr; exact H |].
    unfold export_filename in H. destruct filename as [given |].
    + injection H as <-. split; [| discriminate].
      intros given' Hg. injection Hg as <-. unfold with_extension.
      destruct (endswith given ext); reflexivity.
    + destruct (model_name self) as [name |]; [| discriminate].
      destruct (model_path self) as [path |]; [| discriminate].
      injection H as <-. split; [discriminate |]. intros _. exists name, path.
      split; [reflexivity |]. split; [reflexivity |].
      split; [apply with_extension_endswith |].
      intros E. unfold with_extension. rewrite E. reflexivity.
  - apply export_filename_inl.
  - unfold export_filename. intros -> [-> | Hp]; [reflexivity |]. rewrite Hp.
    destruct (model_name self); reflexivity.
Qed.

(** [export_to_vtk] returns True only; it saves the mesh once, under a name
    that ends with ".vtk", after creating the directory of that name.  When
    no mesh is assembled it raises after the directory has been created and
    nothing is saved; when no name can be formed it touches nothing. *)
Theorem export_to_vtk_outcome (self : Instance) (AssembeledMesh : option Mesh)
    (filename : option string) :
  let run := export_to_vtk os_path_join directory_of save_raises
               self AssembeledMesh filename in
  (forall b, run.2 = inr b ->
     b = true
     /\ exists f mesh,
          AssembeledMesh = Some mesh /\ endswith f ".vtk" = true
          /\ run.1 = [Makedirs (directory_of f); Save f mesh])
  /\ (forall f, export_filename os_path_join ".vtk" self filename = inr f ->
        AssembeledMesh = None ->
        run = ([Makedirs (directory_of f)], inl NoMeshToExport))
  /\ (forall e, export_filename os_path_join ".vtk" self filename = inl e ->
        run = ([], inl NoFilename))
  /\ (forall e, run.2 = inl e -> forall f mesh, Save f mesh ∉ run.1).
Proof.
  cbv zeta. unfold export_to_vtk.
  destruct (export_filename os_path_join ".vtk" self filename) as [e | f] eqn:E.
  - apply export_filename_inl in E as (-> & _). cbn [fst snd].
    split; [discriminate |]. split; [discriminate |].
    split; [reflexivity |]. intros e' _ f mesh Hin. inversion Hin.
  - apply export_filename_inr in E as Hext.
    destruct AssembeledMesh as [mesh |];
      [destruct (save_raises f mesh) |]; cbn [fst snd].
    + split; [discriminate |]. split; [discriminate |]. split; [discriminate |].
      intros e _ f' mesh' Hin. apply list_elem_of_singleton in Hin. discriminate.
    + split.
      { intros b H. injection H as <-. split; [reflexivity |].
        exists f, mesh. auto. }
      split; [discriminate |]. split; discriminate.
    + split; [discriminate |]. split.
      { intros f' H _. injection H as <-. reflexivity. }
      split; [discriminate |].
      intros e _ f' mesh' Hin. apply list_elem_of_singleton in Hin. discriminate.
Qed.

(** [export_to_tcl] opens a file whose name ends with ".tcl", after
    creating its directory; without an assembled mesh it raises after the
    directory has been created, and before any file is opened. *)
Theorem export_to_tcl_target_outcome (self : Instance) (AssembeledMesh : option Mesh)
    (filename : option string) :
  let run := export_to_tcl_target os_path_join directory_of self AssembeledMesh filename in
  (forall f, run.2 = inr f ->
     endswith f ".tcl" = true /\ is_Some AssembeledMesh
     /\ run.1 = [Makedirs (directory_of f)]
     /\ export_filename os_path_join ".tcl" self filename = inr f)
  /\ (forall f, export_filename os_path_join ".tcl" self filename = inr f ->
        AssembeledMesh = None ->
        run = ([Makedirs (directory_of f)], inl NoMeshToExport))
  /\ (forall e, export_filename os_path_join ".tcl" self filename = inl e ->
        run = ([], inl NoFilename)).
Proof.
  cbv zeta. unfold export_to_tcl_target.
  destruct (export_filename os_path_join ".tcl" self filename) as [e | f] eqn:E.
  - apply export_filename_inl in E as (-> & _). cbn [fst snd].
    split; [discriminate |]. split; [discriminate |]. reflexivity.
  - apply export_filename_inr in E as Hext.
    destruct AssembeledMesh as [mesh |]; cbn [fst snd].
    + split.
      { intros f' H. injection H as <-. eauto. }
      split; discriminate.
    + split; [discriminate |]. split; [| discriminate].
      intros f' H _. injection H as <-. reflexivity.
Qed.

End Targets.

End SingletonFacts.

(** * Properties of the export of nodes and elements *)

Section NewNodes.

Lemma new_nodes_ext (s1 s2 : nat -> bool) (l : list nat) :
  (forall p, s1 p = s2 p) -> new_nodes s1 l = new_nodes s2 l.
Proof.
  revert s1 s2. induction l as [| x l IH]; intros s1 s2 H; cbn; [reflexivity |].
  rewrite <- (H x). destruct (s1 x).
  - apply IH. exact H.
  - f_equal. apply IH. intros p. rewrite (H p). reflexivity.
Qed.

Lemma elem_of_new_nodes (l : list nat) :
  forall (seen : nat -> bool) (p : nat),
  p ∈ new_nodes seen l <-> p ∈ l /\ seen p = false.
Proof.
  induction l as [| x l IH]; intros seen p; cbn.
  - rewrite elem_of_nil. tauto.
  - destruct (seen x) eqn:E.
    + rewrite IH, elem_of_cons. split; [tauto |].
      intros [[-> | H] Hs]; [congruence | tauto].
    + rewrite !elem_of_cons, IH. rewrite orb_false_iff, Nat.eqb_neq.
      destruct (decide (p = x)) as [-> | Hne]; tauto.
Qed.

Lemma NoDup_new_nodes (l : list nat) :
  forall seen : nat -> bool, NoDup (new_nodes seen l).
Proof.
  induction l as [| x l IH]; intros seen; cbn; [constructor |].
  destruct (seen x); [apply IH |].
  constructor; [| apply IH].
  rewrite elem_of_new_nodes. rewrite Nat.eqb_refl. cbn. intros [_ H]. discriminate.
Qed.

End NewNodes.

Section WrotedFacts.

Lemma cell_at_insert (w : list (list bool)) (pid col : nat) (row : list bool)
    (p c : nat) :
  w !! pid = Some row -> (col < length row)%nat ->
  cell_at (<[pid := <[col := true]> row]> w) p c
  = cell_at w p c || (Nat.eqb p pid && Nat.eqb c col).
Proof.
  intros Hrow Hcol. unfold cell_at.
  destruct (Nat.eqb_spec p pid) as [-> | Hp].
  - rewrite list_lookup_insert_eq by (eapply lookup_lt_Some; exact Hrow).
    rewrite Hrow. cbn.
    destruct (Nat.eqb_spec c col) as [-> | Hc].
    + rewrite list_lookup_insert_eq by exact Hcol. cbn. rewrite orb_true_r. reflexivity.
    + rewrite list_lookup_insert_ne by congruence. rewrite orb_false_r. reflexivity.
  - rewrite list_lookup_insert_ne by congruence. cbn. rewrite orb_false_r. reflexivity.
Qed.

Lemma shape_insert (rows cols : nat) (w : list (list bool)) (pid col : nat)
    (row : list bool) :
  shape rows cols w -> w !! pid = Some row ->
  shape rows cols (<[pid := <[col := true]> row]> w).
Proof.
  intros [Hlen Hrows] Hrow. split; [rewrite length_insert; exact Hlen |].
  apply Forall_insert; [exact Hrows |].
  rewrite length_insert. rewrite Forall_lookup in Hrows. apply (Hrows pid row Hrow).
Qed.

Lemma shape_lookup (rows cols : nat) (w : list (list bool)) (pid : nat) :
  shape rows cols w -> (pid < rows)%nat ->
  exists row, w !! pid = Some row /\ length row = cols.
Proof.
  intros [Hlen Hrows] Hpid.
  destruct (lookup_lt_is_Some_2 w pid) as [row Hrow]; [lia |].
  exists row. split; [exact Hrow |].
  rewrite Forall_lookup in Hrows. apply (Hrows pid row Hrow).
Qed.

End WrotedFacts.

Section NodesAndElementsFacts.
Variable float_str : Q -> string.
Variable element_to_tcl : Element -> Z -> list Z -> string.

Lemma node_line_text (mesh : Mesh) (pid : nat) :
  length (ndf mesh) = length (points mesh) ->
  (pid < length (points mesh))%nat ->
  TclExport.node_line float_str mesh pid = inr (node_text float_str mesh pid).
Proof.
  intros Hndf Hpid. unfold node_text, TclExport.node_line.
  destruct (lookup_lt_is_Some_2 (points mesh) pid Hpid) as [node ->].
  destruct (lookup_lt_is_Some_2 (ndf mesh) pid) as [n ->]; [lia |].
  reflexivity.
Qed.

Lemma np_index_lt (n : nat) (i : Z) (col : nat) :
  TclExport.np_index n i = Some col -> (col < n)%nat.
Proof.
  unfold TclExport.np_index.
  destruct (Z.leb_spec 0 i), (Z.ltb_spec i (Z.of_nat n)); cbn;
    try (intros [= <-]; lia);
    destruct (Z.leb_spec (- Z.of_nat n) i), (Z.ltb_spec i 0); cbn;
    try discriminate; intros [= <-]; lia.
Qed.

Lemma np_index_nonneg (n : nat) (i : Z) :
  0 <= i < Z.of_nat n -> TclExport.np_index n i = Some (Z.to_nat i).
Proof.
  intros H. unfold TclExport.np_index.
  destruct (Z.leb_spec 0 i), (Z.ltb_spec i (Z.of_nat n)); cbn; try lia. reflexivity.
Qed.

Lemma np_index_outside (n : nat) (i : Z) :
  i < - Z.of_nat n \/ Z.of_nat n <= i -> TclExport.np_index n i = None.
Proof.
  intros H. unfold TclExport.np_index.
  destruct (Z.leb_spec 0 i), (Z.ltb_spec i (Z.of_nat n)); cbn; try lia;
    destruct (Z.leb_spec (- Z.of_nat n) i), (Z.ltb_spec i 0); cbn; try lia;
    reflexivity.
Qed.

(** The inner loop on a table of the right shape: the lines of the new
    nodes are written and their entries set. *)
Lemma write_nodes_written (mesh : Mesh) (core : Z) (cols col : nat)
    (pids : list nat) :
  length (ndf mesh) = length (points mesh) ->
  TclExport.np_index cols core = Some col ->
  Forall (fun pid => (pid < length (points mesh))%nat) pids ->
  forall (w : list (list bool)) (f : list string),
  shape (length (points mesh)) cols w ->
  exists w',
    TclExport.write_nodes float_str mesh core pids w f
    = (f ++ map (node_text float_str mesh)
                (new_nodes (fun p => cell_at w p col) pids), inr w')
    /\ shape (length (points mesh)) cols w'
    /\ forall p c, cell_at w' p c
                   = cell_at w p c || (Nat.eqb c col && bool_decide (p ∈ pids)).
Proof.
  intros Hndf Hcol Hpids. induction Hpids as [| pid rest Hpid Hrest IH]; intros w f Hw.
  - exists w. cbn. rewrite app_nil_r. repeat split; [exact (proj1 Hw) | exact (proj2 Hw) |].
    intros p c. rewrite bool_decide_eq_false_2 by apply not_elem_of_nil.
    rewrite andb_false_r, orb_false_r. reflexivity.
  - destruct (shape_lookup _ _ w pid Hw Hpid) as (row & Hrow & Hlen).
    cbn [TclExport.write_nodes new_nodes]. rewrite Hrow, Hlen, Hcol.
    assert (Hat : cell_at w pid col = default false (row !! col)).
    { unfold cell_at. rewrite Hrow. reflexivity. }
    rewrite <- Hat. destruct (cell_at w pid col) eqn:Hseen.
    + destruct (IH w f Hw) as (w' & Hrun & Hw' & Hcells).
      exists w'. split; [exact Hrun |]. split; [exact Hw' |].
      intros p c. rewrite Hcells.
      destruct (cell_at w p c) eqn:Hpc; [reflexivity |]. cbn.
      destruct (Nat.eqb_spec c col) as [-> | Hc]; [| reflexivity]. cbn.
      destruct (decide (p = pid)) as [-> | Hp]; [congruence |].
      apply bool_decide_ext. rewrite elem_of_cons. tauto.
    + rewrite (node_line_text mesh pid Hndf Hpid).
      pose proof (np_index_lt _ _ _ Hcol) as Hlt.
      destruct (IH (<[pid := <[col := true]> row]> w)
                   (f ++ [node_text float_str mesh pid])
                   (shape_insert _ _ w pid col row Hw Hrow))
        as (w' & Hrun & Hw' & Hcells).
      exists w'. split.
      { rewrite Hrun. rewrite <- app_assoc. cbn.
        rewrite (new_nodes_ext (fun p => cell_at (<[pid := <[col := true]> row]> w) p col)
                   (fun q => Nat.eqb q pid || cell_at w q col) rest); [reflexivity |]. intros p.
        rewrite (cell_at_insert w pid col row p col Hrow) by lia.
        rewrite Nat.eqb_refl, andb_true_r. apply orb_comm. }
      split; [exact Hw' |].
      intros p c. rewrite Hcells.
      rewrite (cell_at_insert w pid col row p c Hrow) by lia.
      rewrite <- orb_assoc. f_equal.
      destruct (Nat.eqb_spec c col) as [-> | Hc]; cbn;
        [| rewrite andb_false_r; reflexivity].
      rewrite andb_true_r.
      destruct (Nat.eqb_spec p pid) as [-> | Hp]; cbn.
      * symmetry. apply bool_decide_eq_true_2. left.
      * apply bool_decide_ext. rewrite elem_of_cons. tauto.
Qed.

Lemma cell_at_zeros (rows cols p c : nat) :
  cell_at (replicate rows (replicate cols false)) p c = false.
Proof.
  unfold cell_at.
  destruct (replicate rows (replicate cols false) !! p) as [row |] eqn:Hrow;
    [| reflexivity].
  apply lookup_replicate in Hrow as [-> _]. cbn.
  destruct (replicate cols false !! c) as [b |] eqn:Hb; [| reflexivity].
  apply lookup_replicate in Hb as [-> _]. reflexivity.
Qed.

Lemma shape_zeros (rows cols : nat) :
  shape rows cols (replicate rows (replicate cols false)).
Proof.
  split; [apply length_replicate |].
  apply Forall_replicate. apply length_replicate.
Qed.

Lemma held_S (mesh : Mesh) (i p c : nat) :
  held mesh (S i) p c
  = held mesh i p c
    || (bool_decide (cd_Core mesh !! i = Some (Z.of_nat c))
        && bool_decide (p ∈ cell_points_of mesh i)).
Proof.
  unfold held. rewrite seq_S, existsb_app. cbn. rewrite orb_false_r. reflexivity.
Qed.

(** One turn of the outer loop on a mesh that can be exported. *)
Lemma write_cell_written (mesh : Mesh) (elements : gmap Z Element) (i : nat) :
  exportable mesh elements -> cores_are_indices mesh ->
  (i < length (connectivity mesh))%nat ->
  forall (w : list (list bool)) (f : list string),
  shape (length (points mesh)) (length (unique (cd_Core mesh))) w ->
  (forall p c, cell_at w p c = held mesh i p c) ->
  exists w',
    TclExport.write_cell float_str element_to_tcl mesh elements i w f
    = (f ++ block float_str element_to_tcl mesh elements i, inr w')
    /\ shape (length (points mesh)) (length (unique (cd_Core mesh))) w'
    /\ forall p c, cell_at w' p c = held mesh (S i) p c.
Proof.
  intros (HCore & HTag & Hndf & Hconn & Hreg) Hcores Hi w f Hw Hinv.
  destruct (lookup_lt_is_Some_2 (connectivity mesh) i Hi) as [pids Hpids].
  destruct (lookup_lt_is_Some_2 (cd_Core mesh) i) as [core Hcore]; [lia |].
  destruct (lookup_lt_is_Some_2 (cd_ElementTag mesh) i) as [t Ht]; [lia |].
  unfold cores_are_indices in Hcores.
  rewrite Forall_lookup in Hconn. rewrite Forall_lookup in Hreg.
  rewrite Forall_lookup in Hcores.
  pose proof (Hconn i pids Hpids) as Hin.
  destruct (Hreg i t Ht) as [eleclass Hele].
  pose proof (Hcores i core Hcore) as Hrange. cbn in Hrange.
  pose proof (np_index_nonneg _ _ Hrange) as Hcol.
  destruct (write_nodes_written mesh core _ _ pids Hndf Hcol Hin w
              (f ++ [("if {$pid ==" +:+ pretty core +:+ "} {" +:+ TclExport.newline)%string])
              Hw) as (w' & Hrun & Hw' & Hcells).
  exists w'. split; [| split; [exact Hw' |]].
  - unfold TclExport.write_cell, block, block_nodes, cell_points_of.
    rewrite Hpids, Hcore, Ht. cbn. rewrite Hele. cbv zeta. rewrite Hrun.
    rewrite (new_nodes_ext (fun p => cell_at w p (Z.to_nat core))
               (seen_before mesh i) pids).
    + rewrite <- !app_assoc. reflexivity.
    + intros p. rewrite Hinv. unfold held, seen_before.
      rewrite Hcore, Z2Nat.id by lia. reflexivity.
  - intros p c. rewrite Hcells, Hinv, held_S. f_equal.
    unfold cell_points_of. rewrite Hpids, Hcore. cbn. f_equal.
    destruct (Nat.eqb_spec c (Z.to_nat core)) as [-> | Hc].
    + symmetry. apply bool_decide_eq_true_2. rewrite Z2Nat.id by lia. reflexivity.
    + symmetry. apply bool_decide_eq_false_2. intros [= ->]. apply Hc.
      rewrite Nat2Z.id. reflexivity.
Qed.

Lemma write_cells_written (mesh : Mesh) (elements : gmap Z Element) :
  exportable mesh elements -> cores_are_indices mesh ->
  forall (count i : nat) (w : list (list bool)) (f : list string),
  (i + count <= length (connectivity mesh))%nat ->
  shape (length (points mesh)) (length (unique (cd_Core mesh))) w ->
  (forall p c, cell_at w p c = held mesh i p c) ->
  exists w',
    TclExport.write_cells float_str element_to_tcl mesh elements (seq i count) w f
    = (f ++ flat_map (block float_str element_to_tcl mesh elements) (seq i count),
       inr w').
Proof.
  intros Hmesh Hcores. induction count as [| count IH]; intros i w f Hi Hw Hinv.
  - exists w. cbn. rewrite app_nil_r. reflexivity.
  - destruct (write_cell_written mesh elements i Hmesh Hcores ltac:(lia) w f Hw Hinv)
      as (w1 & Hrun & Hw1 & Hinv1).
    destruct (IH (S i) w1 (f ++ block float_str element_to_tcl mesh elements i)
                ltac:(lia) Hw1 Hinv1) as (w' & Hrest).
    exists w'. cbn [seq TclExport.write_cells flat_map]. rewrite Hrun, Hrest.
    rewrite <- app_assoc. reflexivity.
Qed.

Lemma block_nodes_elem (mesh : Mesh) (i pid : nat) :
  pid ∈ block_nodes mesh i
  <-> pid ∈ cell_points_of mesh i /\ seen_before mesh i pid = false.
Proof. apply elem_of_new_nodes. Qed.

Lemma seen_before_true (mesh : Mesh) (i pid : nat) :
  seen_before mesh i pid = true
  <-> exists j, (j < i)%nat /\ cd_Core mesh !! j = cd_Core mesh !! i
                /\ pid ∈ cell_points_of mesh j.
Proof.
  unfold seen_before. rewrite existsb_exists. split.
  - intros (j & Hj & Hb). apply in_seq in Hj.
    apply andb_true_iff in Hb as [H1 H2].
    apply bool_decide_eq_true in H1, H2. exists j. split; [lia | tauto].
  - intros (j & Hj & H1 & H2). exists j. split; [apply in_seq; lia |].
    apply andb_true_iff. split; apply bool_decide_eq_true_2; assumption.
Qed.

Lemma written_before_use (mesh : Mesh) (i : nat) :
  forall pid, pid ∈ cell_points_of mesh i ->
  exists j, (j <= i)%nat /\ cd_Core mesh !! j = cd_Core mesh !! i
            /\ pid ∈ block_nodes mesh j.
Proof.
  induction i as [i IH] using lt_wf_ind. intros pid Hpid.
  destruct (seen_before mesh i pid) eqn:Hseen.
  - apply seen_before_true in Hseen as (j & Hj & Hcore & Hin).
    destruct (IH j Hj pid Hin) as (j' & Hj' & Hcore' & Hin').
    exists j'. split; [lia |]. split; [congruence | exact Hin'].
  - exists i. split; [lia |]. split; [reflexivity |].
    apply block_nodes_elem. tauto.
Qed.

(** On a mesh that can be exported and whose cores are 0..k-1, the
    section of nodes and elements is written without error: after the
    header comes one block per cell, in the order of the cells, made of the
    opening line of the core of the cell, the lines of the nodes of the
    block, the line of the element and the closing line.  The nodes of a
    block are points of its cell, each once; a node is in no two blocks of
    one core; and every point of a cell is a node of the block of that
    cell or of an earlier block of the same core. *)
Theorem nodes_written_once_per_core (mesh : Mesh) (elements : gmap Z Element)
    (f : list string) :
  exportable mesh elements -> cores_are_indices mesh ->
  (exists wroted,
     TclExport.nodes_and_elements float_str element_to_tcl mesh elements f
     = (f ++ [(TclExport.newline
               +:+ "# Nodes & Elements ======================================"
               +:+ TclExport.newline)%string]
          ++ flat_map (block float_str element_to_tcl mesh elements)
                      (seq 0 (length (connectivity mesh))),
        inr wroted))
  /\ (forall i, NoDup (block_nodes mesh i))
  /\ (forall i pid, pid ∈ block_nodes mesh i -> pid ∈ cell_points_of mesh i)
  /\ (forall i j pid, (j < i)%nat -> cd_Core mesh !! j = cd_Core mesh !! i ->
        pid ∈ block_nodes mesh j -> pid ∉ block_nodes mesh i)
  /\ (forall i pid, pid ∈ cell_points_of mesh i ->
        exists j, (j <= i)%nat /\ cd_Core mesh !! j = cd_Core mesh !! i
                  /\ pid ∈ block_nodes mesh j).
Proof.
  intros Hmesh Hcores. split; [| split; [| split; [| split]]].
  - unfold TclExport.nodes_and_elements. cbv zeta.
    destruct (write_cells_written mesh elements Hmesh Hcores
                (length (connectivity mesh)) 0
                (replicate (length (points mesh))
                   (replicate (length (unique (cd_Core mesh))) false))
                (f ++ [(TclExport.newline
                        +:+ "# Nodes & Elements ======================================"
                        +:+ TclExport.newline)%string]))
      as (w' & Hrun).
    + lia.
    + apply shape_zeros.
    + intros p c. apply cell_at_zeros.
    + exists w'. rewrite Hrun. rewrite <- app_assoc. reflexivity.
  - intros i. apply NoDup_new_nodes.
  - intros i pid H. apply block_nodes_elem in H. tauto.
  - intros i j pid Hj Hcore Hin Hin'.
    apply block_nodes_elem in Hin as [Hin _].
    apply block_nodes_elem in Hin' as [_ Hseen].
    assert (Htrue : seen_before mesh i pid = true).
    { apply seen_before_true. exists j. tauto. }
    congruence.
  - apply written_before_use.
Qed.

(** A turn of the outer loop on a table of the right shape ends well or in
    an IndexError. *)
Lemma write_cell_outcome (mesh : Mesh) (elements : gmap Z Element) (i : nat)
    (w : list (list bool)) (f : list string) :
  exportable mesh elements -> (i < length (connectivity mesh))%nat ->
  shape (length (points mesh)) (length (unique (cd_Core mesh))) w ->
  (exists f', TclExport.write_cell float_str element_to_tcl mesh elements i w f
              = (f', inl IndexError))
  \/ (exists f' w',
        TclExport.write_cell float_str element_to_tcl mesh elements i w f
        = (f', inr w')
        /\ shape (length (points mesh)) (length (unique (cd_Core mesh))) w').
Proof.
  intros (HCore & HTag & Hndf & Hconn & Hreg) Hi Hw.
  destruct (lookup_lt_is_Some_2 (connectivity mesh) i Hi) as [pids Hpids].
  destruct (lookup_lt_is_Some_2 (cd_Core mesh) i) as [core Hcore]; [lia |].
  destruct (lookup_lt_is_Some_2 (cd_ElementTag mesh) i) as [t Ht]; [lia |].
  rewrite Forall_lookup in Hconn. rewrite Forall_lookup in Hreg.
  pose proof (Hconn i pids Hpids) as Hin.
  destruct (Hreg i t Ht) as [eleclass Hele].
  unfold TclExport.write_cell. rewrite Hpids, Hcore. cbv zeta.
  destruct (TclExport.np_index (length (unique (cd_Core mesh))) core)
    as [col |] eqn:Hcol.
  - destruct (write_nodes_written mesh core _ _ pids Hndf Hcol Hin w
                (f ++ [("if {$pid ==" +:+ pretty core +:+ "} {" +:+ TclExport.newline)%string])
                Hw) as (w' & Hrun & Hw' & _).
    right. rewrite Hrun, Ht, Hele. eexists. exists w'. split; [reflexivity | exact Hw'].
  - destruct Hin as [| pid rest Hpid Hrest].
    + right. cbn. rewrite Ht, Hele. eexists. exists w. split; [reflexivity | exact Hw].
    + left. destruct (shape_lookup _ _ w pid Hw Hpid) as (row & Hrow & Hlen).
      cbn [TclExport.write_nodes]. rewrite Hrow, Hlen, Hcol. eexists. reflexivity.
Qed.

(** The turn of a cell with a point and a core that is no index of a
    column stops at the first point. *)
Lemma write_cell_core_outside (mesh : Mesh) (elements : gmap Z Element) (i : nat)
    (pid : nat) (rest : list nat) (core : Z) (w : list (list bool))
    (f : list string) :
  exportable mesh elements ->
  shape (length (points mesh)) (length (unique (cd_Core mesh))) w ->
  connectivity mesh !! i = Some (pid :: rest) -> cd_Core mesh !! i = Some core ->
  TclExport.np_index (length (unique (cd_Core mesh))) core = None ->
  TclExport.write_cell float_str element_to_tcl mesh elements i w f
  = (f ++ [("if {$pid ==" +:+ pretty core +:+ "} {" +:+ TclExport.newline)%string],
     inl IndexError).
Proof.
  intros (HCore & HTag & Hndf & Hconn & Hreg) Hw Hpids Hcore Hcol.
  rewrite Forall_lookup in Hconn.
  pose proof (Hconn i _ Hpids) as Hin. inversion Hin as [| ? ? Hpid Hrest]; subst.
  destruct (shape_lookup _ _ w pid Hw Hpid) as (row & Hrow & Hlen).
  unfold TclExport.write_cell. rewrite Hpids, Hcore. cbv zeta.
  cbn [TclExport.write_nodes]. rewrite Hrow, Hlen, Hcol. reflexivity.
Qed.

Lemma write_cells_core_outside (mesh : Mesh) (elements : gmap Z Element)
    (j : nat) (pid : nat) (rest : list nat) (core : Z) :
  exportable mesh elements ->
  connectivity mesh !! j = Some (pid :: rest) -> cd_Core mesh !! j = Some core ->
  TclExport.np_index (length (unique (cd_Core mesh))) core = None ->
  forall (count i : nat) (w : list (list bool)) (f : list string),
  (i <= j < i + count)%nat -> (i + count <= length (connectivity mesh))%nat ->
  shape (length (points mesh)) (length (unique (cd_Core mesh))) w ->
  exists f',
    TclExport.write_cells float_str element_to_tcl mesh elements (seq i count) w f
    = (f', inl IndexError).
Proof.
  intros Hmesh Hpids Hcore Hcol. induction count as [| count IH]; intros i w f Hj Hm Hw; [lia |].
  cbn [seq TclExport.write_cells].
  destruct (decide (j = i)) as [-> | Hne].
  - rewrite (write_cell_core_outside mesh elements i pid rest core w f
               Hmesh Hw Hpids Hcore Hcol).
    eexists. reflexivity.
  - destruct (write_cell_outcome mesh elements i w f Hmesh ltac:(lia) Hw)
      as [[f' Hrun] | (f' & w' & Hrun & Hw')]; rewrite Hrun.
    + exists f'. reflexivity.
    + apply IH; [lia | lia | exact Hw'].
Qed.

(** On a mesh that can be exported, a cell that has a point and whose
    core is k or more, or less than -k, for the k distinct cores of the
    mesh, makes the section of nodes and elements end in an IndexError: the
    core is used as the index of a column of a table of k columns. *)
Theorem core_beyond_count_raises (mesh : Mesh) (elements : gmap Z Element)
    (f : list string) (i pid : nat) (rest : list nat) (core : Z) :
  exportable mesh elements ->
  connectivity mesh !! i = Some (pid :: rest) -> cd_Core mesh !! i = Some core ->
  core < - Z.of_nat (length (unique (cd_Core mesh)))
  \/ Z.of_nat (length (unique (cd_Core mesh))) <= core ->
  exists f',
    TclExport.nodes_and_elements float_str element_to_tcl mesh elements f
    = (f', inl IndexError).
Proof.
  intros Hmesh Hpids Hcore Hout. unfold TclExport.nodes_and_elements. cbv zeta.
  apply (write_cells_core_outside mesh elements i pid rest core Hmesh Hpids Hcore
           (np_index_outside _ _ Hout)).
  - apply lookup_lt_Some in Hpids. lia.
  - lia.
  - apply shape_zeros.
Qed.

End NodesAndElementsFacts.

Section ExportWitnesses.
Import Example Scenarios.

Lemma slab_cells_in_range (n : nat) :
  (18 <= n)%nat ->
  Forall (Forall (fun pid => (pid < n)%nat)) (connectivity slab).
Proof. intros H. repeat constructor; cbn; lia. Qed.

Lemma two_core_slab_exportable : exportable two_core_slab {[ 1 := brick ]}.
Proof.
  repeat split; try reflexivity.
  - apply slab_cells_in_range. cbn. lia.
  - repeat constructor; exists brick; reflexivity.
Qed.

Lemma partitioned_slab_exportable : exportable partitioned_slab {[ 1 := brick ]}.
Proof.
  repeat split; try reflexivity.
  - apply slab_cells_in_range. cbn. lia.
  - repeat constructor; exists brick; reflexivity.
Qed.

(** The slab on the cores 0 and 1 is written in four blocks. *)
Lemma nodes_written_once_per_core_witness :
  exportable two_core_slab {[ 1 := brick ]}
  /\ cores_are_indices two_core_slab
  /\ exists wroted,
       TclExport.nodes_and_elements whole_part brick_line two_core_slab
         {[ 1 := brick ]} []
       = ([] ++ [(TclExport.newline
                  +:+ "# Nodes & Elements ======================================"
                  +:+ TclExport.newline)%string]
             ++ flat_map (block whole_part brick_line two_core_slab {[ 1 := brick ]})
                         (seq 0 (length (connectivity two_core_slab))),
          inr wroted).
Proof.
  assert (Hcores : cores_are_indices two_core_slab).
  { unfold cores_are_indices. repeat constructor; cbn; lia. }
  split; [exact two_core_slab_exportable |]. split; [exact Hcores |].
  exact (proj1 (nodes_written_once_per_core whole_part brick_line two_core_slab
                  {[ 1 := brick ]} [] two_core_slab_exportable Hcores)).
Defined.

(** The slab on the cores 1 and 2 cannot be written: core 2 is no column
    of a table of two columns. *)
Lemma core_beyond_count_raises_witness :
  exportable partitioned_slab {[ 1 := brick ]}
  /\ cd_Core partitioned_slab !! 2%nat = Some 2
  /\ exists f',
       TclExport.nodes_and_elements whole_part brick_line partitioned_slab
         {[ 1 := brick ]} []
       = (f', inl IndexError).
Proof.
  split; [exact partitioned_slab_exportable |]. split; [reflexivity |].
  eapply (core_beyond_count_raises whole_part brick_line partitioned_slab
            {[ 1 := brick ]} [] 2 _ _ 2 partitioned_slab_exportable).
  - reflexivity.
  - reflexivity.
  - right. cbn. lia.
Defined.

End ExportWitnesses.

(** * Properties of the registry of materials *)

Section RetagFacts.
Import Materials.

Lemma snd_enumerate {A} (l : list A) (a : Z) : map snd (PyDict.enumerate l a) = l.
Proof.
  revert a. induction l as [| x l IH]; intros a; [reflexivity |].
  rewrite enumerate_cons. cbn. rewrite IH. reflexivity.
Qed.

Lemma elem_of_enumerate {A} (l : list A) (a t : Z) (x : A) :
  (t, x) ∈ PyDict.enumerate l a
  <-> exists i, l !! i = Some x /\ t = a + Z.of_nat i.
Proof.
  rewrite list_elem_of_lookup. split.
  - intros [i Hi]. rewrite lookup_enumerate in Hi.
    destruct (l !! i) as [y |] eqn:E; [| discriminate].
    cbn in Hi. injection Hi as <- <-. exists i. split; [exact E | reflexivity].
  - intros (i & Hi & ->). exists i. rewrite lookup_enumerate, Hi. reflexivity.
Qed.

Lemma keys_from_enumerate {A} (l : list A) (a : Z) :
  keys_from a (PyDict.enumerate l a).
Proof.
  apply keys_from_lookup. intros i kv Hi. rewrite lookup_enumerate in Hi.
  destruct (l !! i); [| discriminate]. cbn in Hi. injection Hi as <-. reflexivity.
Qed.

(** The loop of [retag_all] in closed form. *)
Lemma retag_fold (l : list (Z * nat)) :
  forall (h : list Material) (materials : list (Z * nat)) (matTags : gmap nat Z)
         (start a : Z),
  keys_from start materials -> a = start + Z.of_nat (length materials) ->
  fold_left retag_step (PyDict.enumerate l a) (h, materials, matTags)
  = (retag_heap (PyDict.enumerate (map snd l) a) h,
     materials ++ PyDict.enumerate (map snd l) a,
     retag_tags (PyDict.enumerate (map snd l) a) matTags).
Proof.
  induction l as [| [k id] l IH]; intros h materials matTags start a Hkeys Ha.
  - cbn. rewrite app_nil_r. reflexivity.
  - cbn [map snd]. rewrite !enumerate_cons.
    cbn [fold_left retag_step retag_heap retag_tags fst snd].
    rewrite set_new by (apply (get_keys_from_None start materials a Hkeys); lia).
    rewrite (IH _ _ _ start).
    + unfold retag_heap, retag_tags. rewrite <- app_assoc. reflexivity.
    + apply keys_from_app; [exact Hkeys | lia].
    + rewrite length_app. cbn. lia.
Qed.

Lemma retag_heap_length (pairs : list (Z * nat)) :
  forall h, length (retag_heap pairs h) = length h.
Proof.
  induction pairs as [| p pairs IH]; intros h; [reflexivity |].
  cbn. unfold retag_heap in IH. rewrite IH. apply length_alter.
Qed.

Lemma retag_heap_other (pairs : list (Z * nat)) (id : nat) :
  id ∉ map snd pairs ->
  forall h, retag_heap pairs h !! id = h !! id.
Proof.
  induction pairs as [| [t id'] pairs IH]; intros Hid h; [reflexivity |].
  cbn in Hid. rewrite not_elem_of_cons in Hid. destruct Hid as [Hne Hid].
  cbn. unfold retag_heap in IH. rewrite (IH Hid).
  apply list_lookup_alter_ne. congruence.
Qed.

Lemma retag_heap_told (pairs : list (Z * nat)) (t : Z) (id : nat) :
  NoDup (map snd pairs) -> (t, id) ∈ pairs ->
  forall h, retag_heap pairs h !! id = with_tag t <$> h !! id.
Proof.
  induction pairs as [| [t' id'] pairs IH]; intros Hnd Hin h.
  - apply elem_of_nil in Hin. contradiction.
  - cbn in Hnd. apply NoDup_cons in Hnd as [Hfresh Hnd].
    apply elem_of_cons in Hin as [Heq | Hin].
    + injection Heq as <- <-. cbn.
      fold (retag_heap pairs (alter (with_tag t) id h)).
      rewrite (retag_heap_other pairs id Hfresh). apply list_lookup_alter_eq.
    + cbn. fold (retag_heap pairs (alter (with_tag t') id' h)).
      rewrite (IH Hnd Hin). rewrite list_lookup_alter_ne; [reflexivity |].
      intros ->. apply Hfresh. apply list_elem_of_fmap. exists (t, id). split; [reflexivity | exact Hin].
Qed.

Lemma retag_tags_other (pairs : list (Z * nat)) (id : nat) :
  id ∉ map snd pairs ->
  forall mt, retag_tags pairs mt !! id = mt !! id.
Proof.
  induction pairs as [| [t id'] pairs IH]; intros Hid mt; [reflexivity |].
  cbn in Hid. rewrite not_elem_of_cons in Hid. destruct Hid as [Hne Hid].
  cbn. unfold retag_tags in IH. rewrite (IH Hid).
  apply lookup_insert_ne. congruence.
Qed.

Lemma retag_tags_told (pairs : list (Z * nat)) (t : Z) (id : nat) :
  NoDup (map snd pairs) -> (t, id) ∈ pairs ->
  forall mt, retag_tags pairs mt !! id = Some t.
Proof.
  induction pairs as [| [t' id'] pairs IH]; intros Hnd Hin mt.
  - apply elem_of_nil in Hin. contradiction.
  - cbn in Hnd. apply NoDup_cons in Hnd as [Hfresh Hnd].
    apply elem_of_cons in Hin as [Heq | Hin].
    + injection Heq as <- <-. cbn.
      fold (retag_tags pairs (<[id := t]> mt)).
      rewrite (retag_tags_other pairs id Hfresh). apply lookup_insert_eq.
    + cbn. fold (retag_tags pairs (<[id' := t']> mt)). apply (IH Hnd Hin).
Qed.

Lemma retag_tags_inverse (pairs : list (Z * nat)) (t : Z) (id : nat) :
  NoDup (map snd pairs) ->
  retag_tags pairs ∅ !! id = Some t <-> (t, id) ∈ pairs.
Proof.
  intros Hnd. split; [| intros Hin; apply (retag_tags_told pairs t id Hnd Hin)].
  intros Hlook. destruct (decide (id ∈ map snd pairs)) as [Hin | Hout].
  - apply list_elem_of_fmap in Hin as ([t' id'] & Heq & Hin). cbn in Heq. subst id'.
    rewrite (retag_tags_told pairs t' id Hnd Hin) in Hlook. injection Hlook as <-.
    exact Hin.
  - rewrite (retag_tags_other pairs id Hout) in Hlook.
    rewrite lookup_empty in Hlook. discriminate.
Qed.

End RetagFacts.

Section MaterialFacts.
Import Materials.

(** [retag_all] on a dict whose keys increase. *)
Lemma retag_all_sorted (s : Registry) :
  increasing_keys (_materials s) ->
  retag_all s
  = {| heap := retag_heap (PyDict.enumerate (map snd (_materials s)) (_start_tag s))
                          (heap s);
       _materials := PyDict.enumerate (map snd (_materials s)) (_start_tag s);
       _matTags := retag_tags (PyDict.enumerate (map snd (_materials s)) (_start_tag s)) ∅;
       _names := _names s;
       _next_tag := _start_tag s + Z.of_nat (length (_materials s));
       _start_tag := _start_tag s |}.
Proof.
  intros Hinc. unfold retag_all. cbv zeta.
  rewrite (sorted_items_increasing _ Hinc).
  rewrite (retag_fold (_materials s) (heap s) [] ∅ (_start_tag s) (_start_tag s));
    [| apply keys_from_nil | cbn; lia].
  cbn [app]. rewrite length_enumerate, length_map. reflexivity.
Qed.

Lemma retag_all_consistent (s : Registry) :
  increasing_keys (_materials s) -> linked s -> consistent (retag_all s).
Proof.
  intros Hinc (Hnd & Hobj & Hnames).
  rewrite (retag_all_sorted s Hinc).
  set (pairs := PyDict.enumerate (map snd (_materials s)) (_start_tag s)).
  assert (Hids : map snd pairs = map snd (_materials s)) by apply snd_enumerate.
  assert (Hnd' : NoDup (map snd pairs)) by (rewrite Hids; exact Hnd).
  assert (Hold : forall t id, (t, id) ∈ pairs ->
            exists t0, (t0, id) ∈ _materials s).
  { intros t id Hin.
    assert (Hid : id ∈ map snd pairs)
      by (apply list_elem_of_fmap; exists (t, id); split; [reflexivity | exact Hin]).
    rewrite Hids in Hid. apply list_elem_of_fmap in Hid as ([t0 id'] & Heq & Hin0).
    cbn in Heq. subst id'. exists t0. exact Hin0. }
  split; [| split; [| split; [| split]]]; cbn [_materials _start_tag _next_tag heap _names _matTags].
  - apply keys_from_enumerate.
  - unfold pairs. rewrite length_enumerate, length_map. reflexivity.
  - split; [exact Hnd' |]. split.
    + intros t id Hin. destruct (Hold t id Hin) as [t0 Hin0].
      destruct (Hobj t0 id Hin0) as (obj & Hheap & Hname).
      exists (with_tag t obj). split; [| exact Hname].
      cbn [_materials heap]. rewrite (retag_heap_told pairs t id Hnd' Hin), Hheap. reflexivity.
    + intros name id Hname. destruct (Hnames name id Hname) as (Hid & obj & Hheap & Hun).
      cbn [_materials heap]. rewrite Hids. split; [exact Hid |].
      rewrite <- Hids in Hid. apply list_elem_of_fmap in Hid as ([t id'] & Heq & Hin).
      cbn in Heq. subst id'. exists (with_tag t obj).
      rewrite (retag_heap_told pairs t id Hnd' Hin), Hheap. split; [reflexivity | exact Hun].
  - intros t id obj Hin Hheap.
    rewrite (retag_heap_told pairs t id Hnd' Hin) in Hheap.
    destruct (heap s !! id) as [obj0 |]; [| discriminate].
    cbn in Hheap. injection Hheap as <-. reflexivity.
  - intros id t. apply retag_tags_inverse. exact Hnd'.
Qed.

Lemma consistent_increasing (s : Registry) :
  consistent s -> increasing_keys (_materials s).
Proof. intros (Hkeys & _). apply (keys_from_increasing _ _ Hkeys). Qed.

Lemma consistent_lookup (s : Registry) (t : Z) (id : nat) :
  consistent s ->
  (t, id) ∈ _materials s
  <-> _start_tag s <= t
      /\ (_materials s : list (Z * nat)) !! Z.to_nat (t - _start_tag s) = Some (t, id).
Proof.
  intros (Hkeys & _). rewrite keys_from_lookup in Hkeys. split.
  - intros Hin. apply list_elem_of_lookup in Hin as [i Hi].
    pose proof (Hkeys i _ Hi) as Ht. cbn in Ht. subst t.
    split; [lia |]. rewrite <- Hi. f_equal. lia.
  - intros [_ Hi]. apply list_elem_of_lookup. eexists. exact Hi.
Qed.

Lemma consistent_get (s : Registry) (t : Z) (id : nat) :
  consistent s -> PyDict.get (_materials s) t = Some id <-> (t, id) ∈ _materials s.
Proof.
  intros Hs. rewrite (consistent_lookup s t id Hs).
  destruct Hs as (Hkeys & _). rewrite (get_keys_from _ _ t Hkeys).
  rewrite keys_from_lookup in Hkeys. unfold PyDict.dict in *.
  destruct (Z.leb_spec (_start_tag s) t) as [Hle | Hlt].
  - rewrite fmap_Some. split.
    + intros ([t' id'] & E & ->). pose proof (Hkeys _ _ E) as Ht. cbn in Ht. cbn.
      split; [lia |]. rewrite E. do 2 f_equal. lia.
    + intros [_ E]. exists (t, id). split; [exact E | reflexivity].
  - split; [discriminate | intros [H _]; lia].
Qed.

Lemma linked_on_heap (s : Registry) (id : nat) :
  linked s -> id ∈ map snd (_materials s) -> (id < length (heap s))%nat.
Proof.
  intros (_ & Hobj & _) Hid.
  apply list_elem_of_fmap in Hid as ([t id'] & Heq & Hin). cbn in Heq. subst id'.
  destruct (Hobj t id Hin) as (obj & Hheap & _).
  apply lookup_lt_Some in Hheap. exact Hheap.
Qed.

(** A material with a new name goes last, under the next tag. *)
Lemma create_fresh (material_type material_name user_name : string) (s : Registry) :
  consistent s -> _names s !! user_name = None ->
  __init__ material_type material_name user_name s
  = ({| heap := heap s ++ [mkMaterial (_start_tag s + Z.of_nat (length (_materials s)))
                             material_type material_name user_name];
        _materials := _materials s
                      ++ [(_start_tag s + Z.of_nat (length (_materials s)),
                           length (heap s))];
        _matTags := <[length (heap s) := _start_tag s + Z.of_nat (length (_materials s))]>
                      (_matTags s);
        _names := <[user_name := length (heap s)]> (_names s);
        _next_tag := _start_tag s + Z.of_nat (length (_materials s)) + 1;
        _start_tag := _start_tag s |},
      inr (length (heap s))).
Proof.
  intros (Hkeys & Hnext & _) Hfresh. unfold __init__.
  rewrite bool_decide_eq_false_2 by (rewrite Hfresh; apply is_Some_None).
  cbv zeta. rewrite Hnext.
  rewrite set_new by (apply (get_keys_from_None _ _ _ Hkeys); lia).
  reflexivity.
Qed.

Lemma create_consistent (material_type material_name user_name : string)
    (s : Registry) :
  consistent s -> consistent (__init__ material_type material_name user_name s).1.
Proof.
  intros Hs. destruct (_names s !! user_name) as [id0 |] eqn:Hname.
  { unfold __init__. rewrite bool_decide_eq_true_2 by (rewrite Hname; eauto). exact Hs. }
  rewrite (create_fresh _ _ _ s Hs Hname). cbn [fst].
  destruct Hs as (Hkeys & Hnext & Hlinked & Htag & Hinv).
  pose proof Hlinked as (Hnd & Hobj & Hnames).
  set (t := _start_tag s + Z.of_nat (length (_materials s))).
  set (self := length (heap s)).
  assert (Hself : self ∉ map snd (_materials s)).
  { intros Hin. apply (linked_on_heap s self Hlinked) in Hin. unfold self in Hin. lia. }
  assert (Hin' : forall t' id, (t', id) ∈ _materials s ++ [(t, self)]
                   <-> (t', id) ∈ _materials s \/ (t' = t /\ id = self)).
  { intros t' id. rewrite elem_of_app, list_elem_of_singleton.
    split; (intros [H | H]; [left; exact H | right]).
    - injection H as -> ->. auto.
    - destruct H as [-> ->]. reflexivity. }
  split; [| split; [| split; [| split]]];
    cbn [_materials _start_tag _next_tag heap _names _matTags].
  - apply keys_from_app; [exact Hkeys | reflexivity].
  - rewrite length_app. cbn. lia.
  - split; [| split]; cbn [_materials _start_tag _next_tag heap _names _matTags].
    + rewrite map_app. cbn. apply NoDup_app. split; [exact Hnd |]. split.
      * intros id Hid Hid'. apply list_elem_of_singleton in Hid'. subst id. auto.
      * apply NoDup_singleton.
    + intros t' id Hin. apply Hin' in Hin as [Hin | [-> ->]].
      * destruct (Hobj t' id Hin) as (obj & Hheap & Hn). exists obj. split.
        -- rewrite lookup_app_l by (apply lookup_lt_Some in Hheap; exact Hheap). exact Hheap.
        -- rewrite lookup_insert_ne; [exact Hn |]. intros Heq. rewrite <- Heq in Hn. congruence.
      * eexists. split.
        -- rewrite lookup_app_r by (unfold self; lia).
           unfold self. rewrite Nat.sub_diag. reflexivity.
        -- cbn. apply lookup_insert_eq.
    + intros name id Hn. destruct (decide (user_name = name)) as [<- | Hne].
      * rewrite lookup_insert_eq in Hn. injection Hn as <-.
        rewrite map_app. split; [apply elem_of_app; right; cbn; left |].
        eexists. split.
        -- rewrite lookup_app_r by (unfold self; lia).
           unfold self. rewrite Nat.sub_diag. reflexivity.
        -- reflexivity.
      * rewrite lookup_insert_ne in Hn by exact Hne.
        destruct (Hnames name id Hn) as (Hid & obj & Hheap & Hun).
        rewrite map_app. split; [apply elem_of_app; left; exact Hid |].
        exists obj. split; [| exact Hun].
        rewrite lookup_app_l by (apply lookup_lt_Some in Hheap; exact Hheap). exact Hheap.
  - intros t' id obj Hin Hheap. apply Hin' in Hin as [Hin | [-> ->]].
    + destruct (Hobj t' id Hin) as (obj' & Hheap' & _).
      rewrite lookup_app_l in Hheap by (apply lookup_lt_Some in Hheap'; exact Hheap').
      apply (Htag t' id obj Hin Hheap).
    + rewrite lookup_app_r in Hheap by (unfold self; lia).
      unfold self in Hheap. rewrite Nat.sub_diag in Hheap. injection Hheap as <-. reflexivity.
  - intros id t'. rewrite Hin'. destruct (decide (id = self)) as [-> | Hne].
    + rewrite lookup_insert_eq. split.
      * intros [= <-]. right. auto.
      * intros [Hin | [-> _]]; [| reflexivity].
        exfalso. apply Hself. apply list_elem_of_fmap. exists (t', self). auto.
    + rewrite lookup_insert_ne by congruence. rewrite Hinv. split; [auto |].
      intros [Hin | [_ ->]]; [exact Hin | contradiction].
Qed.

Lemma delete_material_absent (t : Z) (s : Registry) :
  PyDict.get (_materials s) t = None -> delete_material t s = (s, inr tt).
Proof. intros H. unfold delete_material. rewrite H. reflexivity. Qed.

Lemma delete_material_present (t : Z) (id0 : nat) (s : Registry) :
  consistent s -> (t, id0) ∈ _materials s ->
  exists obj0,
    heap s !! id0 = Some obj0 /\ tag obj0 = t
    /\ _names s !! user_name obj0 = Some id0
    /\ delete_material t s = (retag_all (popped t id0 obj0 s), inr tt).
Proof.
  intros Hs Hin. pose proof Hs as (_ & _ & (_ & Hobj & _) & Htag & Hinv).
  destruct (Hobj t id0 Hin) as (obj0 & Hheap & Hname).
  exists obj0. split; [exact Hheap |]. split; [apply (Htag t id0 obj0 Hin Hheap) |].
  split; [exact Hname |].
  unfold delete_material.
  rewrite (proj2 (consistent_get s t id0 Hs) Hin), Hheap, Hname. cbv zeta.
  cbn [_matTags]. rewrite (proj2 (Hinv id0 t) Hin). reflexivity.
Qed.

Lemma elem_of_delete_other {A} (l : list A) (i j : nat) (x : A) :
  l !! j = Some x -> i <> j -> x ∈ delete i l.
Proof.
  intros Hj Hne. apply list_elem_of_lookup.
  destruct (decide (j < i)%nat).
  - exists j. rewrite list_lookup_delete_lt by lia. exact Hj.
  - exists (j - 1)%nat. rewrite list_lookup_delete_ge by lia.
    replace (S (j - 1)) with j by lia. exact Hj.
Qed.

Lemma popped_linked (t : Z) (id0 : nat) (obj0 : Material) (s : Registry) :
  consistent s -> (t, id0) ∈ _materials s -> heap s !! id0 = Some obj0 ->
  PyDict.del (_materials s) t = delete (Z.to_nat (t - _start_tag s)) (_materials s)
  /\ (id0 ∉ map snd (_materials (popped t id0 obj0 s)))
  /\ increasing_keys (_materials (popped t id0 obj0 s))
  /\ linked (popped t id0 obj0 s).
Proof.
  intros Hs Hin Hheap.
  pose proof Hs as (Hkeys & _ & (Hnd & Hobj & Hnames) & _ & _).
  apply (consistent_lookup s t id0 Hs) in Hin as Hpos. destruct Hpos as [Hle Hpos].
  unfold PyDict.dict in *.
  set (pos := Z.to_nat (t - _start_tag s)) in *.
  assert (Hdel : PyDict.del (_materials s) t = delete pos (_materials s)).
  { apply (del_keys_from _ _ _ Hkeys). apply lookup_lt_Some in Hpos. lia. }
  assert (Hids : map snd (delete pos (_materials s)) = delete pos (map snd (_materials s)))
    by apply list_fmap_delete.
  assert (Hother : forall id, id ∈ map snd (delete pos (_materials s)) -> id <> id0).
  { intros id Hid ->. rewrite Hids in Hid. apply list_elem_of_lookup in Hid as [j Hj].
    assert (Hp : map snd (_materials s) !! pos = Some id0)
      by (rewrite list_lookup_fmap, Hpos; reflexivity).
    destruct (decide (j < pos)%nat).
    - rewrite list_lookup_delete_lt in Hj by lia.
      pose proof (NoDup_lookup _ _ _ _ Hnd Hj Hp). lia.
    - rewrite list_lookup_delete_ge in Hj by lia.
      pose proof (NoDup_lookup _ _ _ _ Hnd Hj Hp). lia. }
  split; [exact Hdel |]. unfold popped. cbn [_materials heap _names]. rewrite Hdel.
  split; [intros Hid; apply (Hother id0 Hid); reflexivity |].
  split; [apply increasing_keys_delete, (keys_from_increasing _ _ Hkeys) |].
  split; [| split]; cbn [_materials heap _names].
  - rewrite Hids. apply (sublist_NoDup _ _ Hnd). apply sublist_delete.
  - intros t' id Hin'.
    assert (Hne : id <> id0).
    { apply Hother. apply list_elem_of_fmap. exists (t', id). auto. }
    apply list_elem_of_delete_inv in Hin'.
    destruct (Hobj t' id Hin') as (obj & Hheap' & Hn).
    exists obj. split; [exact Hheap' |].
    rewrite lookup_delete_ne; [exact Hn |].
    intros Heq. destruct (Hobj t id0 Hin) as (obj0' & Hheap0 & Hn0).
    rewrite Hheap in Hheap0. injection Hheap0 as <-. congruence.
  - intros name id Hn.
    destruct (decide (user_name obj0 = name)) as [Heq | Hne].
    { rewrite <- Heq, lookup_delete_eq in Hn. discriminate. }
    rewrite lookup_delete_ne in Hn by exact Hne.
    destruct (Hnames name id Hn) as (Hid & obj & Hheap' & Hun).
    split; [| exists obj; auto].
    rewrite Hids. apply list_elem_of_lookup in Hid as [j Hj].
    apply (elem_of_delete_other _ pos j id Hj).
    intros <-. rewrite list_lookup_fmap, Hpos in Hj. cbn in Hj. injection Hj as <-.
    rewrite Hheap in Hheap'. injection Hheap' as <-. contradiction.
Qed.

Lemma delete_material_consistent (t : Z) (s : Registry) :
  consistent s ->
  consistent (delete_material t s).1 /\ (delete_material t s).2 = inr tt.
Proof.
  intros Hs. destruct (PyDict.get (_materials s) t) as [id0 |] eqn:Hget.
  - apply (consistent_get s t id0 Hs) in Hget.
    destruct (delete_material_present t id0 s Hs Hget) as (obj0 & Hheap & _ & _ & ->).
    destruct (popped_linked t id0 obj0 s Hs Hget Hheap) as (_ & _ & Hinc & Hlinked).
    split; [| reflexivity]. apply retag_all_consistent; assumption.
  - rewrite (delete_material_absent t s Hget). split; [exact Hs | reflexivity].
Qed.

Lemma consistent_linked (s : Registry) : consistent s -> linked s.
Proof. intros (_ & _ & H & _). exact H. Qed.

Lemma set_tag_start_consistent (start_number : Z) (s : Registry) :
  consistent s -> consistent (set_tag_start start_number s).1.
Proof.
  intros Hs. unfold set_tag_start. destruct (start_number <? 1); [exact Hs |].
  cbn [fst]. fold (restarted start_number s). apply retag_all_consistent.
  - apply (consistent_increasing s Hs).
  - exact (consistent_linked s Hs).
Qed.

Lemma clear_all_consistent (s : Registry) : consistent (clear_all s).
Proof.
  unfold clear_all.
  split; [| split; [| split; [| split]]]; cbn [_materials _start_tag _next_tag heap _names _matTags].
  - apply keys_from_nil.
  - cbn. lia.
  - split; [constructor |]. split; cbn [_materials _start_tag _next_tag heap _names _matTags].
    + intros t id Hin. apply elem_of_nil in Hin. contradiction.
    + intros name id Hn. rewrite lookup_empty in Hn. discriminate.
  - intros t id obj Hin. apply elem_of_nil in Hin. contradiction.
  - intros id t. rewrite lookup_empty. split; [discriminate |].
    intros Hin. apply elem_of_nil in Hin. contradiction.
Qed.

Lemma class_state_consistent : consistent class_state.
Proof. apply (clear_all_consistent class_state). Qed.

Lemma reachable_consistent (s : Registry) : reachable s -> consistent s.
Proof.
  induction 1 as [| mt mn un s _ IH | t s _ IH | s _ _ | n s _ IH].
  - apply class_state_consistent.
  - apply create_consistent, IH.
  - apply delete_material_consistent, IH.
  - apply clear_all_consistent.
  - apply set_tag_start_consistent, IH.
Qed.

(** Every registry that the class methods can produce from the class
    as it is defined is in order: the tags are consecutive from
    [_start_tag] in the order of the dict, [_next_tag] is the tag after the
    last, every registered material carries the tag it is filed under and
    is filed under its own name, and [_matTags] is the inverse of
    [_materials].  On such a registry [delete_material] never raises. *)
Theorem material_registry_consistent (s : Registry) :
  reachable s ->
  consistent s /\ forall t, (delete_material t s).2 = inr tt.
Proof.
  intros Hs. apply reachable_consistent in Hs. split; [exact Hs |].
  intros t. apply (delete_material_consistent t s Hs).
Qed.

Lemma get_enumerate {A} (l : list A) (a k : Z) :
  PyDict.get (PyDict.enumerate l a) k
  = if a <=? k then l !! Z.to_nat (k - a) else None.
Proof.
  rewrite (get_keys_from a _ k (keys_from_enumerate l a)).
  destruct (a <=? k) eqn:E; [| reflexivity].
  rewrite lookup_enumerate. destruct (l !! Z.to_nat (k - a)); reflexivity.
Qed.

Lemma with_tag_same (obj : Material) : with_tag (tag obj) obj = obj.
Proof. destruct obj; reflexivity. Qed.

(** What [retag_all] does to a registry whose dict has increasing keys:
    the object at place [i] of the dict is filed under [_start_tag + i] and
    told so, and nothing else changes. *)
Lemma retag_all_view (p : Registry) :
  increasing_keys (_materials p) -> linked p ->
  (forall (i : nat) id, map snd (_materials p) !! i = Some id ->
     get_material_by_tag (_start_tag p + Z.of_nat i) (retag_all p) = inr id
     /\ heap (retag_all p) !! id
        = with_tag (_start_tag p + Z.of_nat i) <$> heap p !! id)
  /\ (forall id, id ∉ map snd (_materials p) ->
        heap (retag_all p) !! id = heap p !! id)
  /\ _names (retag_all p) = _names p
  /\ _start_tag (retag_all p) = _start_tag p
  /\ _next_tag (retag_all p) = _start_tag p + Z.of_nat (length (_materials p))
  /\ length (_materials (retag_all p)) = length (_materials p)
  /\ map snd (_materials (retag_all p)) = map snd (_materials p).
Proof.
  intros Hinc (Hnd & _). rewrite (retag_all_sorted p Hinc).
  cbn [_materials _start_tag _next_tag heap _names _matTags].
  split; [| split; [| split; [| split; [| split; [| split]]]]]; try reflexivity.
  - intros i id Hi. split.
    + unfold get_material_by_tag. cbn [_materials]. rewrite get_enumerate.
      replace (_start_tag p <=? _start_tag p + Z.of_nat i) with true
        by (symmetry; apply Z.leb_le; lia).
      replace (Z.to_nat (_start_tag p + Z.of_nat i - _start_tag p)) with i by lia.
      rewrite Hi. reflexivity.
    + apply retag_heap_told.
      * rewrite snd_enumerate. exact Hnd.
      * apply elem_of_enumerate. exists i. auto.
  - intros id Hid. apply retag_heap_other. rewrite snd_enumerate. exact Hid.
  - rewrite length_enumerate, length_map. reflexivity.
  - apply snd_enumerate.
Qed.

Lemma get_material_by_tag_inr (t : Z) (id : nat) (s : Registry) :
  consistent s ->
  get_material_by_tag t s = inr id
  <-> _start_tag s <= t
      /\ (_materials s : list (Z * nat)) !! Z.to_nat (t - _start_tag s) = Some (t, id).
Proof.
  intros Hs. rewrite <- (consistent_lookup s t id Hs), <- (consistent_get s t id Hs).
  unfold get_material_by_tag. destruct (PyDict.get (_materials s) t).
  - split; [intros [= ->]; reflexivity | intros [= ->]; reflexivity].
  - split; discriminate.
Qed.

Lemma registered_object (t : Z) (id : nat) (s : Registry) :
  consistent s -> get_material_by_tag t s = inr id ->
  exists obj, heap s !! id = Some obj /\ tag obj = t
              /\ _names s !! user_name obj = Some id.
Proof.
  intros Hs Hget. apply (get_material_by_tag_inr t id s Hs) in Hget as [_ Hpos].
  assert (Hin : (t, id) ∈ _materials s) by (apply list_elem_of_lookup; eexists; exact Hpos).
  destruct Hs as (_ & _ & (_ & Hobj & _) & Htag & _).
  destruct (Hobj t id Hin) as (obj & Hheap & Hname).
  exists obj. split; [exact Hheap |]. split; [apply (Htag t id obj Hin Hheap) | exact Hname].
Qed.

(** [delete_material] of an unknown tag changes nothing.  Deleting the
    material of tag [t] makes the registry one shorter: the materials with
    smaller tags stay as they are, the materials with greater tags are
    filed one tag lower and their [tag] attribute is rewritten, the name of
    the deleted material is free again, and the deleted object itself
    still carries the tag [t]. *)
Theorem delete_material_shifts (t : Z) (s : Registry) :
  consistent s ->
  (get_material_by_tag t s = inl (NoMaterialWithTag t) ->
   delete_material t s = (s, inr tt))
  /\ (forall id0, get_material_by_tag t s = inr id0 ->
      let s' := (delete_material t s).1 in
      length (_materials s') = (length (_materials s) - 1)%nat
      /\ (forall k id, get_material_by_tag k s = inr id -> k < t ->
            get_material_by_tag k s' = inr id /\ heap s' !! id = heap s !! id)
      /\ (forall k id, get_material_by_tag k s = inr id -> t < k ->
            get_material_by_tag (k - 1) s' = inr id
            /\ heap s' !! id = with_tag (k - 1) <$> heap s !! id)
      /\ heap s' !! id0 = heap s !! id0
      /\ _matTags s' !! id0 = None
      /\ exists obj0, heap s !! id0 = Some obj0 /\ tag obj0 = t
                      /\ _names s' = delete (user_name obj0) (_names s)).
Proof.
  intros Hs. split.
  { intros Hget. apply delete_material_absent. unfold get_material_by_tag in Hget.
    destruct (PyDict.get (_materials s) t); [discriminate | reflexivity]. }
  intros id0 Hget0. cbv zeta.
  apply (get_material_by_tag_inr t id0 s Hs) in Hget0 as [Hle Hpos].
  assert (Hin : (t, id0) ∈ _materials s) by (apply list_elem_of_lookup; eexists; exact Hpos).
  destruct (delete_material_present t id0 s Hs Hin) as (obj0 & Hheap0 & Htag0 & Hname0 & ->).
  destruct (popped_linked t id0 obj0 s Hs Hin Hheap0) as (Hdel & Hout & Hinc & Hlinked).
  destruct (retag_all_view _ Hinc Hlinked) as (Hat & Hother & Hnames & _ & _ & Hlen & Hids).
  pose proof (retag_all_consistent _ Hinc Hlinked) as (_ & _ & _ & _ & Hinv').
  cbn [fst].
  change (heap (popped t id0 obj0 s)) with (heap s) in *.
  change (_start_tag (popped t id0 obj0 s)) with (_start_tag s) in *.
  change (_names (popped t id0 obj0 s)) with (delete (user_name obj0) (_names s)) in *.
  assert (Hm : _materials (popped t id0 obj0 s)
               = delete (Z.to_nat (t - _start_tag s)) (_materials s)) by exact Hdel.
  rewrite Hm in Hat, Hother, Hlen, Hids, Hout. clear Hm. unfold PyDict.dict in *.
  set (pos := Z.to_nat (t - _start_tag s)) in *.
  split; [| split; [| split; [| split; [| split]]]].
  - rewrite Hlen. rewrite length_delete; [reflexivity |]. eauto.
  - intros k id Hget Hlt.
    destruct (registered_object k id s Hs Hget) as (obj & Hheap & Htag & _).
    apply (get_material_by_tag_inr k id s Hs) in Hget as [Hk Hi].
    destruct (Hat (Z.to_nat (k - _start_tag s)) id) as [Hget' Hheap'].
    { rewrite list_fmap_delete, list_lookup_delete_lt by (unfold pos; lia).
      rewrite list_lookup_fmap, Hi. reflexivity. }
    replace (_start_tag s + Z.of_nat (Z.to_nat (k - _start_tag s))) with k in * by lia.
    split; [exact Hget' |]. rewrite Hheap', Hheap. cbn. rewrite <- Htag, with_tag_same.
    reflexivity.
  - intros k id Hget Hlt.
    apply (get_material_by_tag_inr k id s Hs) in Hget as [Hk Hi].
    destruct (Hat (Z.to_nat (k - 1 - _start_tag s)) id) as [Hget' Hheap'].
    { rewrite list_fmap_delete, list_lookup_delete_ge by (unfold pos; lia).
      replace (S (Z.to_nat (k - 1 - _start_tag s))) with (Z.to_nat (k - _start_tag s))
        by lia.
      rewrite list_lookup_fmap, Hi. reflexivity. }
    replace (_start_tag s + Z.of_nat (Z.to_nat (k - 1 - _start_tag s))) with (k - 1) in *
      by lia.
    split; [exact Hget' | exact Hheap'].
  - apply Hother. exact Hout.
  - destruct (_matTags (retag_all (popped t id0 obj0 s)) !! id0) as [t' |] eqn:E;
      [| reflexivity].
    exfalso. apply Hout. apply Hinv' in E. rewrite <- Hids.
    apply list_elem_of_fmap. exists (t', id0). auto.
  - exists obj0. auto.
Qed.

(** [set_tag_start] refuses a start below 1 and changes nothing then.
    Otherwise it files the materials, in their order, under the new start
    and the tags after it, rewrites their [tag] attributes, and sets
    [_next_tag] to the tag after the last; the names are untouched. *)
Theorem set_tag_start_renumbers (start_number : Z) (s : Registry) :
  consistent s ->
  (start_number < 1 -> set_tag_start start_number s = (s, inl TagStartTooSmall))
  /\ (1 <= start_number ->
      let s' := (set_tag_start start_number s).1 in
      (set_tag_start start_number s).2 = inr tt
      /\ _start_tag s' = start_number
      /\ _next_tag s' = start_number + Z.of_nat (length (_materials s))
      /\ _names s' = _names s
      /\ forall k id, get_material_by_tag k s = inr id ->
           get_material_by_tag (start_number + (k - _start_tag s)) s' = inr id
           /\ heap s' !! id
              = with_tag (start_number + (k - _start_tag s)) <$> heap s !! id).
Proof.
  intros Hs. unfold set_tag_start. split.
  { intros Hlt. apply Z.ltb_lt in Hlt. rewrite Hlt. reflexivity. }
  intros Hge. cbv zeta.
  replace (start_number <? 1) with false by (symmetry; apply Z.ltb_ge; lia).
  cbn [fst snd]. fold (restarted start_number s).
  destruct (retag_all_view (restarted start_number s))
    as (Hat & _ & Hnames & Hstart & Hnext & _).
  { apply (consistent_increasing s Hs). }
  { exact (consistent_linked s Hs). }
  split; [reflexivity |]. split; [exact Hstart |]. split; [exact Hnext |].
  split; [exact Hnames |].
  intros k id Hget. apply (get_material_by_tag_inr k id s Hs) in Hget as [Hk Hi].
  destruct (Hat (Z.to_nat (k - _start_tag s)) id) as [Hget' Hheap'].
  { cbn [restarted _materials]. unfold PyDict.dict in *.
    rewrite list_lookup_fmap, Hi. reflexivity. }
  cbn [restarted _start_tag heap] in Hget', Hheap'.
  replace (start_number + Z.of_nat (Z.to_nat (k - _start_tag s)))
    with (start_number + (k - _start_tag s)) in * by lia.
  split; [exact Hget' | exact Hheap'].
Qed.

Lemma get_app_last {V} (d : list (Z * V)) (k k' : Z) (v : V) :
  PyDict.get (d ++ [(k, v)]) k'
  = match PyDict.get d k' with
    | Some x => Some x
    | None => if k =? k' then Some v else None
    end.
Proof.
  induction d as [| [k0 v0] d IH]; cbn; [reflexivity |].
  destruct (k0 =? k'); [reflexivity | exact IH].
Qed.

(** The tags of the registered materials are exactly the tags from
    [_start_tag] up to [_next_tag]: [get_material_by_tag] returns for each
    of them the material that carries the tag, and raises KeyError for
    every other tag.  [get_material_by_name] returns for no name: for the
    name of a registered material it raises the KeyError of [_materials],
    which it looks up at the material object. *)
Theorem material_lookups (s : Registry) :
  consistent s ->
  (forall t, _start_tag s <= t < _next_tag s ->
     exists id obj,
       get_material_by_tag t s = inr id /\ heap s !! id = Some obj
       /\ tag obj = t /\ _matTags s !! id = Some t
       /\ get_material_by_name (user_name obj) s = inl (KeyError_material id))
  /\ (forall t, t < _start_tag s \/ _next_tag s <= t ->
        get_material_by_tag t s = inl (NoMaterialWithTag t))
  /\ (forall name id, get_material_by_name name s <> inr id).
Proof.
  intros Hs. pose proof Hs as (Hkeys & Hnext & _ & _ & Hinv).
  split; [| split].
  - intros t Ht. rewrite Hnext in Ht.
    destruct (lookup_lt_is_Some_2 (_materials s) (Z.to_nat (t - _start_tag s)))
      as [[t' id] Hi]; [lia |].
    pose proof (proj1 (keys_from_lookup _ _) Hkeys _ _ Hi) as Ht'. cbn in Ht'.
    assert (Heq : t' = t) by lia. clear Ht'. subst t'.
    assert (Hget : get_material_by_tag t s = inr id).
    { apply (get_material_by_tag_inr t id s Hs). split; [lia | exact Hi]. }
    destruct (registered_object t id s Hs Hget) as (obj & Hheap & Htag & Hname).
    exists id, obj. split; [exact Hget |]. split; [exact Hheap |]. split; [exact Htag |].
    split.
    + apply Hinv. apply list_elem_of_lookup. eexists. exact Hi.
    + unfold get_material_by_name. rewrite Hname. reflexivity.
  - intros t Ht. unfold get_material_by_tag.
    rewrite (get_keys_from_None _ _ t Hkeys); [reflexivity | lia].
  - intros name id. unfold get_material_by_name.
    destruct (_names s !! name); discriminate.
Qed.

(** A name is held by one registered material at a time.  Creating a
    material under a registered name raises ValueError and changes
    nothing.  Under a new name the material is put on the heap with the
    tag [_next_tag], filed under that tag after the others, which stay as
    they are, and a second material of the same name is refused.  The name
    of a deleted material is free again. *)
Theorem material_names (s : Registry) :
  consistent s ->
  (forall mt mn un, is_Some (_names s !! un) ->
     __init__ mt mn un s = (s, inl (NameExists un)))
  /\ (forall mt mn un, _names s !! un = None ->
      let r := __init__ mt mn un s in
      r.2 = inr (length (heap s))
      /\ heap r.1 !! length (heap s) = Some (mkMaterial (_next_tag s) mt mn un)
      /\ get_material_by_tag (_next_tag s) r.1 = inr (length (heap s))
      /\ _next_tag r.1 = _next_tag s + 1
      /\ (forall k, k <> _next_tag s ->
            get_material_by_tag k r.1 = get_material_by_tag k s)
      /\ (forall id, (id < length (heap s))%nat -> heap r.1 !! id = heap s !! id)
      /\ (forall mt' mn', (__init__ mt' mn' un r.1).2 = inl (NameExists un)))
  /\ (forall t id obj, get_material_by_tag t s = inr id -> heap s !! id = Some obj ->
        _names (delete_material t s).1 !! user_name obj = None).
Proof.
  intros Hs. split; [| split].
  - intros mt mn un Hun. unfold __init__. rewrite bool_decide_eq_true_2 by exact Hun.
    reflexivity.
  - intros mt mn un Hun. cbv zeta. rewrite (create_fresh mt mn un s Hs Hun).
    destruct Hs as (Hkeys & Hnext & _). rewrite <- Hnext. cbn [fst snd heap _next_tag].
    split; [reflexivity |]. split.
    { rewrite lookup_app_r, Nat.sub_diag by lia. reflexivity. }
    assert (Hnone : PyDict.get (_materials s) (_next_tag s) = None)
      by (apply (get_keys_from_None _ _ _ Hkeys); lia).
    split.
    { unfold get_material_by_tag. cbn [_materials].
      rewrite get_app_last, Hnone, Z.eqb_refl. reflexivity. }
    split; [reflexivity |]. split.
    { intros k Hk. unfold get_material_by_tag. cbn [_materials]. rewrite get_app_last.
      destruct (PyDict.get (_materials s) k); [reflexivity |].
      replace (_next_tag s =? k) with false by (symmetry; apply Z.eqb_neq; congruence).
      reflexivity. }
    split.
    { intros id Hid. apply lookup_app_l. exact Hid. }
    intros mt' mn'. unfold __init__ at 1. cbn [_names].
    rewrite bool_decide_eq_true_2; [reflexivity |].
    rewrite lookup_insert_eq. eauto.
  - intros t id obj Hget Hheap.
    apply (get_material_by_tag_inr t id s Hs) in Hget as [_ Hpos].
    assert (Hin : (t, id) ∈ _materials s) by (apply list_elem_of_lookup; eexists; exact Hpos).
    destruct (delete_material_present t id s Hs Hin) as (obj0 & Hheap0 & _ & _ & ->).
    rewrite Hheap in Hheap0. injection Hheap0 as <-.
    destruct (popped_linked t id obj s Hs Hin Hheap) as (_ & _ & Hinc & Hlinked).
    destruct (retag_all_view _ Hinc Hlinked) as (_ & _ & Hnames & _).
    cbn [fst]. rewrite Hnames. apply lookup_delete_eq.
Qed.

End MaterialFacts.

Section MaterialWitnesses.
Import Materials Scenarios.

Lemma three_materials_reachable : reachable three_materials.
Proof. unfold three_materials. repeat constructor. Qed.

Lemma three_materials_consistent : consistent three_materials.
Proof. apply reachable_consistent, three_materials_reachable. Qed.

(** The registry of three materials is reachable, hence in order. *)
Lemma material_registry_consistent_witness :
  reachable three_materials
  /\ consistent three_materials
  /\ forall t, (delete_material t three_materials).2 = inr tt.
Proof.
  split; [exact three_materials_reachable |].
  exact (material_registry_consistent three_materials three_materials_reachable).
Defined.

(** Deleting the second of three materials files the third under tag 2. *)
Lemma delete_material_shifts_witness :
  consistent three_materials
  /\ get_material_by_tag 3 three_materials = inr 2%nat
  /\ get_material_by_tag 2 (delete_material 2 three_materials).1 = inr 2%nat
  /\ heap (delete_material 2 three_materials).1 !! 2%nat
     = with_tag 2 <$> heap three_materials !! 2%nat.
Proof.
  split; [exact three_materials_consistent |]. split; [reflexivity |].
  exact (proj1 (proj2 (proj2
           (proj2 (delete_material_shifts 2 three_materials three_materials_consistent)
              1%nat eq_refl)))
           3 2%nat eq_refl ltac:(lia)).
Defined.

(** Starting the tags of the three materials at 100. *)
Lemma set_tag_start_renumbers_witness :
  consistent three_materials
  /\ _next_tag (set_tag_start 100 three_materials).1 = 103
  /\ get_material_by_tag 102 (set_tag_start 100 three_materials).1 = inr 2%nat.
Proof.
  split; [exact three_materials_consistent |].
  destruct (proj2 (set_tag_start_renumbers 100 three_materials three_materials_consistent)
              ltac:(lia)) as (_ & _ & Hnext & _ & Hat).
  split; [exact Hnext |]. exact (proj1 (Hat 3 2%nat eq_refl)).
Defined.

(** The second of the three materials is found by its tag, not by its name. *)
Lemma material_lookups_witness :
  consistent three_materials
  /\ get_material_by_tag 2 three_materials = inr 1%nat
  /\ get_material_by_tag 4 three_materials = inl (NoMaterialWithTag 4)
  /\ forall id, get_material_by_name "Sand" three_materials <> inr id.
Proof.
  split; [exact three_materials_consistent |]. split; [reflexivity |].
  destruct (material_lookups three_materials three_materials_consistent)
    as (_ & Hout & Hname).
  split; [apply Hout; right; change (_next_tag three_materials) with 4; lia | apply Hname].
Defined.

(** A fourth material takes tag 4; a second "Sand" is refused. *)
Lemma material_names_witness :
  consistent three_materials
  /\ __init__ "nDMaterial" "ElasticIsotropic" "Sand" three_materials
     = (three_materials, inl (NameExists "Sand"))
  /\ get_material_by_tag 4
       (__init__ "nDMaterial" "ElasticIsotropic" "Silt" three_materials).1
     = inr 3%nat.
Proof.
  split; [exact three_materials_consistent |].
  destruct (material_names three_materials three_materials_consistent)
    as (Hdup & Hnew & _).
  split.
  - apply Hdup. exists 1%nat. reflexivity.
  - exact (proj1 (proj2 (proj2 (Hnew "nDMaterial" "ElasticIsotropic" "Silt"
                                  eq_refl)))).
Defined.

End MaterialWitnesses.

(** * Properties of the registry of material types *)

Section MaterialRegistryFacts.
Import MaterialRegistry.

Lemma str_get_set_eq {V} (d : list (string * V)) (k : string) (v : V) :
  get (set d k v) k = Some v.
Proof.
  induction d as [| [k' v'] d IH]; cbn.
  - rewrite String.eqb_refl. reflexivity.
  - destruct (String.eqb k' k) eqn:E; cbn.
    + rewrite String.eqb_refl. reflexivity.
    + rewrite E. exact IH.
Qed.

Lemma str_get_set_ne {V} (d : list (string * V)) (k k0 : string) (v : V) :
  k <> k0 -> get (set d k v) k0 = get d k0.
Proof.
  intros Hne. induction d as [| [k' v'] d IH]; cbn.
  - destruct (String.eqb_spec k k0); [contradiction | reflexivity].
  - destruct (String.eqb_spec k' k) as [-> | Hk]; cbn.
    + destruct (String.eqb_spec k k0); [contradiction | reflexivity].
    + destruct (String.eqb k' k0); [reflexivity | exact IH].
Qed.

Lemma str_get_keys {V} (d : list (string * V)) (k : string) :
  is_Some (get d k) <-> k ∈ keys d.
Proof.
  unfold keys. induction d as [| [k' v'] d IH]; cbn.
  - split; [intros [? ?]; discriminate | intros H; apply elem_of_nil in H; contradiction].
  - rewrite elem_of_cons. destruct (String.eqb_spec k' k) as [-> | Hk].
    + split; [auto | eauto].
    + rewrite IH. split; [auto | intros [-> | H]; [contradiction | exact H]].
Qed.

Lemma str_keys_set {V} (d : list (string * V)) (k : string) (v : V) :
  keys (set d k v) = keys_with (keys d) k.
Proof.
  unfold keys, keys_with. induction d as [| [k' v'] d IH]; cbn.
  - rewrite bool_decide_eq_false_2 by apply not_elem_of_nil. reflexivity.
  - destruct (String.eqb_spec k' k) as [-> | Hk]; cbn.
    + rewrite bool_decide_eq_true_2 by left. reflexivity.
    + rewrite IH. destruct (decide (k ∈ map fst d)) as [Hin | Hout].
      * rewrite !bool_decide_eq_true_2; [reflexivity | right; exact Hin | exact Hin].
      * rewrite !bool_decide_eq_false_2; [reflexivity | | exact Hout].
        rewrite not_elem_of_cons. split; [congruence | exact Hout].
Qed.

Lemma str_set_set {V} (d : list (string * V)) (k : string) (v w : V) :
  set (set d k v) k w = set d k w.
Proof.
  induction d as [| [k' v'] d IH]; cbn.
  - rewrite String.eqb_refl. reflexivity.
  - destruct (String.eqb k' k) eqn:E; cbn.
    + rewrite String.eqb_refl. reflexivity.
    + rewrite E, IH. reflexivity.
Qed.

Section Registered.
Context {Class Kwargs Instance : Type}.
Variable call : Class -> string -> Kwargs -> Instance.

(** [register_material_type] in one assignment. *)
Lemma register_material_type_set (category name : string) (cls : Class)
    (types : list (string * list (string * Class))) :
  register_material_type category name cls types
  = set types category (set (default [] (get types category)) name cls).
Proof.
  unfold register_material_type. destruct (get types category) as [d |] eqn:E.
  - rewrite E. reflexivity.
  - cbv zeta. rewrite str_get_set_eq. cbn [default]. apply str_set_set.
Qed.

(** A registered type is the one created: after
    [register_material_type(category, name, cls)], [create_material] of
    that category and name calls [cls], and every other pair of category
    and name resolves as before.  [create_material] returns an instance
    exactly for the registered pairs, raising KeyError for the category
    first and for the type second.  The categories and the types of a
    category keep their order; a new one goes last and none is listed
    twice. *)
Theorem registered_type_is_created (category name : string) (cls : Class)
    (types : list (string * list (string * Class))) :
  let types' := register_material_type category name cls types in
  (forall c n, registered_class types' c n
               = if bool_decide (c = category /\ n = name) then Some cls
                 else registered_class types c n)
  /\ (forall c n user_name kwargs (registry : list (string * list (string * Class))),
        create_material call c n user_name kwargs registry
        = match registered_class registry c n with
          | Some material_class => inr (call material_class user_name kwargs)
          | None =>
              if bool_decide (c ∈ get_material_categories registry)
              then inl (TypeNotRegistered n c)
              else inl (CategoryNotRegistered c)
          end)
  /\ get_material_categories types'
     = keys_with (get_material_categories types) category
  /\ get_material_types category types'
     = keys_with (get_material_types category types) name
  /\ (forall c, c <> category ->
        get_material_types c types' = get_material_types c types).
Proof.
  cbv zeta. rewrite register_material_type_set.
  split; [| split; [| split; [| split]]].
  - intros c n. unfold registered_class.
    destruct (decide (c = category)) as [-> | Hc].
    + rewrite str_get_set_eq. cbn.
      destruct (decide (n = name)) as [-> | Hn].
      * rewrite str_get_set_eq. rewrite bool_decide_eq_true_2 by auto. reflexivity.
      * rewrite str_get_set_ne by congruence.
        rewrite bool_decide_eq_false_2 by (intros [_ ?]; contradiction).
        destruct (get types category); reflexivity.
    + rewrite str_get_set_ne by congruence.
      rewrite bool_decide_eq_false_2 by (intros [? _]; contradiction). reflexivity.
  - intros c n user_name kwargs registry.
    unfold create_material, registered_class, get_material_categories.
    destruct (get registry c) as [d |] eqn:E; cbn.
    + destruct (get d n); [reflexivity |].
      rewrite bool_decide_eq_true_2; [reflexivity |].
      apply str_get_keys. rewrite E. eauto.
    + rewrite bool_decide_eq_false_2; [reflexivity |].
      rewrite <- str_get_keys, E. apply is_Some_None.
  - apply str_keys_set.
  - unfold get_material_types. rewrite str_get_set_eq. cbn [default].
    apply str_keys_set.
  - intros c Hc. unfold get_material_types. rewrite str_get_set_ne by congruence.
    reflexivity.
Qed.

End Registered.

End MaterialRegistryFacts.

(** * Properties of the export of the mp constraints *)

Section PrecomputeFacts.
Import MpExport.

Lemma insert_map_seq (g : nat -> bool) (n p : nat) :
  (p < n)%nat ->
  <[p := true]> (map g (seq 0 n)) = map (fun q => g q || Nat.eqb q p) (seq 0 n).
Proof.
  intros Hp. apply list_eq. intros i.
  destruct (decide (i = p)) as [-> | Hne].
  - rewrite list_lookup_insert_eq by (rewrite length_map, length_seq; exact Hp).
    rewrite list_lookup_fmap, lookup_seq_lt by exact Hp. cbn.
    rewrite Nat.eqb_refl, orb_true_r. reflexivity.
  - rewrite list_lookup_insert_ne by congruence. rewrite !list_lookup_fmap.
    destruct (seq 0 n !! i) as [q |] eqn:E; [| reflexivity]. cbn.
    apply lookup_seq in E as [-> _]. cbn.
    rewrite (proj2 (Nat.eqb_neq i p) Hne), orb_false_r. reflexivity.
Qed.

Lemma np_set_map_seq (g : nat -> bool) (n : nat) (k : Z) :
  0 <= k < Z.of_nat n ->
  np_set (map g (seq 0 n)) k
  = inr (map (fun q => g q || (Z.of_nat q =? k)) (seq 0 n)).
Proof.
  intros Hk. unfold np_set. rewrite length_map, length_seq.
  rewrite (np_index_nonneg n k Hk). rewrite insert_map_seq by lia.
  f_equal. apply map_ext. intros q. f_equal.
  destruct (Nat.eqb_spec q (Z.to_nat k)), (Z.eqb_spec (Z.of_nat q) k); try reflexivity; lia.
Qed.

(** The inner loop, for slaves that are tags of nodes. *)
Lemma mark_slaves_in_range (n : nat) (master_id : Z) (slaves : list Z) :
  Forall (fun s => 1 <= s <= Z.of_nat n) slaves ->
  forall (g : nat -> bool) (maps : Maps),
  slave_nodes maps = map g (seq 0 n) ->
  exists maps',
    mark_slaves master_id slaves maps = inr maps'
    /\ master_nodes maps' = master_nodes maps
    /\ constraint_map maps' = constraint_map maps
    /\ slave_nodes maps'
       = map (fun p => g p || existsb (fun x => x - 1 =? Z.of_nat p) slaves) (seq 0 n)
    /\ forall s, constraint_map_rev maps' !! s
                 = if existsb (fun x => x - 1 =? s) slaves then Some master_id
                   else constraint_map_rev maps !! s.
Proof.
  induction 1 as [| x slaves Hx _ IH]; intros g maps Hg.
  - exists maps. cbn. repeat split; try reflexivity.
    rewrite Hg. apply map_ext. intros p. rewrite orb_false_r. reflexivity.
  - cbn [mark_slaves]. rewrite Hg, np_set_map_seq by lia.
    destruct (IH (fun q => g q || (Z.of_nat q =? x - 1))
                 {| master_nodes := master_nodes maps;
                    slave_nodes := map (fun q => g q || (Z.of_nat q =? x - 1)) (seq 0 n);
                    constraint_map := constraint_map maps;
                    constraint_map_rev := <[x - 1 := master_id]> (constraint_map_rev maps) |}
                 eq_refl) as (maps' & Hrun & Hm & Hc & Hs & Hrev).
    exists maps'. split; [exact Hrun |]. split; [exact Hm |]. split; [exact Hc |].
    split.
    + rewrite Hs. apply map_ext. intros p. cbn [existsb].
      rewrite <- orb_assoc. f_equal. f_equal. apply Z.eqb_sym.
    + intros s. rewrite Hrev. cbn [existsb constraint_map_rev].
      destruct (existsb (fun x0 => x0 - 1 =? s) slaves).
      * rewrite orb_true_r. reflexivity.
      * rewrite orb_false_r. destruct (Z.eqb_spec (x - 1) s) as [<- | Hne].
        -- apply lookup_insert_eq.
        -- apply lookup_insert_ne. exact Hne.
Qed.

Lemma last_with_master_app (done : list EqualDOF) (c : EqualDOF) (k : Z) :
  last_with_master (done ++ [c]) k
  = if masterNode c - 1 =? k then Some c else last_with_master done k.
Proof. unfold last_with_master. rewrite rev_unit. reflexivity. Qed.

Lemma last_master_of_app (done : list EqualDOF) (c : EqualDOF) (s : Z) :
  last_master_of (done ++ [c]) s
  = if has_slave s c then Some (masterNode c - 1) else last_master_of done s.
Proof.
  unfold last_master_of. rewrite rev_unit. cbn. destruct (has_slave s c); reflexivity.
Qed.

Lemma is_master_app (done : list EqualDOF) (c : EqualDOF) (k : Z) :
  is_master (done ++ [c]) k = is_master done k || (masterNode c - 1 =? k).
Proof. unfold is_master. rewrite existsb_app. cbn. rewrite orb_false_r. reflexivity. Qed.

Lemma is_slave_app (done : list EqualDOF) (c : EqualDOF) (s : Z) :
  is_slave (done ++ [c]) s = is_slave done s || has_slave s c.
Proof. unfold is_slave. rewrite existsb_app. cbn. rewrite orb_false_r. reflexivity. Qed.

(** The loop over the constraints, for constraints on nodes of the mesh. *)
Lemma precompute_stands_for (n : nat) (rest : list EqualDOF) :
  Forall (on_nodes n) rest ->
  forall (done : list EqualDOF) (maps : Maps),
  stands_for n done maps ->
  exists maps', precompute rest maps = inr maps' /\ stands_for n (done ++ rest) maps'.
Proof.
  induction 1 as [| c rest (Hm & _ & Hs) _ IH]; intros done maps Hmaps.
  - exists maps. rewrite app_nil_r. split; [reflexivity | exact Hmaps].
  - destruct Hmaps as (Hmaster & Hslave & Hcm & Hrev).
    cbn [precompute]. rewrite Hmaster, np_set_map_seq by lia.
    destruct (mark_slaves_in_range n (masterNode c - 1) (slaveNodes c) Hs
                (fun p => is_slave done (Z.of_nat p))
                {| master_nodes := map (fun q => is_master done (Z.of_nat q)
                                                 || (Z.of_nat q =? masterNode c - 1))
                                       (seq 0 n);
                   slave_nodes := slave_nodes maps;
                   constraint_map := <[masterNode c - 1 := c]> (constraint_map maps);
                   constraint_map_rev := constraint_map_rev maps |} Hslave)
      as (maps1 & Hrun & Hm1 & Hc1 & Hs1 & Hrev1).
    rewrite Hrun.
    destruct (IH (done ++ [c]) maps1) as (maps' & Hrun' & Hmaps').
    { split; [| split; [| split]].
      - rewrite Hm1. cbn [master_nodes]. apply map_ext. intros p.
        rewrite is_master_app. f_equal. apply Z.eqb_sym.
      - rewrite Hs1. apply map_ext. intros p. rewrite is_slave_app. reflexivity.
      - intros k. rewrite Hc1, last_with_master_app. cbn [constraint_map].
        destruct (Z.eqb_spec (masterNode c - 1) k) as [-> | Hne].
        + apply lookup_insert_eq.
        + rewrite lookup_insert_ne by exact Hne. apply Hcm.
      - intros s. rewrite Hrev1, last_master_of_app. cbn [constraint_map_rev].
        fold (has_slave s c). destruct (has_slave s c); [reflexivity | apply Hrev]. }
    exists maps'. split; [exact Hrun' |]. rewrite <- app_assoc in Hmaps'. exact Hmaps'.
Qed.

Lemma zeros_stand_for (n : nat) :
  stands_for n [] {| master_nodes := replicate n false; slave_nodes := replicate n false;
                     constraint_map := ∅; constraint_map_rev := ∅ |}.
Proof.
  assert (Hz : replicate n false = map (fun _ : nat => false) (seq 0 n)).
  { apply list_eq. intros i. rewrite list_lookup_fmap.
    destruct (decide (i < n)%nat).
    - rewrite lookup_replicate_2, lookup_seq_lt by lia. reflexivity.
    - rewrite (lookup_ge_None_2 (replicate n false) i) by (rewrite length_replicate; lia).
      rewrite lookup_seq_ge by lia. reflexivity. }
  split; [exact Hz |]. split; [exact Hz |]. split; intros k; apply lookup_empty.
Qed.

End PrecomputeFacts.

Section WriteCoreFacts.
Import MpExport.

Lemma zip_with_map_seq {A B C} (h : A -> B -> C) (g1 : nat -> A) (g2 : nat -> B)
    (l : list nat) :
  zip_with h (map g1 l) (map g2 l) = map (fun p => h (g1 p) (g2 p)) l.
Proof. induction l as [| x l IH]; cbn; [reflexivity | rewrite IH; reflexivity]. Qed.

Lemma where_map_seq (n : nat) (g : Z -> bool) :
  where_ (map (fun p => g (Z.of_nat p)) (seq 0 n)) = nodes_where n g.
Proof.
  unfold where_, nodes_where. rewrite length_map, length_seq. f_equal.
  apply List.filter_ext_in. intros p Hp. apply in_seq in Hp.
  rewrite list_lookup_fmap, lookup_seq_lt by lia. reflexivity.
Qed.

Lemma elem_of_nodes_where (n : nat) (g : Z -> bool) (k : Z) :
  k ∈ nodes_where n g <-> 0 <= k < Z.of_nat n /\ g k = true.
Proof.
  unfold nodes_where. rewrite list_elem_of_fmap. split.
  - intros (p & -> & Hp). apply list_elem_of_In, filter_In in Hp as [Hp Hg].
    apply in_seq in Hp. split; [lia | exact Hg].
  - intros [Hk Hg]. exists (Z.to_nat k). split; [lia |].
    apply list_elem_of_In, filter_In. split; [apply in_seq; lia |].
    rewrite Z2Nat.id by lia. exact Hg.
Qed.

Lemma core_node_indices_cells (mesh : Mesh) (cells : list nat) :
  Forall (fun i => (i < length (connectivity mesh))%nat) cells ->
  core_node_indices mesh cells = inr (flat_map (cell_points_of mesh) cells).
Proof.
  induction 1 as [| i cells Hi _ IH]; [reflexivity |].
  cbn [core_node_indices flat_map]. unfold cell_points_of at 1.
  destruct (lookup_lt_is_Some_2 (connectivity mesh) i Hi) as [pids ->].
  rewrite IH. reflexivity.
Qed.

Lemma add_masters_total (rev_map : gmap Z Z) (slaves : list Z) :
  (forall s, s ∈ slaves -> is_Some (rev_map !! s)) ->
  forall masters,
  add_masters rev_map slaves masters = inr (masters ++ omap (fun s => rev_map !! s) slaves).
Proof.
  induction slaves as [| s slaves IH]; intros Hall masters.
  - cbn. rewrite app_nil_r. reflexivity.
  - destruct (Hall s ltac:(left)) as [k Hk]. cbn. rewrite Hk.
    rewrite IH by (intros s' Hs'; apply Hall; right; exact Hs').
    rewrite <- app_assoc. reflexivity.
Qed.

Lemma slave_lists_of_total (cmap : gmap Z EqualDOF) (masters : list Z) :
  (forall k, k ∈ masters -> is_Some (cmap !! k)) ->
  slave_lists_of cmap masters
  = inr (map slaveNodes (omap (fun k => cmap !! k) masters)).
Proof.
  induction masters as [| k masters IH]; intros Hall; [reflexivity |].
  destruct (Hall k ltac:(left)) as [c Hc]. cbn. rewrite Hc.
  rewrite IH by (intros k' Hk'; apply Hall; right; exact Hk'). reflexivity.
Qed.

Lemma take_map_seq (g : nat -> bool) (n : nat) (indices : list Z) :
  Forall (fun i => 0 <= i < Z.of_nat n) indices ->
  take_ (map g (seq 0 n)) indices = inr (map (fun i => g (Z.to_nat i)) indices).
Proof.
  induction 1 as [| i indices Hi _ IH]; [reflexivity |].
  cbn [take_ map]. rewrite length_map, length_seq.
  rewrite (np_index_nonneg n i Hi). cbn.
  rewrite list_lookup_fmap, lookup_seq_lt by lia. cbn.
  rewrite IH. reflexivity.
Qed.

Lemma compress_map {A} (g : A -> bool) (l : list A) :
  compress (map g l) l = List.filter g l.
Proof.
  induction l as [| x l IH]; cbn; [reflexivity |].
  rewrite IH. reflexivity.
Qed.

Lemma unique_nil_iff (l : list Z) : unique l = [] <-> l = [].
Proof.
  split; [| intros ->; reflexivity].
  destruct l as [| x l]; [reflexivity |]. intros H.
  assert (Hx : x ∈ unique (x :: l)) by (apply elem_of_unique; left).
  rewrite H in Hx. apply elem_of_nil in Hx. contradiction.
Qed.

Lemma find_rev_is_Some {A} (g : A -> bool) (l : list A) :
  existsb g l = true -> is_Some (List.find g (rev l)).
Proof.
  intros H. apply existsb_exists in H as (x & Hx & Hg).
  destruct (List.find g (rev l)) as [y |] eqn:E; [eauto |].
  exfalso. pose proof (find_none _ _ E x) as Hf.
  rewrite Hf in Hg; [discriminate |]. apply in_rev in Hx. exact Hx.
Qed.

Lemma last_with_master_Some (mp : list EqualDOF) (k : Z) (c : EqualDOF) :
  last_with_master mp k = Some c -> c ∈ mp /\ masterNode c - 1 = k.
Proof.
  unfold last_with_master. intros H. apply find_some in H as [Hin Hk].
  split; [apply list_elem_of_In, in_rev; exact Hin | apply Z.eqb_eq; exact Hk].
Qed.

Lemma last_master_of_Some (mp : list EqualDOF) (s k : Z) :
  last_master_of mp s = Some k ->
  exists c, c ∈ mp /\ masterNode c - 1 = k /\ has_slave s c = true.
Proof.
  unfold last_master_of. intros H. apply fmap_Some in H as (c & Hc & ->).
  apply find_some in Hc as [Hin Hs]. exists c.
  split; [apply list_elem_of_In, in_rev; exact Hin |]. auto.
Qed.

Lemma is_master_last (mp : list EqualDOF) (k : Z) :
  is_master mp k = true <-> is_Some (last_with_master mp k).
Proof.
  split.
  - apply find_rev_is_Some.
  - intros [c Hc]. apply last_with_master_Some in Hc as [Hin Hk].
    apply existsb_exists. exists c. split; [apply list_elem_of_In; exact Hin |].
    apply Z.eqb_eq. exact Hk.
Qed.

Lemma is_slave_last (mp : list EqualDOF) (s : Z) :
  is_slave mp s = true -> is_Some (last_master_of mp s).
Proof.
  intros H. unfold last_master_of.
  destruct (find_rev_is_Some (has_slave s) mp H) as [c ->]. eauto.
Qed.

(** The masters written for a core are nodes of the mesh and have a
    constraint. *)
Lemma active_master_known (mesh : Mesh) (mp : list EqualDOF) (core k : Z) :
  Forall (on_nodes (length (points mesh))) mp ->
  k ∈ active_masters_of mesh mp core ->
  0 <= k < Z.of_nat (length (points mesh)) /\ is_Some (last_with_master mp k).
Proof.
  intros Hmp Hk. unfold active_masters_of in Hk. cbv zeta in Hk.
  apply elem_of_unique, elem_of_app in Hk as [Hk | Hk].
  - apply elem_of_nodes_where in Hk as [Hrange Hg].
    apply andb_true_iff in Hg as [Hm _]. split; [exact Hrange |].
    apply is_master_last. exact Hm.
  - apply list_elem_of_omap in Hk as (s & _ & Hs).
    apply last_master_of_Some in Hs as (c & Hc & Hck & _).
    rewrite Forall_forall in Hmp. destruct (Hmp c Hc) as (Hm & _). split; [lia |].
    apply is_master_last. apply existsb_exists. exists c.
    split; [apply list_elem_of_In; exact Hc | apply Z.eqb_eq; exact Hck].
Qed.

Lemma written_constraint_known (mesh : Mesh) (mp : list EqualDOF) (core : Z)
    (c : EqualDOF) :
  c ∈ written_constraints mesh mp core ->
  c ∈ mp /\ masterNode c - 1 ∈ active_masters_of mesh mp core
  /\ last_with_master mp (masterNode c - 1) = Some c.
Proof.
  unfold written_constraints. intros H.
  apply list_elem_of_omap in H as (k & Hk & Hc).
  destruct (last_with_master_Some mp k c Hc) as [Hin <-]. auto.
Qed.

Lemma elem_of_concat {A} (x : A) (ls : list (list A)) :
  x ∈ concat ls <-> exists l, x ∈ l /\ l ∈ ls.
Proof.
  rewrite list_elem_of_In, in_concat. split.
  - intros (l & Hl & Hx). exists l. rewrite !list_elem_of_In. auto.
  - intros (l & Hx & Hl). exists l. rewrite <- !list_elem_of_In. auto.
Qed.

Lemma omap_pointwise {A B} (g1 g2 : A -> option B) (l : list A) :
  (forall x, g1 x = g2 x) -> omap g1 l = omap g2 l.
Proof.
  intros H. induction l as [| x l IH]; [reflexivity |].
  cbn. rewrite (H x), IH. reflexivity.
Qed.

Lemma compress_zip_map {A} (h : A -> bool -> bool) (g : A -> bool) (l : list A) :
  compress (zip_with h l (map g l)) l = List.filter (fun x => h x (g x)) l.
Proof.
  induction l as [| x l IH]; cbn; [reflexivity |].
  rewrite IH. reflexivity.
Qed.

Lemma isin_in_core (mesh : Mesh) (core : Z) (n : nat) :
  isin n (core_points mesh core)
  = map (fun p => in_core mesh core (Z.of_nat p)) (seq 0 n).
Proof.
  unfold isin, in_core. apply map_ext. intros p.
  replace (0 <=? Z.of_nat p) with true by (symmetry; apply Z.leb_le; lia).
  rewrite Nat2Z.id. reflexivity.
Qed.

Lemma in_core_points (mesh : Mesh) (core k : Z) :
  in_core mesh core k = true -> core_points mesh core <> [].
Proof.
  unfold in_core. intros H Hnil. rewrite Hnil in H.
  apply andb_true_iff in H as [_ H]. apply bool_decide_eq_true in H.
  apply elem_of_nil in H. exact H.
Qed.

Lemma active_masters_core (mesh : Mesh) (mp : list EqualDOF) (core k : Z) :
  k ∈ active_masters_of mesh mp core -> core_points mesh core <> [].
Proof.
  unfold active_masters_of. cbv zeta. intros Hk.
  apply elem_of_unique, elem_of_app in Hk as [Hk | Hk].
  - apply elem_of_nodes_where in Hk as [_ Hg].
    apply andb_true_iff in Hg as [_ Hc]. apply (in_core_points _ _ _ Hc).
  - apply list_elem_of_omap in Hk as (s & Hs & _).
    apply elem_of_nodes_where in Hs as [_ Hg].
    apply andb_true_iff in Hg as [_ Hc]. apply (in_core_points _ _ _ Hc).
Qed.

Section Text.
Variable float_str : Q -> string.
Variable constraint_to_tcl : EqualDOF -> string.

Lemma node_line_at_text (mesh : Mesh) (k : Z) :
  length (ndf mesh) = length (points mesh) ->
  0 <= k < Z.of_nat (length (points mesh)) ->
  node_line_at float_str mesh k = inr (node_text float_str mesh (Z.to_nat k)).
Proof.
  intros Hndf Hk. unfold node_line_at, node_text, TclExport.node_line.
  rewrite Hndf, (np_index_nonneg _ k Hk). cbn.
  destruct (lookup_lt_is_Some_2 (points mesh) (Z.to_nat k)) as [node ->]; [lia |].
  destruct (lookup_lt_is_Some_2 (ndf mesh) (Z.to_nat k)) as [nd ->]; [lia |].
  rewrite Z2Nat.id by lia. reflexivity.
Qed.

Lemma write_node_lines_text (mesh : Mesh) (ids : list Z) :
  length (ndf mesh) = length (points mesh) ->
  Forall (fun k => 0 <= k < Z.of_nat (length (points mesh))) ids ->
  forall f,
  write_node_lines float_str mesh ids f
  = (f ++ map (fun k => node_text float_str mesh (Z.to_nat k)) ids, inr tt).
Proof.
  intros Hndf. induction 1 as [| k ids Hk _ IH]; intros f.
  - cbn. rewrite app_nil_r. reflexivity.
  - cbn [write_node_lines map]. rewrite (node_line_at_text mesh k Hndf Hk), IH.
    rewrite <- app_assoc. reflexivity.
Qed.

Lemma write_group_text (mesh : Mesh) (title : string) (sized ids : list Z)
    (f : list string) :
  length (ndf mesh) = length (points mesh) ->
  Forall (fun k => 0 <= k < Z.of_nat (length (points mesh))) ids ->
  (sized = [] <-> ids = []) ->
  write_group float_str mesh title (length sized) ids f
  = (f ++ node_group float_str mesh title ids, inr tt).
Proof.
  intros Hndf Hids Hsize. unfold write_group, node_group.
  destruct ids as [| k ids].
  - rewrite (proj2 Hsize eq_refl). cbn. rewrite app_nil_r. reflexivity.
  - destruct sized as [| x sized]; [discriminate (proj1 Hsize eq_refl) |].
    cbn [length Nat.ltb Nat.leb].
    rewrite (write_node_lines_text mesh (k :: ids) Hndf Hids).
    rewrite <- app_assoc. reflexivity.
Qed.

Lemma write_constraints_text (cmap : gmap Z EqualDOF) (masters : list Z) :
  (forall k, k ∈ masters -> is_Some (cmap !! k)) ->
  forall f,
  write_constraints constraint_to_tcl cmap masters f
  = (f ++ map (constraint_line constraint_to_tcl) (omap (fun k => cmap !! k) masters),
     inr tt).
Proof.
  induction masters as [| k masters IH]; intros Hall f.
  - cbn. rewrite app_nil_r. reflexivity.
  - destruct (Hall k ltac:(left)) as [c Hc]. cbn. rewrite Hc.
    rewrite IH by (intros k' Hk'; apply Hall; right; exact Hk').
    cbn. rewrite <- app_assoc. reflexivity.
Qed.

End Text.

End WriteCoreFacts.

Section MpConstraintFacts.
Import MpExport.
Variable float_str : Q -> string.
Variable constraint_to_tcl : EqualDOF -> string.

(** One turn of the loop over the cores writes the block of the core. *)
Lemma write_core_block (mesh : Mesh) (mp : list EqualDOF) (maps : Maps) (core : Z)
    (f : list string) :
  constrained mesh mp -> stands_for (length (points mesh)) mp maps ->
  write_core float_str constraint_to_tcl mesh maps core f
  = (f ++ mp_block float_str constraint_to_tcl mesh mp core, inr tt).
Proof.
  intros (HCore & Hndf & Hconn & Hmp) (Hmaster & Hslave & Hcmap & Hrev).
  set (n := length (points mesh)) in *.
  unfold write_core. cbv zeta. fold (core_cells mesh core).
  destruct (core_cells mesh core) as [| i0 cells0] eqn:Hcells.
  { unfold mp_block.
    destruct (active_masters_of mesh mp core) as [| k am] eqn:Ham;
      [rewrite app_nil_r; reflexivity |].
    exfalso. apply (active_masters_core mesh mp core k); [rewrite Ham; left |].
    unfold core_points. rewrite Hcells. reflexivity. }
  rewrite <- Hcells.
  rewrite core_node_indices_cells.
  2:{ apply Forall_forall. intros i Hi. unfold core_cells in Hi.
      apply list_elem_of_In, filter_In in Hi as [Hi _]. apply in_seq in Hi. lia. }
  fold (core_points mesh core). fold n.
  rewrite (isin_in_core mesh core n), Hmaster, Hslave.
  rewrite !zip_with_map_seq.
  rewrite (where_map_seq n (fun k => is_master mp k && in_core mesh core k)).
  rewrite (where_map_seq n (fun s => is_slave mp s && in_core mesh core s)).
  rewrite add_masters_total.
  2:{ intros s Hs. apply elem_of_nodes_where in Hs as [_ Hg].
      apply andb_true_iff in Hg as [Hs _]. rewrite Hrev. apply is_slave_last. exact Hs. }
  rewrite (omap_pointwise _ (last_master_of mp) _ Hrev).
  change (unique (nodes_where n (fun k => is_master mp k && in_core mesh core k)
                  ++ omap (last_master_of mp)
                       (nodes_where n (fun s => is_slave mp s && in_core mesh core s))))
    with (active_masters_of mesh mp core).
  unfold mp_block.
  destruct (active_masters_of mesh mp core) as [| k0 am0] eqn:Ham;
    [rewrite app_nil_r; reflexivity |].
  rewrite <- Ham. clear k0 am0 Ham.
  pose proof (fun k => active_master_known mesh mp core k Hmp) as Hknown.
  assert (Hcm : forall k, k ∈ active_masters_of mesh mp core ->
                          is_Some (constraint_map maps !! k)).
  { intros k Hk. rewrite Hcmap. apply (Hknown k Hk). }
  rewrite (slave_lists_of_total _ _ Hcm).
  rewrite (omap_pointwise _ (last_with_master mp) _ Hcmap).
  fold (written_constraints mesh mp core).
  assert (Hwc : forall c, c ∈ written_constraints mesh mp core -> on_nodes n c).
  { intros c Hc. apply written_constraint_known in Hc as [Hc _].
    rewrite Forall_forall in Hmp. apply (Hmp c Hc). }
  assert (Hall : Forall (fun s => 0 <= s < Z.of_nat n)
                   (map (fun s => s - 1)
                        (concat (map slaveNodes (written_constraints mesh mp core))))).
  { apply Forall_forall. intros s Hs.
    apply list_elem_of_fmap in Hs as (x & -> & Hx).
    apply elem_of_concat in Hx as (l & Hx & Hl).
    apply list_elem_of_fmap in Hl as (c & -> & Hc).
    destruct (Hwc c Hc) as (_ & _ & Hs). rewrite Forall_forall in Hs.
    pose proof (Hs x Hx). lia. }
  assert (Ham : Forall (fun k => 0 <= k < Z.of_nat n) (active_masters_of mesh mp core)).
  { apply Forall_forall. intros k Hk. apply (Hknown k Hk). }
  unfold take_slaves.
  replace (existsb (fun l : list Z => match l with [] => true | _ :: _ => false end)
             (map slaveNodes (written_constraints mesh mp core))) with false.
  2:{ symmetry. apply not_true_is_false. intros H.
      apply existsb_exists in H as (l & Hl & Hnil).
      apply list_elem_of_In, list_elem_of_fmap in Hl as (c & -> & Hc).
      destruct (Hwc c Hc) as (_ & Hne & _). destruct (slaveNodes c); [contradiction | discriminate]. }
  rewrite (take_map_seq _ n _ Hall), (take_map_seq _ n _ Ham).
  rewrite map_map, compress_map, compress_zip_map.
  rewrite (List.filter_ext_in
             (fun x => negb (in_core mesh core (Z.of_nat (Z.to_nat x))))
             (fun k => negb (in_core mesh core k)) (active_masters_of mesh mp core)).
  2:{ intros k Hk. rewrite Forall_forall in Ham.
      apply list_elem_of_In, Ham in Hk. rewrite Z2Nat.id by lia. reflexivity. }
  rewrite (List.filter_ext_in
             (fun x => (x <? Z.of_nat n) && (0 <=? x)
                       && negb (in_core mesh core (Z.of_nat (Z.to_nat x))))
             (fun s => negb (in_core mesh core s))
             (map (fun s => s - 1)
                  (concat (map slaveNodes (written_constraints mesh mp core))))).
  2:{ intros k Hk. rewrite Forall_forall in Hall.
      apply list_elem_of_In, Hall in Hk. rewrite Z2Nat.id by lia.
      replace (k <? Z.of_nat n) with true by (symmetry; apply Z.ltb_lt; lia).
      replace (0 <=? k) with true by (symmetry; apply Z.leb_le; lia). reflexivity. }
  fold (extra_masters mesh mp core).
  rewrite (write_group_text float_str mesh "# Master nodes" _ _ _ Hndf).
  2:{ apply Forall_forall. intros k Hk. unfold extra_masters in Hk.
      apply list_elem_of_In, filter_In in Hk as [Hk _].
      rewrite Forall_forall in Ham. apply Ham, list_elem_of_In, Hk. }
  2:{ reflexivity. }
  fold (extra_slaves mesh mp core).
  rewrite (write_group_text float_str mesh "# Slave nodes" _ _ _ Hndf).
  2:{ apply Forall_forall. intros k Hk. unfold extra_slaves in Hk.
      apply elem_of_unique, list_elem_of_In, filter_In in Hk as [Hk _].
      rewrite Forall_forall in Hall. apply Hall, list_elem_of_In, Hk. }
  2:{ unfold extra_slaves. symmetry. apply unique_nil_iff. }
  rewrite (write_constraints_text constraint_to_tcl _ _ Hcm).
  rewrite (omap_pointwise _ (last_with_master mp) _ Hcmap).
  fold (written_constraints mesh mp core).
  rewrite <- !app_assoc. reflexivity.
Qed.

Lemma write_cores_blocks (mesh : Mesh) (mp : list EqualDOF) (maps : Maps)
    (num_cores : list Z) :
  constrained mesh mp -> stands_for (length (points mesh)) mp maps ->
  forall f,
  write_cores float_str constraint_to_tcl mesh maps num_cores f
  = (f ++ flat_map (mp_block float_str constraint_to_tcl mesh mp) num_cores, inr tt).
Proof.
  intros Hmesh Hmaps. induction num_cores as [| core rest IH]; intros f.
  - cbn. rewrite app_nil_r. reflexivity.
  - cbn [write_cores flat_map].
    rewrite (write_core_block mesh mp maps core f Hmesh Hmaps), IH.
    rewrite <- app_assoc. reflexivity.
Qed.

(** The section of the mp constraints, for constraints on nodes of the
    mesh: the header, then the block of each core in increasing order. *)
Lemma mp_constraints_text (mesh : Mesh) (mp : list EqualDOF) (f : list string) :
  constrained mesh mp ->
  mp_constraints float_str constraint_to_tcl mesh mp f
  = (f ++ [(TclExport.newline
            +:+ "# mpConstraints ======================================"
            +:+ TclExport.newline)%string]
       ++ flat_map (mp_block float_str constraint_to_tcl mesh mp)
                   (unique (cd_Core mesh)),
     inr tt).
Proof.
  intros Hmesh. pose proof Hmesh as (_ & _ & _ & Hmp).
  unfold mp_constraints. cbv zeta.
  destruct (precompute_stands_for (length (points mesh)) mp Hmp [] _
              (zeros_stand_for (length (points mesh)))) as (maps & -> & Hmaps).
  cbn [app] in Hmaps.
  rewrite (write_cores_blocks mesh mp maps _ Hmesh Hmaps).
  rewrite <- app_assoc. reflexivity.
Qed.

Lemma extra_masters_elem (mesh : Mesh) (mp : list EqualDOF) (core k : Z) :
  k ∈ extra_masters mesh mp core
  <-> k ∈ active_masters_of mesh mp core /\ in_core mesh core k = false.
Proof.
  unfold extra_masters. rewrite list_elem_of_In, filter_In, <- list_elem_of_In.
  rewrite negb_true_iff. reflexivity.
Qed.

Lemma extra_slaves_elem (mesh : Mesh) (mp : list EqualDOF) (core s : Z) :
  s ∈ extra_slaves mesh mp core
  <-> (exists c, c ∈ written_constraints mesh mp core /\ s + 1 ∈ slaveNodes c)
      /\ in_core mesh core s = false.
Proof.
  unfold extra_slaves.
  rewrite elem_of_unique, list_elem_of_In, filter_In, <- list_elem_of_In.
  rewrite negb_true_iff, list_elem_of_fmap.
  split.
  - intros [(x & -> & Hx) Hc]. split; [| exact Hc].
    apply elem_of_concat in Hx as (l & Hx & Hl).
    apply list_elem_of_fmap in Hl as (c & -> & Hin).
    exists c. split; [exact Hin |]. replace (x - 1 + 1) with x by lia. exact Hx.
  - intros [(c & Hin & Hs) Hc]. split; [| exact Hc].
    exists (s + 1). split; [lia |]. apply elem_of_concat.
    exists (slaveNodes c). split; [exact Hs |].
    apply list_elem_of_fmap. exists c. auto.
Qed.

(** The nodes of the constraints of a block are nodes of the core or are
    written in the block: for constraints on nodes of the mesh the section
    is written without error as the header followed by the blocks of the
    cores; in a block, the master of every constraint is a point of a cell
    of the core or is among the master nodes written, and each of its
    slaves is a point of a cell of the core or is among the slave nodes
    written.  The nodes written in a block are nodes of the mesh that are
    in no cell of the core, and no node is written twice in a group. *)
Theorem mp_constraint_nodes_defined (mesh : Mesh) (mp : list EqualDOF)
    (f : list string) :
  constrained mesh mp ->
  mp_constraints float_str constraint_to_tcl mesh mp f
  = (f ++ [(TclExport.newline
            +:+ "# mpConstraints ======================================"
            +:+ TclExport.newline)%string]
       ++ flat_map (mp_block float_str constraint_to_tcl mesh mp)
                   (unique (cd_Core mesh)),
     inr tt)
  /\ (forall core c, c ∈ written_constraints mesh mp core ->
        (in_core mesh core (masterNode c - 1) = true
         \/ masterNode c - 1 ∈ extra_masters mesh mp core)
        /\ forall s, s ∈ slaveNodes c ->
             in_core mesh core (s - 1) = true
             \/ s - 1 ∈ extra_slaves mesh mp core)
  /\ (forall core k,
        k ∈ extra_masters mesh mp core \/ k ∈ extra_slaves mesh mp core ->
        in_core mesh core k = false /\ 0 <= k < Z.of_nat (length (points mesh)))
  /\ (forall core, NoDup (extra_masters mesh mp core)
                   /\ NoDup (extra_slaves mesh mp core)).
Proof.
  intros Hmesh. split; [apply (mp_constraints_text mesh mp f Hmesh) |].
  pose proof Hmesh as (_ & _ & _ & Hmp).
  split; [| split].
  - intros core c Hc. split.
    + destruct (in_core mesh core (masterNode c - 1)) eqn:E; [left; reflexivity |].
      right. apply extra_masters_elem. split; [| exact E].
      apply (written_constraint_known mesh mp core c Hc).
    + intros s Hs.
      destruct (in_core mesh core (s - 1)) eqn:E; [left; reflexivity |].
      right. apply extra_slaves_elem. split; [| exact E].
      exists c. split; [exact Hc |]. replace (s - 1 + 1) with s by lia. exact Hs.
  - intros core k [Hk | Hk].
    + apply extra_masters_elem in Hk as [Hk Hc]. split; [exact Hc |].
      apply (active_master_known mesh mp core k Hmp Hk).
    + apply extra_slaves_elem in Hk as [(c & Hc & Hs) Hcore]. split; [exact Hcore |].
      apply written_constraint_known in Hc as [Hc _].
      rewrite Forall_forall in Hmp. destruct (Hmp c Hc) as (_ & _ & Hrange).
      rewrite Forall_forall in Hrange. pose proof (Hrange _ Hs). lia.
  - intros core. split.
    + unfold extra_masters. apply NoDup_ListNoDup, List.NoDup_filter, NoDup_ListNoDup, NoDup_unique.
    + apply NoDup_unique.
Qed.

Lemma find_app_Some {A} (g : A -> bool) (l1 l2 : list A) :
  is_Some (List.find g l1) -> List.find g (l1 ++ l2) = List.find g l1.
Proof.
  induction l1 as [| x l1 IH]; cbn.
  - intros [? ?]. discriminate.
  - destruct (g x); [reflexivity | exact IH].
Qed.

Lemma active_masters_elem (mesh : Mesh) (mp : list EqualDOF) (core k : Z) :
  k ∈ active_masters_of mesh mp core
  <-> (0 <= k < Z.of_nat (length (points mesh))
       /\ is_master mp k = true /\ in_core mesh core k = true)
      \/ (exists s, 0 <= s < Z.of_nat (length (points mesh))
                    /\ is_slave mp s = true /\ in_core mesh core s = true
                    /\ last_master_of mp s = Some k).
Proof.
  unfold active_masters_of. cbv zeta.
  rewrite elem_of_unique, elem_of_app, elem_of_nodes_where, list_elem_of_omap.
  rewrite andb_true_iff. split.
  - intros [H | (s & Hs & Hk)]; [left; tauto | right].
    apply elem_of_nodes_where in Hs as [Hr Hg]. apply andb_true_iff in Hg.
    exists s. tauto.
  - intros [H | (s & Hr & Hs & Hc & Hk)]; [left; tauto | right].
    exists s. split; [| exact Hk]. apply elem_of_nodes_where.
    split; [exact Hr |]. apply andb_true_iff. auto.
Qed.

Lemma written_masters_NoDup (mp : list EqualDOF) (l : list Z) :
  NoDup l -> NoDup (map masterNode (omap (last_with_master mp) l)).
Proof.
  induction 1 as [| k l Hk _ IH]; [constructor |].
  cbn. destruct (last_with_master mp k) as [c |] eqn:E; [| exact IH].
  cbn. constructor; [| exact IH].
  intros Hin. apply list_elem_of_fmap in Hin as (c' & Heq & Hc').
  apply list_elem_of_omap in Hc' as (k' & Hk' & E').
  apply last_with_master_Some in E as [_ <-].
  apply last_with_master_Some in E' as [_ <-].
  apply Hk. rewrite Heq. exact Hk'.
Qed.

(** One constraint per master, the last: every constraint written in the
    block of a core is the last constraint created with its master, and
    its master is in the core or is the master of the last constraint of a
    slave in the core; a block holds no two constraints of one master.  A
    master in the core has its last constraint written in the block of the
    core, and so has the master of the last constraint of a slave in the
    core.  A constraint that is followed by a constraint with the same
    master has no part in what is written for that master. *)
Theorem mp_constraints_last_per_master (mesh : Mesh) (mp : list EqualDOF)
    (f : list string) :
  constrained mesh mp ->
  mp_constraints float_str constraint_to_tcl mesh mp f
  = (f ++ [(TclExport.newline
            +:+ "# mpConstraints ======================================"
            +:+ TclExport.newline)%string]
       ++ flat_map (mp_block float_str constraint_to_tcl mesh mp)
                   (unique (cd_Core mesh)),
     inr tt)
  /\ (forall core c, c ∈ written_constraints mesh mp core ->
        c ∈ mp /\ last_with_master mp (masterNode c - 1) = Some c
        /\ (in_core mesh core (masterNode c - 1) = true
            \/ exists s, in_core mesh core s = true
                         /\ last_master_of mp s = Some (masterNode c - 1)))
  /\ (forall core, NoDup (map masterNode (written_constraints mesh mp core)))
  /\ (forall core c, c ∈ mp -> in_core mesh core (masterNode c - 1) = true ->
        exists c', last_with_master mp (masterNode c - 1) = Some c'
                   /\ c' ∈ written_constraints mesh mp core)
  /\ (forall core c s, c ∈ mp -> s ∈ slaveNodes c ->
        in_core mesh core (s - 1) = true ->
        exists k c', last_master_of mp (s - 1) = Some k
                     /\ last_with_master mp k = Some c'
                     /\ c' ∈ written_constraints mesh mp core)
  /\ (forall before c after k, mp = before ++ c :: after ->
        is_master after k = true ->
        last_with_master mp k = last_with_master after k).
Proof.
  intros Hmesh. split; [apply (mp_constraints_text mesh mp f Hmesh) |].
  pose proof Hmesh as (_ & _ & _ & Hmp).
  split; [| split; [| split; [| split]]].
  - intros core c Hc.
    destruct (written_constraint_known mesh mp core c Hc) as (Hin & Hk & Hlast).
    split; [exact Hin |]. split; [exact Hlast |].
    apply active_masters_elem in Hk as [(_ & _ & Hcore) | (s & _ & _ & Hcore & Hs)];
      [left; exact Hcore | right; exists s; auto].
  - intros core. apply written_masters_NoDup, NoDup_unique.
  - intros core c Hc Hcore.
    rewrite Forall_forall in Hmp. destruct (Hmp c Hc) as (Hrange & _).
    assert (Hm : is_master mp (masterNode c - 1) = true).
    { apply existsb_exists. exists c.
      split; [apply list_elem_of_In; exact Hc | apply Z.eqb_refl]. }
    destruct (proj1 (is_master_last mp _) Hm) as [c' Hc'].
    exists c'. split; [exact Hc' |].
    apply list_elem_of_omap. exists (masterNode c - 1). split; [| exact Hc'].
    apply active_masters_elem. left. split; [lia | auto].
  - intros core c s Hc Hs Hcore.
    rewrite Forall_forall in Hmp. pose proof (Hmp c Hc) as (_ & _ & Hrange).
    rewrite Forall_forall in Hrange. pose proof (Hrange s Hs) as Hsr.
    assert (Hsl : is_slave mp (s - 1) = true).
    { apply existsb_exists. exists c. split; [apply list_elem_of_In; exact Hc |].
      apply existsb_exists. exists s.
      split; [apply list_elem_of_In; exact Hs | apply Z.eqb_refl]. }
    destruct (is_slave_last mp _ Hsl) as [k Hk].
    assert (Ham : k ∈ active_masters_of mesh mp core).
    { apply active_masters_elem. right. exists (s - 1). split; [lia | auto]. }
    destruct (active_master_known mesh mp core k) as [_ [c' Hc']].
    { apply Forall_forall. exact Hmp. }
    { exact Ham. }
    exists k, c'. split; [exact Hk |]. split; [exact Hc' |].
    apply list_elem_of_omap. exists k. auto.
  - intros before c after k -> Hk. unfold last_with_master.
    rewrite rev_app_distr. cbn [rev]. rewrite <- app_assoc.
    apply find_app_Some. apply find_rev_is_Some. exact Hk.
Qed.

Lemma np_set_outcome (arr : list bool) (i : Z) :
  (np_set arr i = inl IndexError /\ beyond (length arr) i)
  \/ (exists arr', np_set arr i = inr arr' /\ length arr' = length arr
                   /\ ~ beyond (length arr) i).
Proof.
  unfold np_set, beyond.
  destruct (TclExport.np_index (length arr) i) as [p |] eqn:E.
  - right. eexists. split; [reflexivity |]. split; [apply length_insert |].
    intros Hout. rewrite (np_index_outside _ _ Hout) in E. discriminate.
  - left. split; [reflexivity |]. unfold TclExport.np_index in E.
    destruct (Z.leb_spec 0 i), (Z.ltb_spec i (Z.of_nat (length arr)));
      cbn in E; try discriminate;
      destruct (Z.leb_spec (- Z.of_nat (length arr)) i), (Z.ltb_spec i 0);
      cbn in E; try discriminate; lia.
Qed.

Lemma mark_slaves_outcome (n : nat) (master_id : Z) (slaves : list Z) :
  forall maps, length (slave_nodes maps) = n -> length (master_nodes maps) = n ->
  (mark_slaves master_id slaves maps = inl IndexError
   /\ exists s, s ∈ slaves /\ beyond n (s - 1))
  \/ (exists maps', mark_slaves master_id slaves maps = inr maps'
                    /\ length (slave_nodes maps') = n
                    /\ length (master_nodes maps') = n
                    /\ forall s, s ∈ slaves -> ~ beyond n (s - 1)).
Proof.
  induction slaves as [| x slaves IH]; intros maps Hs Hm.
  - right. exists maps. split; [reflexivity |]. split; [exact Hs |]. split; [exact Hm |].
    intros s H. apply elem_of_nil in H. contradiction.
  - cbn [mark_slaves].
    destruct (np_set_outcome (slave_nodes maps) (x - 1))
      as [[-> Hout] | (arr & -> & Hlen & Hin)]; rewrite Hs in *.
    + left. split; [reflexivity |]. exists x. split; [left | exact Hout].
    + destruct (IH {| master_nodes := master_nodes maps; slave_nodes := arr;
                      constraint_map := constraint_map maps;
                      constraint_map_rev :=
                        <[x - 1 := master_id]> (constraint_map_rev maps) |}
                   Hlen Hm)
        as [[Hrun (s & Hsin & Hout)] | (maps' & Hrun & Hs' & Hm' & Hall)].
      * left. split; [exact Hrun |]. exists s. split; [right; exact Hsin | exact Hout].
      * right. exists maps'. split; [exact Hrun |]. split; [exact Hs' |].
        split; [exact Hm' |]. intros s Hsin.
        apply elem_of_cons in Hsin as [-> | Hsin]; [exact Hin | apply Hall, Hsin].
Qed.

Lemma precompute_beyond (n : nat) (mp : list EqualDOF) (c : EqualDOF) :
  c ∈ mp ->
  beyond n (masterNode c - 1) \/ (exists s, s ∈ slaveNodes c /\ beyond n (s - 1)) ->
  forall maps, length (slave_nodes maps) = n -> length (master_nodes maps) = n ->
  precompute mp maps = inl IndexError.
Proof.
  intros Hc Hbad. induction mp as [| c0 mp IH]; intros maps Hs Hm.
  - apply elem_of_nil in Hc. contradiction.
  - cbn [precompute].
    destruct (np_set_outcome (master_nodes maps) (masterNode c0 - 1))
      as [[-> _] | (arr & -> & Hlen & Hin)]; [reflexivity |].
    rewrite Hm in Hlen, Hin.
    destruct (mark_slaves_outcome n (masterNode c0 - 1) (slaveNodes c0)
                {| master_nodes := arr; slave_nodes := slave_nodes maps;
                   constraint_map := <[masterNode c0 - 1 := c0]> (constraint_map maps);
                   constraint_map_rev := constraint_map_rev maps |} Hs Hlen)
      as [[-> _] | (maps' & -> & Hs' & Hm' & Hall)]; [reflexivity |].
    apply elem_of_cons in Hc as [-> | Hc].
    + exfalso. destruct Hbad as [Hout | (s & Hsin & Hout)];
        [exact (Hin Hout) | exact (Hall s Hsin Hout)].
    + apply (IH Hc maps' Hs' Hm').
Qed.

(** A constraint on a node that the mesh does not have stops the export:
    when the tag of a master or of a slave, minus one, is no index of the
    nodes, the section raises IndexError after its header and writes
    nothing else. *)
Theorem constraint_beyond_mesh_raises (mesh : Mesh) (mp : list EqualDOF)
    (f : list string) (c : EqualDOF) :
  c ∈ mp ->
  beyond (length (points mesh)) (masterNode c - 1)
  \/ (exists s, s ∈ slaveNodes c /\ beyond (length (points mesh)) (s - 1)) ->
  mp_constraints float_str constraint_to_tcl mesh mp f
  = (f ++ [(TclExport.newline
            +:+ "# mpConstraints ======================================"
            +:+ TclExport.newline)%string],
     inl IndexError).
Proof.
  intros Hc Hbad. unfold mp_constraints. cbv zeta.
  rewrite (precompute_beyond (length (points mesh)) mp c Hc Hbad);
    [reflexivity | apply length_replicate | apply length_replicate].
Qed.

End MpConstraintFacts.

Section MpConstraintWitnesses.
Import Example Scenarios.

Lemma two_core_slab_constrained : constrained two_core_slab tie.
Proof.
  split; [reflexivity |]. split; [reflexivity |]. split.
  - apply slab_cells_in_range. cbn. lia.
  - repeat constructor; cbn; try lia. discriminate.
Qed.

(** The tie across the two cores of the slab is written without error. *)
Lemma mp_constraint_nodes_defined_witness :
  constrained two_core_slab tie
  /\ MpExport.mp_constraints whole_part equal_dof_line two_core_slab tie []
     = ([] ++ [(TclExport.newline
                +:+ "# mpConstraints ======================================"
                +:+ TclExport.newline)%string]
           ++ flat_map (mp_block whole_part equal_dof_line two_core_slab tie)
                       (unique (cd_Core two_core_slab)),
        inr tt).
Proof.
  split; [exact two_core_slab_constrained |].
  exact (proj1 (mp_constraint_nodes_defined whole_part equal_dof_line two_core_slab tie []
                  two_core_slab_constrained)).
Defined.

(** The tie is written in the block of core 0, which holds its master. *)
Lemma mp_constraints_last_per_master_witness :
  constrained two_core_slab tie
  /\ exists c', last_with_master tie 0 = Some c'
                /\ c' ∈ written_constraints two_core_slab tie 0.
Proof.
  split; [exact two_core_slab_constrained |].
  destruct (mp_constraints_last_per_master whole_part equal_dof_line two_core_slab tie []
              two_core_slab_constrained) as (_ & _ & _ & Hmaster & _).
  apply (Hmaster 0 (mkEqualDOF 1 [18] [1; 2; 3])); [left | reflexivity].
Defined.

(** Node 19 is no node of the slab of 18 nodes. *)
Lemma constraint_beyond_mesh_raises_witness :
  MpExport.mp_constraints whole_part equal_dof_line two_core_slab loose_tie []
  = ([] ++ [(TclExport.newline
             +:+ "# mpConstraints ======================================"
             +:+ TclExport.newline)%string],
     inl IndexError).
Proof.
  apply (constraint_beyond_mesh_raises whole_part equal_dof_line two_core_slab loose_tie []
           (mkEqualDOF 1 [19] [1; 2; 3])).
  - left.
  - right. exists 19. split; [left | right; cbn; lia].
Defined.

End MpConstraintWitnesses.
